(** * davao-earthquake: the aftershock timeline of [src/js/script.js]

    A shallow embedding of [parseDateTime] and of the data path of
    [createChart] (annotate, filter, sort, time range, scales, beeswarm
    relaxation), with the properties of the timeline stated over it.

    Conventions.
    - A JavaScript string is a Rocq [string]; the pattern matcher walks its
      characters as a [list ascii].
    - The numbers [parseDateTime] handles are non-negative integers or NaN;
      they are [option Z], with [None] for NaN.  Digit strings too long for a
      double are kept exact: any such field pushes the time value beyond
      [TimeClip]'s bound (8.64e15 < 2^53), so the Date is invalid either way.
    - A [Date] is its time value, [None] for an Invalid Date.
    - [null] is the [None] of the [option] around a [Date].
    - A call returns or throws: [completion].
    - A row of the table keeps the cells the script or d3 reads: [time], as
      whatever value [dynamicTyping] made of it, [magnitude], a number, and
      the columns [x], [y], [vx], [vy], [fx], [fy] that d3 takes for the
      position of a record when the table has them.  All other columns are
      carried along unread.
    - JavaScript doubles are read as exact numbers: integers in the date
      arithmetic, rationals ([Q]) in the time scale, which only divides
      integers, and real numbers ([R]) in the radius scale and the
      relaxation, which take square roots.
    - d3 is not part of the script: its scales and its force simulation are
      embedded as the library implements them, with what varies between its
      releases kept as a parameter (the class [D3]). *)

From Stdlib Require Import ZArith List String Ascii Bool Lia.
From Stdlib Require Import QArith Qreals Lqa.
From Stdlib Require Import Reals Lra.
From Stdlib Require Import Sorting.Sorted Sorting.Permutation.
Import ListNotations.

Open Scope Z_scope.

(** ** ECMAScript time values (ECMA-262, "Time Values and Time Range") *)

Module ESDate.

Definition msPerDay : Z := 86400000.
Definition msPerHour : Z := 3600000.
Definition msPerMinute : Z := 60000.
Definition msPerSecond : Z := 1000.

Definition Day (t : Z) : Z := t / msPerDay.
Definition TimeWithinDay (t : Z) : Z := t mod msPerDay.

Definition DaysInYear (y : Z) : Z :=
  if negb (y mod 4 =? 0) then 365
  else if negb (y mod 100 =? 0) then 366
  else if negb (y mod 400 =? 0) then 365
  else 366.

Definition DayFromYear (y : Z) : Z :=
  365 * (y - 1970) + (y - 1969) / 4 - (y - 1901) / 100 + (y - 1601) / 400.

Definition TimeFromYear (y : Z) : Z := msPerDay * DayFromYear y.

(** [YearFromTime t] is the largest [y] with [TimeFromYear y <= t]: the
    search climbs from an estimate that is never above it. *)
Fixpoint year_climb (fuel : nat) (y t : Z) : Z :=
  match fuel with
  | O => y
  | S fuel' => if TimeFromYear (y + 1) <=? t then year_climb fuel' (y + 1) t else y
  end.

Definition YearFromTime (t : Z) : Z :=
  let d := Day t in
  year_climb 2048 (1970 + (if d <? 0 then d / 365 - 1 else d / 366)) t.

Definition InLeapYear (t : Z) : Z :=
  if DaysInYear (YearFromTime t) =? 366 then 1 else 0.

Definition DayWithinYear (t : Z) : Z := Day t - DayFromYear (YearFromTime t).

Definition MonthFromTime (t : Z) : Z :=
  let d := DayWithinYear t in
  let l := InLeapYear t in
  if d <? 31 then 0
  else if d <? 59 + l then 1
  else if d <? 90 + l then 2
  else if d <? 120 + l then 3
  else if d <? 151 + l then 4
  else if d <? 181 + l then 5
  else if d <? 212 + l then 6
  else if d <? 243 + l then 7
  else if d <? 273 + l then 8
  else if d <? 304 + l then 9
  else if d <? 334 + l then 10
  else 11.

Definition DateFromTime (t : Z) : Z :=
  let d := DayWithinYear t in
  let l := InLeapYear t in
  match MonthFromTime t with
  | 0 => d + 1
  | 1 => d - 30
  | 2 => d - 58 - l
  | 3 => d - 89 - l
  | 4 => d - 119 - l
  | 5 => d - 150 - l
  | 6 => d - 180 - l
  | 7 => d - 211 - l
  | 8 => d - 242 - l
  | 9 => d - 272 - l
  | 10 => d - 303 - l
  | _ => d - 333 - l
  end.

Definition HourFromTime (t : Z) : Z := (t / msPerHour) mod 24.
Definition MinFromTime (t : Z) : Z := (t / msPerMinute) mod 60.
Definition SecFromTime (t : Z) : Z := (t / msPerSecond) mod 60.

(** Day number of the first day of month [mn] (0..11) of year [ym]: the [t]
    that MakeDay is told to find, as a day count. *)
Definition DayFromMonth (ym mn : Z) : Z :=
  let l := if DaysInYear ym =? 366 then 1 else 0 in
  match mn with
  | 0 => 0
  | 1 => 31
  | 2 => 59 + l
  | 3 => 90 + l
  | 4 => 120 + l
  | 5 => 151 + l
  | 6 => 181 + l
  | 7 => 212 + l
  | 8 => 243 + l
  | 9 => 273 + l
  | 10 => 304 + l
  | _ => 334 + l
  end.

Definition MakeTime (hour min sec ms : Z) : Z :=
  hour * msPerHour + min * msPerMinute + sec * msPerSecond + ms.

Definition MakeDay (year month date : Z) : Z :=
  let ym := year + month / 12 in
  let mn := month mod 12 in
  DayFromYear ym + DayFromMonth ym mn + date - 1.

Definition MakeDate (day time : Z) : Z := day * msPerDay + time.

Definition maxTime : Z := 8640000000000000.

Definition TimeClip (time : Z) : option Z :=
  if Z.abs time <=? maxTime then Some time else None.

(** The two-digit-year rule of the Date constructor. *)
Definition MakeFullYear (y : Z) : Z :=
  if (0 <=? y) && (y <=? 99) then 1900 + y else y.

End ESDate.
Export ESDate.

(** The host: its local time zone adjustment, in milliseconds, as a function
    of the local time value ([LocalTZA(t, false)] of ECMA-262).  Real zones
    stay well within a day of UTC. *)
Class Host := {
  LocalTZA : Z -> Z;
  LocalTZA_range : forall t, - msPerDay <= LocalTZA t <= msPerDay
}.

Definition UTC `{Host} (t : Z) : Z := t - LocalTZA t.

(** A host on UTC, and one on Philippine time (UTC+8, no daylight saving). *)
#[refine] Instance utcHost : Host := {| LocalTZA := fun _ => 0 |}.
Proof. intros _; unfold msPerDay; lia. Defined.

#[refine] Instance manilaHost : Host := {| LocalTZA := fun _ => 28800000 |}.
Proof. intros _; unfold msPerDay; lia. Defined.

Definition number : Type := option Z.

Record Date : Type := mkDate { getTime : number }.

Definition InvalidDate : Date := mkDate None.

(** [new Date(year, month, day, hour, minute)] *)
Definition newDate `{Host} (year month day hour minute : number) : Date :=
  match year, month, day, hour, minute with
  | Some y, Some m, Some dt, Some h, Some mi =>
      let finalDate := MakeDate (MakeDay (MakeFullYear y) m dt) (MakeTime h mi 0 0) in
      mkDate (TimeClip (UTC finalDate))
  | _, _, _, _, _ => InvalidDate
  end.

(** ** Regular expressions: greedy, backtracking, leftmost match *)

Module RegExp.

Inductive regex : Type :=
| Chr (c : ascii)
| Plus (cls : ascii -> bool)
| Cat (r1 r2 : regex)
| Alt (r1 r2 : regex)
| Group (r : regex).

Definition is_digit (c : ascii) : bool := (("0" <=? c) && (c <=? "9"))%char.

Definition is_word (c : ascii) : bool :=
  (is_digit c
   || (("A" <=? c) && (c <=? "Z"))
   || (("a" <=? c) && (c <=? "z"))
   || (c =? "_"))%char.

Definition chars : Type := list ascii.

(** The text consumed between [s] and its suffix [rest]. *)
Definition consumed (s rest : chars) : chars :=
  firstn (List.length s - List.length rest)%nat s.

Section Matcher.
Context {A : Type}.

(** [cls*] in front of the continuation [k]: the longest run first, one
    character given back at a time while [k] fails. *)
Fixpoint star (cls : ascii -> bool) (s : chars) (k : chars -> option A) : option A :=
  match s with
  | c :: s' =>
      if cls c then
        match star cls s' k with
        | Some r => Some r
        | None => k s
        end
      else k s
  | [] => k s
  end.

Definition plus (cls : ascii -> bool) (s : chars) (k : chars -> option A) : option A :=
  match s with
  | c :: s' => if cls c then star cls s' k else None
  | [] => None
  end.

Fixpoint run (r : regex) (s : chars) (caps : list chars)
    (k : chars -> list chars -> option A) : option A :=
  match r with
  | Chr c =>
      match s with
      | c' :: s' => if (c' =? c)%char then k s' caps else None
      | [] => None
      end
  | Plus cls => plus cls s (fun rest => k rest caps)
  | Cat r1 r2 => run r1 s caps (fun rest caps' => run r2 rest caps' k)
  | Alt r1 r2 =>
      match run r1 s caps k with
      | Some a => Some a
      | None => run r2 s caps k
      end
  | Group r' => run r' s caps (fun rest caps' => k rest (caps' ++ [consumed s rest]))
  end.

End Matcher.

(** A match anchored at the head of [s]: element 0 is the whole match, the
    groups follow in the order of their parentheses. *)
Definition exec_at (r : regex) (s : chars) : option (list chars) :=
  run r s [] (fun rest caps => Some (consumed s rest :: caps)).

(** [String.prototype.match] with a non-global pattern: the first start
    position, from the left, at which the pattern matches. *)
Fixpoint exec (r : regex) (s : chars) : option (list chars) :=
  match exec_at r s with
  | Some parts => Some parts
  | None =>
      match s with
      | [] => None
      | _ :: s' => exec r s'
      end
  end.

Fixpoint cat (rs : list regex) (last : regex) : regex :=
  match rs with
  | [] => last
  | r :: rs' => Cat r (cat rs' last)
  end.

End RegExp.
Export RegExp.

(** ** [parseDateTime] *)

(** The [months] object. *)
Definition months : list (string * Z) :=
  [ ("Jan", 0); ("Feb", 1); ("Mar", 2); ("Apr", 3); ("May", 4); ("Jun", 5);
    ("Jul", 6); ("Aug", 7); ("Sep", 8); ("Oct", 9); ("Nov", 10); ("Dec", 11) ]%string.

(** Property lookup [obj[key]]: [None] is [undefined], which [new Date]
    converts to NaN. *)
Fixpoint lookup (obj : list (string * Z)) (key : string) : number :=
  match obj with
  | [] => None
  | (k, v) :: obj' => if String.eqb k key then Some v else lookup obj' key
  end.

(** /(\d+) (\w+) (\d+) - (\d+):(\d+) (AM|PM)/ *)
Definition dateTimePattern : regex :=
  cat [ Group (Plus is_digit); Chr " ";
        Group (Plus is_word); Chr " ";
        Group (Plus is_digit); Chr " "; Chr "-"; Chr " ";
        Group (Plus is_digit); Chr ":";
        Group (Plus is_digit); Chr " " ]
      (Group (Alt (Cat (Chr "A") (Chr "M")) (Cat (Chr "P") (Chr "M")))).

Definition digit_value (c : ascii) : Z := Z.of_nat (nat_of_ascii c) - 48.

Fixpoint leading_digits (s : chars) : chars :=
  match s with
  | c :: s' => if is_digit c then c :: leading_digits s' else []
  | [] => []
  end.

(** [parseInt] as [parseDateTime] uses it, on the text of a \d+ group: the
    decimal value of the leading digits, NaN when there is none. *)
Definition parseInt (s : chars) : number :=
  match leading_digits s with
  | [] => None
  | ds => Some (fold_left (fun acc d => 10 * acc + digit_value d) ds 0)
  end.

(** [parts[i]] *)
Definition part (parts : list chars) (i : nat) : chars := nth i parts [].

(** [str.substring(0, 3)] *)
Definition substring03 (s : chars) : chars := firstn 3 s.

Definition num_eqb (a : number) (b : Z) : bool :=
  match a with
  | Some x => x =? b
  | None => false
  end.

Definition num_add (a : number) (b : Z) : number :=
  match a with
  | Some x => Some (x + b)
  | None => None
  end.

Definition parseDateTime `{Host} (dateTimeStr : string) : option Date :=
  match exec dateTimePattern (list_ascii_of_string dateTimeStr) with
  | None => None
  | Some parts =>
      let day := parseInt (part parts 1) in
      let month := lookup months (string_of_list_ascii (substring03 (part parts 2))) in
      let year := parseInt (part parts 3) in
      let hour := parseInt (part parts 4) in
      let minute := parseInt (part parts 5) in
      let ampm := string_of_list_ascii (part parts 6) in
      let hour := if (ampm =? "PM")%string && negb (num_eqb hour 12) then num_add hour 12 else hour in
      let hour := if (ampm =? "AM")%string && num_eqb hour 12 then Some 0 else hour in
      Some (newDate year month day hour minute)
  end.

(** ** Completions: a call returns or throws *)

Inductive error : Type := TypeError.

Inductive completion (A : Type) : Type :=
| Normal (a : A)
| Throw (e : error).
Arguments Normal {A} a.
Arguments Throw {A} e.

(** ** The cells of a row

    [loadData] parses with [dynamicTyping]: a cell comes as a number when it
    reads as one, as [true] or [false], as a Date when it reads as an ISO
    date, as [null] when it is empty and as a string otherwise; a column the
    table does not have is [undefined] on every row. *)

Inductive value : Type :=
| VUndefined
| VNull
| VBoolean (b : bool)
| VNumber (q : Q)
| VDate (dt : Date)
| VString (s : string).

(** [parseDateTime(d.time)], whatever the cell holds.  Only a string has a
    method [match]: on [null] and [undefined] the property access
    [dateTimeStr.match] throws a TypeError, and on a number, a boolean or a
    Date it is the call of [undefined] that does. *)
Definition parseDateTimeOf `{Host} (dateTimeStr : value) : completion (option Date) :=
  match dateTimeStr with
  | VString s => Normal (parseDateTime s)
  | _ => Throw TypeError
  end.

(** A cell of one of the columns d3 reads off a record, [x], [y], [vx],
    [vy], [fx] and [fy]: absent ([undefined]), empty ([null]) or a number,
    which is what [dynamicTyping] makes of a numeric column. *)
Inductive cell : Type :=
| Absent
| Empty
| Given (q : Q).

(** ** The records of [createChart]

    A row of the table, as [loadData] hands it over: the [time] cell, the
    [magnitude] ([magnitude: number] in the data model), and the cells d3
    will read.  [forEach] adds [date] to it. *)

Record row : Type := {
  time : value;
  magnitude : Q;
  column_x : cell;
  column_y : cell;
  column_vx : cell;
  column_vy : cell;
  column_fx : cell;
  column_fy : cell
}.

Record event : Type := { fields : row; date : option Date }.

(** [d.date = parseDateTime(d.time)] *)
Definition annotate `{Host} (d : row) : completion event :=
  match parseDateTimeOf (time d) with
  | Normal dt => Normal {| fields := d; date := dt |}
  | Throw e => Throw e
  end.

(** [data.forEach(callback)]: the elements in order, as the callback leaves
    them; a throw ends the loop and is the completion of the whole. *)
Fixpoint forEach {A B : Type} (callback : A -> completion B) (data : list A)
  : completion (list B) :=
  match data with
  | [] => Normal []
  | d :: data' =>
      match callback d with
      | Throw e => Throw e
      | Normal d' =>
          match forEach callback data' with
          | Throw e => Throw e
          | Normal rest => Normal (d' :: rest)
          end
      end
  end.

(** [d.date !== null && !isNaN(d.date.getTime())] *)
Definition isValid (d : event) : bool :=
  match date d with
  | Some dt =>
      match getTime dt with
      | Some _ => true
      | None => false
      end
  | None => false
  end.

(** Coercion of a [date] field to a number by [-]: [null] is 0, an Invalid
    Date is NaN. *)
Definition toNumber (d : option Date) : number :=
  match d with
  | Some dt => getTime dt
  | None => Some 0
  end.

(** [(a, b) => a.date - b.date], read by [sort] with NaN as +0. *)
Definition compareDates (a b : event) : Z :=
  match toNumber (date a), toNumber (date b) with
  | Some ta, Some tb => ta - tb
  | _, _ => 0
  end.

(** [Array.prototype.sort]: a stable sort (ECMAScript 2019); each element is
    placed behind those that do not compare greater. *)
Fixpoint insert {A : Type} (cmp : A -> A -> Z) (a : A) (l : list A) : list A :=
  match l with
  | [] => [a]
  | b :: l' => if 0 <? cmp b a then a :: b :: l' else b :: insert cmp a l'
  end.

Definition sort {A : Type} (cmp : A -> A -> Z) (l : list A) : list A :=
  fold_left (fun sorted a => insert cmp a sorted) l [].

(** [data.filter(...)] and [validData.sort(...)], on the records as
    [forEach] left them. *)
Definition validData (data : list event) : list event :=
  sort compareDates (filter isValid data).

(** The time value of a record that passed the filter (every record of
    [validData] did: [validData_valid] below). *)
Definition ms (d : event) : Z :=
  match toNumber (date d) with
  | Some t => t
  | None => 0
  end.

(** [Math.ceil(a / b)] for integers, [b > 0]. *)
Definition ceilDiv (a b : Z) : Z := - ((- a) / b).

Definition totalMinutes (startTime endTime : Z) : Z :=
  ceilDiv (endTime - startTime) (1000 * 60).

Definition pixelsPerMinute : Z := 15.

Definition chartHeight (startTime endTime : Z) : Z :=
  totalMinutes startTime endTime * pixelsPerMinute.

Definition isMobile (innerWidth : Z) : bool := innerWidth <? 768.

Record margins : Type := { top : Z; right : Z; bottom : Z; left : Z }.

Definition margin (innerWidth : Z) : margins :=
  let mobile := isMobile innerWidth in
  {| top := if mobile then 100 else 150;
     right := if mobile then 40 else 80;
     bottom := if mobile then 40 else 50;
     left := if mobile then 60 else 180 |}.

Definition width (innerWidth : Z) : Z :=
  innerWidth - left (margin innerWidth) - right (margin innerWidth).

(** ** The d3 library

    [script.js] calls d3 for its scales and for the relaxation; which
    release the page loads is not part of the script.  What differs between
    releases, and what the relaxation draws from outside, is gathered here.
    - [collapsed] is the position a continuous scale gives every input when
      its domain has zero width: 1/2 in d3-scale 3, 0 in earlier releases.
    - [spiralOffset] places the first node of a simulation: the node of
      index [i] starts at radius [10 sqrt (spiralOffset + i)]; 1/2 in
      d3-force 2 and later, 0 in 1.x.
    - [collideStrength] is the default strength of the collision force.
    - [random n] is the n-th draw, in [0, 1), of the random source behind
      [jiggle]: a seeded generator in d3-force 2 and later, [Math.random]
      in 1.x.
    - [visits tree radii this j] tells whether the quadtree walk of the
      collision force for the node [this] comes to the leaf of the later
      node [j].  The tree is built over the anticipated positions [x + vx],
      [y + vy] of [tree], once per application of the force, and the walk
      skips the cells that lie beyond the reach of [this].
    - [fixesAtStart] tells whether a simulation, when it takes its nodes in,
      moves a node that has [fx] or [fy] there at once
      ([if (node.fx != null) node.x = node.fx]); every release does so at
      the end of each tick. *)

(** A node is the record itself, with the properties d3 sets and reads on
    it; [fx] or [fy] is [None] when it is [null] or [undefined]. *)
Record node : Type := {
  index : nat; x : R; y : R; vx : R; vy : R; fx : option R; fy : option R
}.

Class D3 := {
  collapsed : Q;
  collapsed_unit : (0 <= collapsed <= 1)%Q;
  spiralOffset : R;
  spiralOffset_cases : spiralOffset = 0.5%R \/ spiralOffset = 0%R;
  collideStrength : R;
  collideStrength_range : (0 < collideStrength <= 1)%R;
  random : nat -> R;
  visits : list node -> list R -> node -> nat -> bool;
  fixesAtStart : bool
}.

(** The same release with another random source. *)
Definition withRandom (d3 : D3) (source : nat -> R) : D3 :=
  {| collapsed := @collapsed d3;
     collapsed_unit := @collapsed_unit d3;
     spiralOffset := @spiralOffset d3;
     spiralOffset_cases := @spiralOffset_cases d3;
     collideStrength := @collideStrength d3;
     collideStrength_range := @collideStrength_range d3;
     random := source;
     visits := @visits d3;
     fixesAtStart := @fixesAtStart d3 |}.

(** ** d3-scale: continuous scales with a two-point domain and range *)

Module TimeScale.
Local Open Scope Q_scope.

Definition normalize `{D3} (a b x : Q) : Q :=
  if Qeq_bool (b - a) 0 then collapsed else (x - a) / (b - a).

Definition interpolateNumber (a b t : Q) : Q := a * (1 - t) + b * t.

Definition bimap `{D3} (d0 d1 r0 r1 x : Q) : Q :=
  if negb (Qle_bool d0 d1)
  then interpolateNumber r1 r0 (normalize d1 d0 x)
  else interpolateNumber r0 r1 (normalize d0 d1 x).

(** [d3.scaleTime().domain([d0, d1]).range([r0, r1])], Dates as their time
    values. *)
Definition scaleTime `{D3} (d0 d1 : Z) (r0 r1 : Q) (t : Z) : Q :=
  bimap (inject_Z d0) (inject_Z d1) r0 r1 (inject_Z t).

End TimeScale.

Definition yScale `{D3} (startTime endTime : Z) (t : Z) : Q :=
  TimeScale.scaleTime startTime endTime 0 (inject_Z (chartHeight startTime endTime)) t.

Module SqrtScale.
Local Open Scope R_scope.

Definition transformSqrt (x : R) : R :=
  if Rlt_dec x 0 then - sqrt (- x) else sqrt x.

Definition normalize `{D3} (a b x : R) : R :=
  if Req_dec_T (b - a) 0 then Q2R collapsed else (x - a) / (b - a).

Definition interpolateNumber (a b t : R) : R := a * (1 - t) + b * t.

Definition bimap `{D3} (d0 d1 r0 r1 x : R) : R :=
  if Rlt_dec d1 d0
  then interpolateNumber r1 r0 (normalize d1 d0 x)
  else interpolateNumber r0 r1 (normalize d0 d1 x).

(** [d3.scaleSqrt().domain([d0, d1]).range([r0, r1])] *)
Definition scaleSqrt `{D3} (d0 d1 r0 r1 x : R) : R :=
  bimap (transformSqrt d0) (transformSqrt d1) r0 r1 (transformSqrt x).

End SqrtScale.

(** [d3.min] and [d3.max] over the array [v :: vs]. *)
Definition d3_min (v : Q) (vs : list Q) : Q :=
  fold_left (fun m a => if negb (Qle_bool m a) then a else m) vs v.

Definition d3_max (v : Q) (vs : list Q) : Q :=
  fold_left (fun m a => if negb (Qle_bool a m) then a else m) vs v.

Definition radiusRange (mobile : bool) : R * R :=
  if mobile then (10, 35)%R else (14, 45)%R.

Definition radiusScale `{D3} (mobile : bool) (minMagnitude maxMagnitude : Q) (m : Q) : R :=
  SqrtScale.scaleSqrt (Q2R minMagnitude) (Q2R maxMagnitude)
    (fst (radiusRange mobile)) (snd (radiusRange mobile)) (Q2R m).

(** ** d3-force: the beeswarm relaxation

    [d3.forceSimulation(validData)] with the forces "y", "x" and "collide",
    stopped at once and advanced by 300 calls of [tick]. *)

Module D3Force.
Local Open Scope R_scope.

Definition initialRadius : R := 10.
Definition initialAngle : R := PI * (3 - sqrt 5).

(** What a cell is as a number, [None] for NaN: [isNaN(undefined)] holds,
    [isNaN(null)] does not, and [null] counts as 0 wherever it is added to
    or subtracted from. *)
Definition numberOf (c : cell) : option R :=
  match c with
  | Absent => None
  | Empty => Some 0
  | Given q => Some (Q2R q)
  end.

(** [node.fx], when [node.fx != null]. *)
Definition fixedAt (c : cell) : option R :=
  match c with
  | Given q => Some (Q2R q)
  | _ => None
  end.

(** [initializeNodes], for the node of index [i]: a record keeps the
    position it brings, and its velocity; one without [x] or without [y] is
    put on the phyllotaxis spiral, and one without [vx] or without [vy] is
    at rest. *)
Definition initializeNode `{D3} (i : nat) (d : row) : node :=
  let fx0 := fixedAt (column_fx d) in
  let fy0 := fixedAt (column_fy d) in
  let x0 := match fx0 with
            | Some f => if fixesAtStart then Some f else numberOf (column_x d)
            | None => numberOf (column_x d)
            end in
  let y0 := match fy0 with
            | Some f => if fixesAtStart then Some f else numberOf (column_y d)
            | None => numberOf (column_y d)
            end in
  let radius := initialRadius * sqrt (spiralOffset + INR i) in
  let angle := INR i * initialAngle in
  {| index := i;
     x := match x0, y0 with
          | Some a, Some _ => a
          | _, _ => radius * cos angle
          end;
     y := match x0, y0 with
          | Some _, Some b => b
          | _, _ => radius * sin angle
          end;
     vx := match numberOf (column_vx d), numberOf (column_vy d) with
           | Some a, Some _ => a
           | _, _ => 0
           end;
     vy := match numberOf (column_vx d), numberOf (column_vy d) with
           | Some _, Some b => b
           | _, _ => 0
           end;
     fx := fx0;
     fy := fy0 |}.

Definition initializeNodes `{D3} (data : list row) : list node :=
  map (fun p : nat * row => initializeNode (fst p) (snd p))
      (combine (seq 0 (List.length data)) data).

Definition alphaMin : R := 0.001.
Definition alphaDecay : R := 1 - Rpower alphaMin (1 / 300).
Definition alphaTarget : R := 0.
Definition velocityDecay : R := 0.6.

Record simulationState : Type :=
  { alpha : R; nodes : list node; draws : nat }.

(** [d3.forceY(target).strength(strength)]: [node.vy += (yz[i] - node.y) * strengths[i] * alpha] *)
Definition forceY (yz : list R) (strength : R) (alpha : R) (ns : list node) : list node :=
  map (fun p : node * R =>
         let (n, target) := p in
         {| index := index n; x := x n; y := y n; vx := vx n;
            vy := vy n + (target - y n) * strength * alpha;
            fx := fx n; fy := fy n |})
      (combine ns yz).

(** [d3.forceX(target).strength(strength)]: [node.vx += (xz[i] - node.x) * strengths[i] * alpha] *)
Definition forceX (xz : R) (strength : R) (alpha : R) (ns : list node) : list node :=
  map (fun n : node =>
         {| index := index n; x := x n; y := y n;
            vx := vx n + (xz - x n) * strength * alpha; vy := vy n;
            fx := fx n; fy := fy n |})
      ns.

Definition jiggle `{D3} (draw : nat) : R := (random draw - 0.5) * 1e-6.

(** The leaf case of [apply] in [d3.forceCollide]: [this] is the node whose
    walk is under way, with its anticipated position [(xi, yi)] and radius
    [ri] taken at the start of the walk; [data] is the later node met, of
    radius [rj].  An offset that is exactly zero is replaced by a jiggle. *)
Definition apply `{D3} (xi yi ri rj : R) (this data : node) (draws : nat)
  : node * node * nat :=
  let r := ri + rj in
  let x0 := xi - x data - vx data in
  let y0 := yi - y data - vy data in
  let l := x0 * x0 + y0 * y0 in
  if Rlt_dec l (r * r) then
    let '(x1, l1, draws1) :=
      if Req_dec_T x0 0
      then (jiggle draws, l + jiggle draws * jiggle draws, S draws)
      else (x0, l, draws) in
    let '(y1, l2, draws2) :=
      if Req_dec_T y0 0
      then (jiggle draws1, l1 + jiggle draws1 * jiggle draws1, S draws1)
      else (y0, l1, draws1) in
    let l3 := (r - sqrt l2) / sqrt l2 * collideStrength in
    let x2 := x1 * l3 in
    let y2 := y1 * l3 in
    let w := (rj * rj) / (ri * ri + rj * rj) in
    ({| index := index this; x := x this; y := y this;
        vx := vx this + x2 * w; vy := vy this + y2 * w;
        fx := fx this; fy := fy this |},
     {| index := index data; x := x data; y := y data;
        vx := vx data - x2 * (1 - w); vy := vy data - y2 * (1 - w);
        fx := fx data; fy := fy data |},
     draws2)
  else (this, data, draws).

Definition unplaced : node :=
  {| index := 0; x := 0; y := 0; vx := 0; vy := 0; fx := None; fy := None |}.

Fixpoint store (i : nat) (n : node) (ns : list node) : list node :=
  match ns, i with
  | [], _ => []
  | _ :: ns', O => n :: ns'
  | m :: ns', S i' => m :: store i' n ns'
  end.

(** The walk for the node of index [i]: every later node the tree leads to
    is met once. *)
Definition walk `{D3} (tree : list node) (radii : list R) (i : nat)
    (st : list node * nat) : list node * nat :=
  let node0 := nth i (fst st) unplaced in
  let ri := nth i radii 0 in
  let xi := x node0 + vx node0 in
  let yi := y node0 + vy node0 in
  fold_left
    (fun (st : list node * nat) (j : nat) =>
       if visits tree radii node0 j then
         let '(n', d', draws') :=
           apply xi yi ri (nth j radii 0) (nth i (fst st) unplaced)
                 (nth j (fst st) unplaced) (snd st) in
         (store j d' (store i n' (fst st)), draws')
       else st)
    (seq (S i) (List.length (fst st) - S i))
    st.

(** [d3.forceCollide(radius)]: one iteration, the nodes in array order. *)
Definition forceCollide `{D3} (radii : list R) (st : list node * nat)
  : list node * nat :=
  let tree := fst st in
  fold_left (fun st' i => walk tree radii i st')
            (seq 0 (List.length tree)) st.

(** The forces of the chart, in the order they were registered. *)
Record forces : Type := { targetY : list R; centerX : R; radii : list R }.

(** The end of a tick, for one node: it moves by its damped velocity,
    unless it is fixed: a coordinate with [fx] or [fy] is put there, and its
    velocity is 0. *)
Definition advance (n : node) : node :=
  {| index := index n;
     x := match fx n with
          | None => x n + vx n * velocityDecay
          | Some f => f
          end;
     y := match fy n with
          | None => y n + vy n * velocityDecay
          | Some f => f
          end;
     vx := match fx n with
           | None => vx n * velocityDecay
           | Some _ => 0
           end;
     vy := match fy n with
           | None => vy n * velocityDecay
           | Some _ => 0
           end;
     fx := fx n;
     fy := fy n |}.

(** [simulation.tick()]: [alpha] decays, the forces act on the velocities in
    the order "y" (strength 1), "x" (strength 0.1), "collide", and the nodes
    advance. *)
Definition tick `{D3} (f : forces) (s : simulationState) : simulationState :=
  let alpha' := alpha s + (alphaTarget - alpha s) * alphaDecay in
  let ns1 := forceY (targetY f) 1 alpha' (nodes s) in
  let ns2 := forceX (centerX f) 0.1 alpha' ns1 in
  let '(ns3, draws') := forceCollide (radii f) (ns2, draws s) in
  {| alpha := alpha';
     nodes := map advance ns3;
     draws := draws' |}.

(** [d3.forceSimulation(validData)...stop()]: the nodes are the records. *)
Definition forceSimulation `{D3} (data : list event) : simulationState :=
  {| alpha := 1; nodes := initializeNodes (map fields data); draws := 0 |}.

(** [for (let i = 0; i < 300; i++) simulation.tick();] *)
Definition ticks `{D3} (f : forces) (count : nat) (s : simulationState)
  : simulationState :=
  Nat.iter count (tick f) s.

End D3Force.
Export D3Force.

(** ** [createChart] *)

(** What [createChart] has computed when it draws. *)
Record chart : Type := {
  chart_validData : list event;
  chart_startTime : Z;
  chart_endTime : Z;
  chart_totalMinutes : Z;
  chart_chartHeight : Z;
  chart_width : Z;
  chart_forces : forces;
  chart_nodes : list node
}.

(** The forces [simulation] is given, over [validData = first :: others]:
    [forceY(d => yScale(d.date))], [forceX(width / 2)] and
    [forceCollide(d => radiusScale(d.magnitude) + 1.5)]. *)
Definition simulation `{Host} `{D3} (innerWidth : Z) (first : event) (others : list event)
  : forces :=
  let vd := first :: others in
  let startTime := ms first in
  let endTime := ms (last vd first) in
  let lo := d3_min (magnitude (fields first)) (map (fun d => magnitude (fields d)) others) in
  let hi := d3_max (magnitude (fields first)) (map (fun d => magnitude (fields d)) others) in
  {| targetY := map (fun d => Q2R (yScale startTime endTime (ms d))) vd;
     centerX := (IZR (width innerWidth) / 2)%R;
     radii := map (fun d => (radiusScale (isMobile innerWidth) lo hi (magnitude (fields d)) + 1.5)%R) vd |}.

(** [createChart], from the rows [loadData] returned ([None] for its [null])
    and the width of the window.  [if (!data) return] ends it without a
    chart.  A throw of [parseDateTime] in the [forEach] is not caught.
    [validData[0].date] is read with no test on the length: on the empty
    array [validData[0]] is [undefined] and the property access throws a
    TypeError. *)
Definition createChart `{Host} `{D3} (innerWidth : Z) (data : option (list row))
  : completion (option chart) :=
  match data with
  | None => Normal None
  | Some data =>
      match forEach annotate data with
      | Throw e => Throw e
      | Normal data =>
          match validData data with
          | [] => Throw TypeError
          | first :: others =>
              let vd := first :: others in
              let startTime := ms first in
              let endTime := ms (last vd first) in
              let f := simulation innerWidth first others in
              Normal (Some
                {| chart_validData := vd;
                   chart_startTime := startTime;
                   chart_endTime := endTime;
                   chart_totalMinutes := totalMinutes startTime endTime;
                   chart_chartHeight := chartHeight startTime endTime;
                   chart_width := width innerWidth;
                   chart_forces := f;
                   chart_nodes := nodes (ticks f 300 (forceSimulation vd)) |})
          end
      end
  end.

(** ** The shape [parseDateTime] is written for, and the spec's clock rule *)

Definition allChars (cls : ascii -> bool) (s : string) : bool :=
  negb (s =? "")%string && forallb cls (list_ascii_of_string s).

(** "<day> <month> <year> - <hour>:<minute> <AM|PM>" *)
Definition dateTimeText (D M Y H Mi : string) (pm : bool) : string :=
  (D ++ " " ++ M ++ " " ++ Y ++ " - " ++ H ++ ":" ++ Mi ++ " "
     ++ (if pm then "PM" else "AM"))%string.

(** The decimal value of a digit string. *)
Definition decimal (s : string) : Z :=
  fold_left (fun acc d => 10 * acc + digit_value d) (list_ascii_of_string s) 0.

(** The 12-hour to 24-hour rule in the spec's words: 12 AM is 0, 12 PM is
    12, H PM is H + 12 and H AM is H for H from 1 to 11. *)
Definition to24h (pm : bool) (h : Z) : Z :=
  match pm, h =? 12 with
  | false, true => 0
  | true, true => 12
  | true, false => h + 12
  | false, false => h
  end.

(** The month [parseDateTime] reads off the word [M]. *)
Definition monthOf (M : string) : number :=
  lookup months (string_of_list_ascii (substring03 (list_ascii_of_string M))).

(** The local time value of a civil date and time, and the civil reading of
    a local time value. *)
Definition localInstant (year month day hour minute : Z) : Z :=
  MakeDate (MakeDay year month day) (MakeTime hour minute 0 0).

Definition civil (t : Z) : Z * Z * Z * Z * Z :=
  (YearFromTime t, MonthFromTime t, DateFromTime t, HourFromTime t, MinFromTime t).

(** ** Auxiliary notions of the statements *)

(** The next character, if any, is outside the class. *)
Definition stops (cls : ascii -> bool) (rest : chars) : Prop :=
  match rest with
  | [] => True
  | c :: _ => cls c = false
  end.

Definition ampmChars (pm : bool) : chars := if pm then ["P"; "M"]%char else ["A"; "M"]%char.

Definition byInstant (a b : event) : Prop := ms a <= ms b.


(** The record the loop makes of a row with text in its [time] cell. *)
Definition dated {host : Host} (d : row) : event :=
  {| fields := d;
     date := match time d with
             | VString s => parseDateTime s
             | _ => None
             end |}.

(** Every row has text in its [time] cell. *)
Definition timesAreText (data : list row) : Prop :=
  Forall (fun d => exists s, time d = VString s) data.

(** The record has none of the columns d3 takes a position from. *)
Definition unplacedRecord (d : row) : Prop :=
  column_x d = Absent /\ column_y d = Absent /\ column_vx d = Absent
  /\ column_vy d = Absent /\ column_fx d = Absent /\ column_fy d = Absent.

(** The anticipated centers of [a] and [b], position plus velocity, are
    closer to each other than the sum of the radii [ra] and [rb]. *)
Definition overlapping (a b : node) (ra rb : R) : Prop :=
  ((x a + vx a - x b - vx b) * (x a + vx a - x b - vx b)
   + (y a + vy a - y b - vy b) * (y a + vy a - y b - vy b)
   < (ra + rb) * (ra + rb))%R.

(** The decay factor of [alpha] per tick, [1 - alphaDecay]. *)
Definition alphaKeep : R := Rpower alphaMin (1 / 300).

(** Bounds on the ratio of velocity to remaining distance while the pull
    toward the center line relaxes: the first eight ticks, then for good. *)
Definition coneBound (k : nat) : R :=
  (match k with
   | 0%nat => 0
   | 1%nat => 0.06383
   | 2%nat => 0.10902
   | 3%nat => 0.1434
   | 4%nat => 0.17102
   | 5%nat => 0.1942
   | 6%nat => 0.21436
   | 7%nat => 0.23247
   | _ => 0.25
   end)%R.

(** One free node at rest at [(x0, 0)], before the first tick. *)
Definition atRest (x0 : R) : simulationState :=
  {| alpha := 1;
     nodes := [ {| index := 0; x := x0; y := 0; vx := 0; vy := 0;
                   fx := None; fy := None |} ];
     draws := 0 |}.

(** Two nodes held at the ordinates 0 and [h] and free along the abscissa,
    after one jiggle: the first is on the side [s] of the second (to its
    right for [s = 1], to its left for [s = -1]), and they close in no
    faster than [bound] times their distance per tick. *)
Definition heldApart (s h bound a : R) (st : simulationState) : Prop :=
  exists n0 n1 : node,
    st = {| alpha := a; nodes := [n0; n1]; draws := 1 |}
    /\ fx n0 = None /\ fx n1 = None /\ fy n0 = Some 0%R /\ fy n1 = Some h
    /\ y n0 = 0%R /\ y n1 = h /\ vy n0 = 0%R /\ vy n1 = 0%R
    /\ (0 < s * (x n0 - x n1))%R
    /\ (- bound * (s * (x n0 - x n1)) <= s * (vx n0 - vx n1))%R.

(** ** A concrete setting to evaluate the chart in *)

(** The linear congruential generator, seed 1, that d3-force 2 and later
    give a simulation as its random source. *)
Fixpoint lcgState (n : nat) : Z :=
  match n with
  | O => 1
  | S n' => (1664525 * lcgState n' + 1013904223) mod 4294967296
  end.

(** A current release of d3, and one of the d3-force 1.x era; in both, a
    walk that skips no cell, so that every later node is met.  The earlier
    one draws from [Math.random]: it stands here with one run of draws, and
    [withRandom] gives it any other. *)
#[refine] Instance d3Current : D3 :=
  {| collapsed := 1 # 2;
     spiralOffset := 0.5%R;
     collideStrength := 1%R;
     random := fun n => (IZR (lcgState (S n)) / 4294967296)%R;
     visits := fun _ _ _ _ => true;
     fixesAtStart := true |}.
Proof.
- split; discriminate.
- left; reflexivity.
- lra.
Defined.

#[refine] Instance d3Legacy : D3 :=
  {| collapsed := 0;
     spiralOffset := 0%R;
     collideStrength := 1%R;
     random := fun n => (IZR (lcgState (S n)) / 4294967296)%R;
     visits := fun _ _ _ _ => true;
     fixesAtStart := false |}.
Proof.
- split; discriminate.
- right; reflexivity.
- lra.
Defined.

(** A row of a table that has the columns [time] and [magnitude] and none
    of those d3 reads. *)
Definition plain (time : string) (magnitude : Q) : row :=
  {| time := VString time; magnitude := magnitude;
     column_x := Absent; column_y := Absent; column_vx := Absent;
     column_vy := Absent; column_fx := Absent; column_fy := Absent |}.

Definition mainshock : row := plain "10 Oct 2025 - 9:43 AM" (74 # 10).
Definition aftershock : row := plain "10 Oct 2025 - 11:05 AM" (58 # 10).
Definition unreadable : row := plain "garbage" (32 # 10).


(** A row of a table that also has the columns [x] and [y]. *)
Definition located (time : string) (magnitude : Q) (x y : Q) : row :=
  {| time := VString time; magnitude := magnitude;
     column_x := Given x; column_y := Given y; column_vx := Absent;
     column_vy := Absent; column_fx := Absent; column_fy := Absent |}.

(** A row of a table that also has the columns [x], [y] and [fy]. *)
Definition placed (time : string) (magnitude : Q) (x y fy : Q) : row :=
  {| time := VString time; magnitude := magnitude;
     column_x := Given x; column_y := Given y; column_vx := Absent;
     column_vy := Absent; column_fx := Absent; column_fy := Given fy |}.

(** ** [loadData]: the keys of a row, trimmed

    A row is the list of its own enumerable properties, in the order
    [for (key in row)] visits them; strings are lists of UTF-16 code units. *)

Module CleanRow.

Definition jsString : Type := list N.

(** WhiteSpace and LineTerminator of ECMA-262, which [trim] strips. *)
Definition isWhiteSpace (c : N) : bool :=
  ((c =? 9) || (c =? 10) || (c =? 11) || (c =? 12) || (c =? 13) || (c =? 32)
   || (c =? 160) || (c =? 5760) || ((8192 <=? c) && (c <=? 8202))
   || (c =? 8232) || (c =? 8233) || (c =? 8239) || (c =? 8287)
   || (c =? 12288) || (c =? 65279))%N.

Fixpoint trimStart (s : jsString) : jsString :=
  match s with
  | c :: s' => if isWhiteSpace c then trimStart s' else s
  | [] => []
  end.

Definition trimEnd (s : jsString) : jsString := rev (trimStart (rev s)).

(** [key.trim()] *)
Definition trim (s : jsString) : jsString := trimEnd (trimStart s).

Definition keyEqb (a b : jsString) : bool :=
  if list_eq_dec N.eq_dec a b then true else false.

(** The key "__proto__". *)
Definition protoKey : jsString := [95; 95; 112; 114; 111; 116; 111; 95; 95]%N.

Section Objects.
Context {V : Type} (isNull : V -> bool).

(** The own properties of an object, looked up by key, and [cleanRow] as
    it is being filled: its own properties and whether its prototype has
    been set to [null]. *)
Definition properties : Type := list (jsString * V).

Record object : Type := { own : properties; nullPrototype : bool }.

Fixpoint ownProperty (o : properties) (key : jsString) : option V :=
  match o with
  | [] => None
  | (k, v) :: o' => if keyEqb k key then Some v else ownProperty o' key
  end.

Fixpoint define (o : properties) (key : jsString) (v : V) : properties :=
  match o with
  | [] => [(key, v)]
  | (k, w) :: o' => if keyEqb k key then (k, v) :: o' else (k, w) :: define o' key v
  end.

(** [obj[key] = v] on an object created by [{}].  While the object inherits
    from [Object.prototype], the key "__proto__" reaches the inherited
    setter, which creates no property: [null] (an empty field, under
    [dynamicTyping]) takes the prototype away, an object replaces it by one
    that inherits the setter again, and any other value is ignored.  Once
    the prototype is [null], "__proto__" is a key like any other. *)
Definition assign (o : object) (key : jsString) (v : V) : object :=
  if keyEqb key protoKey && negb (nullPrototype o)
  then {| own := own o; nullPrototype := isNull v |}
  else {| own := define (own o) key v; nullPrototype := nullPrototype o |}.

(** The callback of [parsed.data.map]: [row] is the list of the properties
    [for (key in row)] visits, in that order. *)
Definition cleanRow (row : properties) : object :=
  fold_left (fun clean (p : jsString * V) => assign clean (trim (fst p)) (snd p))
            row {| own := []; nullPrototype := false |}.

(** The keys of [row] trimmed, as [cleanRow] meets them. *)
Definition trimmedKeys (row : properties) : properties :=
  map (fun p : jsString * V => (trim (fst p), snd p)) row.

End Objects.

End CleanRow.

(** ** The minute ticks

    [while (currentTime <= endTime)]: the loop, with the number of rounds it
    may take. *)

Fixpoint minuteLoop (fuel : nat) (currentTime endTime : Z) (allMinutes : list Z)
  : option (list Z) :=
  match fuel with
  | O => None
  | S fuel' =>
      if currentTime <=? endTime
      then minuteLoop fuel' (currentTime + 60000) endTime (allMinutes ++ [currentTime])
      else Some allMinutes
  end.

Definition allMinutes (fuel : nat) (startTime endTime : Z) : option (list Z) :=
  minuteLoop fuel startTime endTime [].

(** The ticks the loop ends with when the first is at [startTime]. *)
Definition minuteCount (startTime endTime : Z) : nat :=
  Z.to_nat ((endTime - startTime) / 60000 + 1).

Definition minuteAt (startTime : Z) (k : nat) : Z := startTime + 60000 * Z.of_nat k.

(** ** [addAnnotation] *)

Record annotationOptions : Type := {
  opt_fontSize : option string;
  opt_leftFontSize : option string;
  opt_offsetY : option Q;
  opt_height : option Q
}.

(** [value || fallback]: a missing or falsy value gives way. *)
Definition orString (value : option string) (fallback : string) : string :=
  match value with
  | Some s => if (s =? "")%string then fallback else s
  | None => fallback
  end.

Definition orNumber (value : option Q) (fallback : Q) : Q :=
  match value with
  | Some q => if Qeq_bool q 0 then fallback else q
  | None => fallback
  end.

(** The [foreignObject] an annotation is drawn in, in the coordinates of the
    group [g], and the font size and text of its [div]. *)
Record foreignObject : Type := {
  fo_x : Q; fo_y : Q; fo_width : Q; fo_height : Q;
  fo_fontSize : string; fo_html : string
}.

Definition addAnnotation `{D3} (innerWidth startTime endTime : Z)
    (startDate endDate : Z) (text side : string) (options : annotationOptions)
  : foreignObject :=
  let mobile := isMobile innerWidth in
  let m := margin innerWidth in
  let w := inject_Z (width innerWidth) in
  let annotationY :=
    ((yScale startTime endTime startDate + yScale startTime endTime endDate) / 2)%Q in
  let fontSize := orString (opt_fontSize options) (if mobile then "12px" else "16px") in
  let leftFontSize :=
    orString (opt_leftFontSize options) (if mobile then "10px" else "14px") in
  if (side =? "left")%string then
    {| fo_x := if mobile then inject_Z (- left m + 5) else inject_Z (- left m + 500);
       fo_y := (annotationY - 40)%Q;
       fo_width := if mobile then inject_Z (left m - 10) else inject_Z (left m - 20);
       fo_height := 80;
       fo_fontSize := leftFontSize;
       fo_html := text |}
  else
    let mobileXOffset := (w / 2 + 30)%Q in
    let mobileWidth := (inject_Z innerWidth - inject_Z (left m) - w / 2 - 50)%Q in
    {| fo_x := if mobile then mobileXOffset else (w - 550)%Q;
       fo_y := (annotationY - orNumber (opt_offsetY options) 100)%Q;
       fo_width := if mobile then mobileWidth else inject_Z (right m + 200);
       fo_height := orNumber (opt_height options) 120;
       fo_fontSize := fontSize;
       fo_html := text |}.

(** ** Circles, labels and the scroll-based reveal *)

(** The records that get a label: [validData.filter(d => d.magnitude >= 2.5)],
    each with the node the relaxation gave it. *)
Definition hasLabel (d : event) : bool := Qle_bool (25 # 10) (magnitude (fields d)).

Definition labelled {A : Type} (vd : list event) (marks : list A) : list A :=
  map snd (filter (fun p : event * A => hasLabel (fst p)) (combine vd marks)).

(** What scrolling changes: the class [visible] of each circle, the opacity
    of each label, and whether the scroll hint is displayed. *)
Record reveal : Type := {
  circleVisible : list bool;
  labelOpacity : list Z;
  hintDisplayed : bool
}.

Definition Rleb (a b : R) : bool := if Rle_dec a b then true else false.
Definition Rltb (a b : R) : bool := if Rlt_dec a b then true else false.

(** [updateVisibility], with [window.pageYOffset] and [window.innerHeight]. *)
Definition updateVisibility (innerWidth : Z) (circles labels : list node)
    (scrollTop windowHeight : R) (page : reveal) : reveal :=
  let scrollCenter := (scrollTop + windowHeight / 2)%R in
  {| circleVisible :=
       map (fun p : node * bool =>
              let circleY := (y (fst p) + IZR (top (margin innerWidth)))%R in
              if Rleb circleY scrollCenter && negb (snd p) then true else snd p)
           (combine circles (circleVisible page));
     labelOpacity :=
       map (fun p : node * Z =>
              let labelY := (y (fst p) + IZR (top (margin innerWidth)))%R in
              if Rleb labelY scrollCenter then 1 else snd p)
           (combine labels (labelOpacity page));
     hintDisplayed := if Rltb 200 scrollTop then false else hintDisplayed page |}.

(** The page as [createChart] has drawn it, before its own first call of
    [updateVisibility]. *)
Definition drawn (circles labels : list node) : reveal :=
  {| circleVisible := map (fun _ => false) circles;
     labelOpacity := map (fun _ => 0) labels;
     hintDisplayed := true |}.

(** The page after a sequence of calls, each with its scroll offset and
    window height. *)
Definition scrolled (innerWidth : Z) (circles labels : list node)
    (calls : list (R * R)) : reveal :=
  fold_left (fun page (c : R * R) =>
               updateVisibility innerWidth circles labels (fst c) (snd c) page)
            calls (drawn circles labels).

(** A call with this offset and height brings the reveal line to [d]. *)
Definition reaches (innerWidth : Z) (d : node) (call : R * R) : bool :=
  Rleb (y d + IZR (top (margin innerWidth))) (fst call + snd call / 2).

(** ** The tick of a minute

    The callback of [allMinutes.forEach], from [time.getMinutes()] on: the
    class of the tick line and, where a label is drawn, its font weight,
    its font size and the format handed to [d3.timeFormat]. *)

Record tickLabel : Type := { fontWeight : string; fontSize : string; timeFormat : string }.

Record tickMark : Type := { tickClass : string; label : option tickLabel }.

Definition drawTick (getMinutes : Z) : tickMark :=
  let isHourMark := getMinutes =? 0 in
  {| tickClass := if isHourMark then "major-time-tick" else "time-tick";
     label :=
       if (Z.rem getMinutes 5 =? 0) || isHourMark
       then Some {| fontWeight := if isHourMark then "bold" else "normal";
                    fontSize := if isHourMark then "14px" else "12px";
                    timeFormat := if isHourMark then "%b %d, %I:%M %p" else "%I:%M" |}
       else None |}.

(** ** Calendar and clock, for the statements *)

Definition daysInMonth (year month : Z) : Z :=
  match month with
  | 1 => if DaysInYear year =? 366 then 29 else 28
  | 3 | 5 | 8 | 10 => 30
  | _ => 31
  end.

(** Minutes since midnight on the 12-hour clock of the timestamps. *)
Definition clockMinutes (pm : bool) (hour minute : Z) : Z :=
  to24h pm hour * 60 + minute.

(** * Properties *)

(** ** The pattern on well-shaped text *)

Lemma list_ascii_of_string_app (a b : string) :
  list_ascii_of_string (a ++ b) = list_ascii_of_string a ++ list_ascii_of_string b.
Proof.
  induction a as [| c a IH]; simpl; [reflexivity | now rewrite IH].
Qed.

Lemma consumed_app (a b : chars) : consumed (a ++ b) b = a.
Proof.
  unfold consumed. rewrite length_app.
  replace (List.length a + List.length b - List.length b)%nat with (List.length a) by lia.
  rewrite firstn_app, Nat.sub_diag, firstn_all. simpl. apply app_nil_r.
Qed.

Lemma star_commit {A : Type} cls (ds rest : chars) (k : chars -> option A) r :
  forallb cls ds = true -> stops cls rest -> k rest = Some r ->
  star cls (ds ++ rest) k = Some r.
Proof.
  intros Hds Hstop Hk. induction ds as [| d ds IH]; simpl.
  - destruct rest as [| c rest']; simpl in *; [assumption | now rewrite Hstop].
  - simpl in Hds. apply andb_prop in Hds as [Hd Hds]. rewrite Hd, (IH Hds). reflexivity.
Qed.

Lemma plus_commit {A : Type} cls (ds rest : chars) (k : chars -> option A) r :
  ds <> [] -> forallb cls ds = true -> stops cls rest -> k rest = Some r ->
  plus cls (ds ++ rest) k = Some r.
Proof.
  intros Hne Hds Hstop Hk. destruct ds as [| d ds]; [congruence |].
  simpl in *. apply andb_prop in Hds as [Hd Hds]. rewrite Hd.
  now apply star_commit.
Qed.

Lemma allChars_chars cls s :
  allChars cls s = true ->
  list_ascii_of_string s <> [] /\ forallb cls (list_ascii_of_string s) = true.
Proof.
  unfold allChars. intros H. apply andb_prop in H as [Hne Hall]. split; [| assumption].
  destruct s; [discriminate | simpl; discriminate].
Qed.

Lemma exec_at_dateTime (lD lM lY lH lMi : chars) (pm : bool) (tail : chars) :
  lD <> [] -> forallb is_digit lD = true ->
  lM <> [] -> forallb is_word lM = true ->
  lY <> [] -> forallb is_digit lY = true ->
  lH <> [] -> forallb is_digit lH = true ->
  lMi <> [] -> forallb is_digit lMi = true ->
  exists whole,
    exec_at dateTimePattern
      (lD ++ " " :: lM ++ " " :: lY ++ " " :: "-" :: " " :: lH ++ ":" :: lMi
          ++ " " :: ampmChars pm ++ tail)%char
    = Some [whole; lD; lM; lY; lH; lMi; ampmChars pm].
Proof.
  intros ? ? ? ? ? ? ? ? ? ?.
  destruct pm; eexists; unfold exec_at, dateTimePattern, cat; cbn [run];
    (apply plus_commit; [assumption | assumption | reflexivity |]);
    cbn [Ascii.eqb Bool.eqb]; rewrite consumed_app;
    (apply plus_commit; [assumption | assumption | reflexivity |]);
    cbn [Ascii.eqb Bool.eqb]; rewrite consumed_app;
    (apply plus_commit; [assumption | assumption | reflexivity |]);
    cbn [Ascii.eqb Bool.eqb]; rewrite consumed_app;
    (apply plus_commit; [assumption | assumption | reflexivity |]);
    cbn [Ascii.eqb Bool.eqb]; rewrite consumed_app;
    (apply plus_commit; [assumption | assumption | reflexivity |]);
    cbn [Ascii.eqb Bool.eqb]; rewrite consumed_app;
    cbn [ampmChars app Ascii.eqb Bool.eqb].
  - change (consumed ("P" :: "M" :: tail)%char tail)
      with (consumed (["P"; "M"]%char ++ tail) tail).
    rewrite consumed_app. reflexivity.
  - change (consumed ("A" :: "M" :: tail)%char tail)
      with (consumed (["A"; "M"]%char ++ tail) tail).
    rewrite consumed_app. reflexivity.
Qed.

Lemma leading_digits_all (l : chars) :
  forallb is_digit l = true -> leading_digits l = l.
Proof.
  induction l as [| c l IH]; simpl; [reflexivity |].
  intros H. apply andb_prop in H as [Hc Hl]. now rewrite Hc, IH.
Qed.

Lemma parseInt_digits (s : string) :
  allChars is_digit s = true ->
  parseInt (list_ascii_of_string s) = Some (decimal s).
Proof.
  intros H. apply allChars_chars in H as [Hne Hall].
  unfold parseInt, decimal. rewrite (leading_digits_all _ Hall).
  destruct (list_ascii_of_string s); [congruence | reflexivity].
Qed.

Lemma dateTimeText_chars (D M Y H Mi : string) (pm : bool) :
  list_ascii_of_string (dateTimeText D M Y H Mi pm)
  = (list_ascii_of_string D ++ " " :: list_ascii_of_string M ++ " "
       :: list_ascii_of_string Y ++ " " :: "-" :: " "
       :: list_ascii_of_string H ++ ":" :: list_ascii_of_string Mi
       ++ " " :: ampmChars pm ++ [])%char.
Proof.
  unfold dateTimeText. rewrite !list_ascii_of_string_app.
  destruct pm; reflexivity.
Qed.

(** What [parseDateTime] returns on text of the expected shape. *)
Lemma parseDateTime_text {host : Host} (D M Y H Mi : string) (pm : bool) :
  allChars is_digit D = true -> allChars is_word M = true ->
  allChars is_digit Y = true -> allChars is_digit H = true ->
  allChars is_digit Mi = true ->
  parseDateTime (dateTimeText D M Y H Mi pm)
  = Some (newDate (Some (decimal Y)) (monthOf M) (Some (decimal D))
                  (Some (to24h pm (decimal H))) (Some (decimal Mi))).
Proof.
  intros HD HM HY HH HMi.
  pose proof (parseInt_digits _ HD) as PD. pose proof (parseInt_digits _ HY) as PY.
  pose proof (parseInt_digits _ HH) as PH. pose proof (parseInt_digits _ HMi) as PMi.
  apply allChars_chars in HD as [? ?], HM as [? ?], HY as [? ?], HH as [? ?], HMi as [? ?].
  unfold parseDateTime. rewrite dateTimeText_chars.
  destruct (exec_at_dateTime (list_ascii_of_string D) (list_ascii_of_string M)
              (list_ascii_of_string Y) (list_ascii_of_string H)
              (list_ascii_of_string Mi) pm []) as [whole Hexec]; try assumption.
  assert (Hex : exec dateTimePattern
            (list_ascii_of_string D ++ " " :: list_ascii_of_string M ++ " "
               :: list_ascii_of_string Y ++ " " :: "-" :: " "
               :: list_ascii_of_string H ++ ":" :: list_ascii_of_string Mi
               ++ " " :: ampmChars pm ++ [])%char
            = Some [whole; list_ascii_of_string D; list_ascii_of_string M;
                    list_ascii_of_string Y; list_ascii_of_string H;
                    list_ascii_of_string Mi; ampmChars pm]).
  { destruct (list_ascii_of_string D) as [| d0 lD] eqn:ED; [congruence |].
    cbn [exec app] in *. now rewrite Hexec. }
  rewrite Hex. cbn [part nth]. rewrite PD, PY, PH, PMi.
  unfold monthOf, to24h, num_eqb, num_add.
  destruct pm; cbn [ampmChars string_of_list_ascii String.eqb Ascii.eqb Bool.eqb andb negb];
    destruct (decimal H =? 12) eqn:E12; cbn [andb negb]; try reflexivity.
  all: try (rewrite E12; reflexivity).
  apply Z.eqb_eq in E12. rewrite E12. reflexivity.
Qed.

(** A local time value well inside the time range stays valid on any host. *)
Lemma TimeClip_UTC {host : Host} (t : Z) :
  Z.abs t <= maxTime - msPerDay -> TimeClip (UTC t) = Some (UTC t).
Proof.
  intros Ht. unfold TimeClip, UTC. pose proof (LocalTZA_range t) as Hz.
  unfold maxTime, msPerDay in *.
  destruct (Z.abs (t - LocalTZA t) <=? 8640000000000000) eqn:E; [reflexivity |].
  apply Z.leb_gt in E. lia.
Qed.

(** A local time value far outside the time range is invalid on any host. *)
Lemma TimeClip_UTC_out {host : Host} (t : Z) :
  maxTime + msPerDay < Z.abs t -> TimeClip (UTC t) = None.
Proof.
  intros Ht. unfold TimeClip, UTC. pose proof (LocalTZA_range t) as Hz.
  unfold maxTime, msPerDay in *.
  destruct (Z.abs (t - LocalTZA t) <=? 8640000000000000) eqn:E; [| reflexivity].
  apply Z.leb_le in E. lia.
Qed.

Lemma newDate_numbers {host : Host} (y m d h mi : Z) :
  newDate (Some y) (Some m) (Some d) (Some h) (Some mi)
  = mkDate (TimeClip (UTC (localInstant (MakeFullYear y) m d h mi))).
Proof. reflexivity. Qed.

(** [MakeDay] finds the first day of the month it is asked for: read back,
    the local instant of the first of each month of the years 1900 to 2100
    is that year, that month, day 1, at 0:00. *)
Lemma MakeDay_first_of_month (y m : Z) :
  1900 <= y <= 2100 -> 0 <= m <= 11 ->
  civil (localInstant y m 1 0 0) = (y, m, 1, 0, 0).
Proof.
  intros Hy Hm.
  assert (G : forallb (fun dy =>
                forallb (fun mn =>
                  let y' := 1900 + Z.of_nat dy in
                  let m' := Z.of_nat mn in
                  match civil (localInstant y' m' 1 0 0) with
                  | (a, b, c, d, e) =>
                      (a =? y') && (b =? m') && (c =? 1) && (d =? 0) && (e =? 0)
                  end) (seq 0 12)) (seq 0 201) = true) by (vm_compute; reflexivity).
  rewrite forallb_forall in G.
  specialize (G (Z.to_nat (y - 1900)) ltac:(apply in_seq; lia)).
  rewrite forallb_forall in G.
  specialize (G (Z.to_nat m) ltac:(apply in_seq; lia)).
  cbv zeta in G. rewrite !Z2Nat.id in G by lia.
  replace (1900 + (y - 1900)) with y in G by lia.
  destruct (civil (localInstant y m 1 0 0)) as [[[[a b] c] d] e].
  repeat (apply andb_prop in G as [G ?]).
  repeat match goal with H : (_ =? _) = true |- _ => apply Z.eqb_eq in H end.
  congruence.
Qed.

(** C6. On every text of the expected shape, [parseDateTime] returns the
    Date that [new Date] builds from the year, the month of the table, the
    day, the hour on the 24-hour clock (12 AM is 0, 12 PM is 12, H PM is
    H + 12, H AM is H) and the minute; from the year 100 on, that is the
    local instant of this civil date and time.  The three instants the spec
    lists come out as 2025-10-10 17:14, 00:00 and 12:30 local time. *)
Theorem parseDateTime_correct {host : Host} :
  (forall (D M Y H Mi : string) (pm : bool),
      allChars is_digit D = true -> allChars is_word M = true ->
      allChars is_digit Y = true -> allChars is_digit H = true ->
      allChars is_digit Mi = true ->
      parseDateTime (dateTimeText D M Y H Mi pm)
      = Some (newDate (Some (decimal Y)) (monthOf M) (Some (decimal D))
                      (Some (to24h pm (decimal H))) (Some (decimal Mi))))
  /\ (to24h false 12 = 0 /\ to24h true 12 = 12
      /\ forall h, 1 <= h <= 11 -> to24h true h = h + 12 /\ to24h false h = h)
  /\ (forall y m d h mi : Z,
         100 <= y ->
         newDate (Some y) (Some m) (Some d) (Some h) (Some mi)
         = mkDate (TimeClip (UTC (localInstant y m d h mi))))
  /\ (parseDateTime "10 Oct 2025 - 5:14 PM"
        = Some (mkDate (Some (UTC (localInstant 2025 9 10 17 14))))
      /\ civil (localInstant 2025 9 10 17 14) = (2025, 9, 10, 17, 14))
  /\ (parseDateTime "10 Oct 2025 - 12:00 AM"
        = Some (mkDate (Some (UTC (localInstant 2025 9 10 0 0))))
      /\ civil (localInstant 2025 9 10 0 0) = (2025, 9, 10, 0, 0))
  /\ (parseDateTime "10 Oct 2025 - 12:30 PM"
        = Some (mkDate (Some (UTC (localInstant 2025 9 10 12 30))))
      /\ civil (localInstant 2025 9 10 12 30) = (2025, 9, 10, 12, 30)).
Proof.
  split; [intros; now apply parseDateTime_text |].
  split.
  { repeat split; try reflexivity.
    - unfold to24h. destruct (h =? 12) eqn:E; [apply Z.eqb_eq in E; lia | reflexivity].
    - unfold to24h. destruct (h =? 12) eqn:E; [apply Z.eqb_eq in E; lia | reflexivity]. }
  split.
  { intros y m d h mi Hy. rewrite newDate_numbers. unfold MakeFullYear.
    destruct ((0 <=? y) && (y <=? 99)) eqn:E; [| reflexivity].
    apply andb_prop in E as [_ E]. apply Z.leb_le in E. lia. }
  assert (Hex : forall D H Mi pm,
             allChars is_digit D = true -> allChars is_digit H = true ->
             allChars is_digit Mi = true ->
             Z.abs (localInstant (MakeFullYear 2025) 9 (decimal D)
                                 (to24h pm (decimal H)) (decimal Mi))
               <= maxTime - msPerDay ->
             parseDateTime (dateTimeText D "Oct" "2025" H Mi pm)
             = Some (mkDate (Some (UTC (localInstant (MakeFullYear 2025) 9 (decimal D)
                                          (to24h pm (decimal H)) (decimal Mi)))))).
  { intros D H Mi pm HD HH HMi Hin.
    rewrite parseDateTime_text by (assumption || reflexivity).
    change (monthOf "Oct") with (Some 9). change (decimal "2025") with 2025.
    rewrite newDate_numbers, TimeClip_UTC by assumption. reflexivity. }
  split; [split; [| vm_compute; reflexivity] |].
  { apply (Hex "10" "5" "14" true)%string; try reflexivity. vm_compute; discriminate. }
  split; [split; [| vm_compute; reflexivity] |].
  { apply (Hex "10" "12" "00" false)%string; try reflexivity. vm_compute; discriminate. }
  split; [| vm_compute; reflexivity].
  apply (Hex "10" "12" "30" true)%string; try reflexivity. vm_compute; discriminate.
Qed.

Lemma parseDateTime_correct_witness :
  @parseDateTime manilaHost (dateTimeText "11" "October" "2025" "7" "05" true)
  = Some (@newDate manilaHost (Some 2025) (Some 9) (Some 11) (Some 19) (Some 5)).
Proof.
  exact (proj1 (@parseDateTime_correct manilaHost) "11" "October" "2025" "7" "05" true
               eq_refl eq_refl eq_refl eq_refl eq_refl)%string.
Defined.

(** ** Filter and sort *)

Lemma insert_perm {A : Type} (cmp : A -> A -> Z) (a : A) (l : list A) :
  Permutation (insert cmp a l) (a :: l).
Proof.
  induction l as [| b l IH]; simpl; [apply Permutation_refl |].
  destruct (0 <? cmp b a); [apply Permutation_refl |].
  apply perm_trans with (b :: a :: l); [now apply perm_skip | apply perm_swap].
Qed.

Lemma sort_from_perm {A : Type} (cmp : A -> A -> Z) (l acc : list A) :
  Permutation (fold_left (fun sorted a => insert cmp a sorted) l acc) (acc ++ l).
Proof.
  revert acc. induction l as [| a l IH]; intros acc; simpl.
  - rewrite app_nil_r. apply Permutation_refl.
  - eapply perm_trans; [apply IH |].
    eapply perm_trans; [apply Permutation_app_tail, insert_perm |].
    simpl. apply Permutation_middle.
Qed.

Lemma sort_perm {A : Type} (cmp : A -> A -> Z) (l : list A) :
  Permutation (sort cmp l) l.
Proof. apply (sort_from_perm cmp l []). Qed.

Lemma compareDates_valid (a b : event) :
  isValid a = true -> isValid b = true -> compareDates a b = ms a - ms b.
Proof.
  unfold isValid, compareDates, ms, toNumber.
  destruct (date a) as [[[ta |]] |]; try discriminate.
  destruct (date b) as [[[tb |]] |]; try discriminate.
  reflexivity.
Qed.

Lemma insert_sorted (a : event) (l : list event) :
  isValid a = true -> Forall (fun d => isValid d = true) l ->
  Sorted byInstant l -> Sorted byInstant (insert compareDates a l).
Proof.
  intros Ha Hl Hs. induction l as [| b l IH]; simpl.
  - repeat constructor.
  - inversion Hl as [| ? ? Hb Hl']; subst. inversion Hs as [| ? ? Hs' Hhd]; subst.
    rewrite (compareDates_valid b a Hb Ha).
    destruct (0 <? ms b - ms a) eqn:E.
    + apply Z.ltb_lt in E. constructor; [assumption |].
      constructor. unfold byInstant. lia.
    + apply Z.ltb_ge in E. constructor; [now apply IH |].
      destruct l as [| c l]; simpl.
      * constructor. unfold byInstant. lia.
      * inversion Hl' as [| ? ? Hc _]; subst.
        rewrite (compareDates_valid c a Hc Ha).
        destruct (0 <? ms c - ms a).
        -- constructor. unfold byInstant. lia.
        -- constructor. now inversion Hhd.
Qed.

Lemma insert_valid (a : event) (l : list event) :
  isValid a = true -> Forall (fun d => isValid d = true) l ->
  Forall (fun d => isValid d = true) (insert compareDates a l).
Proof.
  intros Ha Hl. eapply Permutation_Forall; [apply Permutation_sym, insert_perm |].
  now constructor.
Qed.

Lemma sort_from_sorted (l acc : list event) :
  Forall (fun d => isValid d = true) l ->
  Forall (fun d => isValid d = true) acc -> Sorted byInstant acc ->
  Sorted byInstant (fold_left (fun sorted a => insert compareDates a sorted) l acc).
Proof.
  revert acc. induction l as [| a l IH]; intros acc Hl Hacc Hs; simpl; [assumption |].
  inversion Hl; subst. apply IH; [assumption | now apply insert_valid | now apply insert_sorted].
Qed.

Lemma filter_valid (data : list event) :
  Forall (fun d => isValid d = true) (filter isValid data).
Proof.
  apply Forall_forall. intros d Hd. now apply filter_In in Hd.
Qed.

(** Every record of [validData] carries a valid Date, whose time value is
    [ms]. *)
Lemma validData_valid (data : list event) :
  Forall (fun d => date d = Some (mkDate (Some (ms d)))) (validData data).
Proof.
  eapply Permutation_Forall; [apply Permutation_sym, sort_perm |].
  eapply Forall_impl; [| apply filter_valid].
  intros d. unfold isValid, ms, toNumber.
  destruct (date d) as [[[t |]] |]; try discriminate. reflexivity.
Qed.

Lemma validData_sorted (data : list event) :
  StronglySorted byInstant (validData data).
Proof.
  apply Sorted_StronglySorted.
  - intros a b c. unfold byInstant. lia.
  - apply sort_from_sorted; [apply filter_valid | constructor | constructor].
Qed.



(** ** The loop over the rows *)

Lemma annotate_text {host : Host} (d : row) (s : string) :
  time d = VString s -> annotate d = Normal {| fields := d; date := parseDateTime s |}.
Proof. intros E. unfold annotate. rewrite E. reflexivity. Qed.

Lemma annotate_Normal {host : Host} (d : row) (e : event) :
  annotate d = Normal e ->
  exists s, time d = VString s /\ e = {| fields := d; date := parseDateTime s |}.
Proof.
  unfold annotate, parseDateTimeOf.
  destruct (time d) as [| | b | q | dt | s]; try discriminate.
  intros E. injection E as <-. now exists s.
Qed.

Lemma annotate_Throw {host : Host} (d : row) :
  (forall s, time d <> VString s) -> annotate d = Throw TypeError.
Proof.
  intros H. unfold annotate, parseDateTimeOf.
  destruct (time d) as [| | b | q | dt | s]; try reflexivity.
  now contradiction (H s).
Qed.

(** The loop completes exactly on the tables whose [time] cells all hold
    text; it leaves the rows in their order, each with the Date of its
    text. *)
Lemma forEach_annotate_Normal {host : Host} (data : list row) (events : list event) :
  forEach annotate data = Normal events ->
  timesAreText data
  /\ map fields events = data
  /\ Forall (fun e => exists s, time (fields e) = VString s /\ date e = parseDateTime s)
            events.
Proof.
  revert events. induction data as [| d data IH]; intros events E; cbn [forEach] in E.
  - injection E as <-. repeat split; constructor.
  - destruct (annotate d) as [e | err] eqn:Ed; [| discriminate].
    destruct (forEach annotate data) as [rest | err]; [| discriminate].
    injection E as <-. destruct (IH rest eq_refl) as (Ht & Hf & Hd).
    apply annotate_Normal in Ed as (s & Es & ->).
    split; [constructor; [now exists s | assumption] |].
    split; [cbn [map fields]; now rewrite Hf |].
    constructor; [exists s; now split | assumption].
Qed.

Lemma forEach_annotate_dated {host : Host} (data : list row) :
  timesAreText data -> forEach annotate data = Normal (map dated data).
Proof.
  induction 1 as [| d data (s & Es) _ IH]; [reflexivity |].
  cbn [forEach map]. rewrite (annotate_text d s Es), IH.
  unfold dated. rewrite Es. reflexivity.
Qed.

Lemma forEach_annotate_text {host : Host} (data : list row) :
  timesAreText data -> exists events, forEach annotate data = Normal events.
Proof. intros H. eexists. now apply forEach_annotate_dated. Qed.

Lemma plain_text (rows : list (string * Q)) :
  timesAreText (map (fun p => plain (fst p) (snd p)) rows).
Proof.
  apply Forall_forall. intros d Hd. apply in_map_iff in Hd as (p & <- & _).
  eexists. reflexivity.
Qed.


(** What [createChart] does once the loop has completed. *)
Lemma createChart_annotated {host : Host} {d3 : D3} (innerWidth : Z) (data : list row)
    (events : list event) :
  forEach annotate data = Normal events ->
  createChart innerWidth (Some data)
  = match validData events with
    | [] => Throw TypeError
    | first :: others =>
        Normal (Some
          {| chart_validData := first :: others;
             chart_startTime := ms first;
             chart_endTime := ms (last (first :: others) first);
             chart_totalMinutes := totalMinutes (ms first) (ms (last (first :: others) first));
             chart_chartHeight := chartHeight (ms first) (ms (last (first :: others) first));
             chart_width := width innerWidth;
             chart_forces := simulation innerWidth first others;
             chart_nodes := nodes (ticks (simulation innerWidth first others) 300
                                     (forceSimulation (first :: others))) |})
    end.
Proof. intros E. unfold createChart. rewrite E. reflexivity. Qed.




(** ** Text that does not parse *)

(** C7, refuted as stated: a month word outside the table does not make
    [parseDateTime] return [null]; it returns an Invalid Date. *)
Lemma parseDateTime_unknown_month_not_null :
  @parseDateTime utcHost "10 Xyz 2025 - 5:14 PM" = Some InvalidDate
  /\ @parseDateTime utcHost "10 Xyz 2025 - 5:14 PM" <> None.
Proof. split; [vm_compute; reflexivity | vm_compute; discriminate]. Qed.

(** C7, amended. [parseDateTime] returns [null] exactly when the pattern
    matches nowhere in the text.  When the text has the expected shape but
    the first three characters of its month word are not a key of the table
    (the keys are case-sensitive), the result is not [null] but an Invalid
    Date, whose time value is NaN.  Either way the record fails the validity
    test of [createChart]. *)
Theorem parseDateTime_null_or_invalid {host : Host} :
  (forall s : string,
      parseDateTime s = None <-> exec dateTimePattern (list_ascii_of_string s) = None)
  /\ (forall (D M Y H Mi : string) (pm : bool),
         allChars is_digit D = true -> allChars is_word M = true ->
         allChars is_digit Y = true -> allChars is_digit H = true ->
         allChars is_digit Mi = true -> monthOf M = None ->
         parseDateTime (dateTimeText D M Y H Mi pm) = Some InvalidDate)
  /\ (forall (d : row) (s : string),
         time d = VString s ->
         parseDateTime s = None \/ parseDateTime s = Some InvalidDate ->
         exists e : event, annotate d = Normal e /\ isValid e = false)
  /\ parseDateTime "garbage" = None
  /\ parseDateTime "10 oct 2025 - 5:14 PM" = Some InvalidDate.
Proof.
  split.
  { intros s. unfold parseDateTime.
    destruct (exec dateTimePattern (list_ascii_of_string s)); split; intros E;
      (discriminate || reflexivity). }
  split.
  { intros D M Y H Mi pm HD HM HY HH HMi Hm.
    rewrite parseDateTime_text by assumption. rewrite Hm. reflexivity. }
  split.
  { intros d s Es H. exists {| fields := d; date := parseDateTime s |}.
    split; [now apply annotate_text |].
    destruct H as [E | E]; unfold isValid; cbn [date]; rewrite E; reflexivity. }
  split; [vm_compute; reflexivity |].
  change "10 oct 2025 - 5:14 PM"%string
    with (dateTimeText "10" "oct" "2025" "5" "14" true).
  rewrite parseDateTime_text by reflexivity. reflexivity.
Qed.

Lemma parseDateTime_null_or_invalid_witness :
  @parseDateTime manilaHost (dateTimeText "3" "sept" "2025" "11" "59" false) = Some InvalidDate.
Proof.
  apply (proj1 (proj2 (@parseDateTime_null_or_invalid manilaHost))); reflexivity.
Defined.

(** ** Fields beyond the calendar *)

Lemma digit_value_range (c : ascii) : is_digit c = true -> 0 <= digit_value c <= 9.
Proof.
  destruct c as [[] [] [] [] [] [] [] []]; intros H; try discriminate H;
    vm_compute; split; discriminate.
Qed.

Lemma decimal_nonneg (s : string) :
  forallb is_digit (list_ascii_of_string s) = true -> 0 <= decimal s.
Proof.
  unfold decimal. generalize (list_ascii_of_string s). intros l.
  assert (G : forall acc, 0 <= acc -> forallb is_digit l = true ->
                0 <= fold_left (fun acc d => 10 * acc + digit_value d) l acc).
  { induction l as [| c l IH]; intros acc Hacc Hl; cbn [fold_left]; [assumption |].
    cbn [forallb] in Hl. apply andb_prop in Hl as [Hc Hl].
    apply IH; [| assumption]. pose proof (digit_value_range c Hc). lia. }
  apply G. lia.
Qed.

Lemma monthOf_range (M : string) (m : Z) : monthOf M = Some m -> 0 <= m <= 11.
Proof.
  unfold monthOf. generalize (string_of_list_ascii (substring03 (list_ascii_of_string M))).
  intros key. unfold months, lookup.
  repeat (destruct (String.eqb _ key); [intros E; injection E as <-; lia |]).
  discriminate.
Qed.

Lemma DayFromMonth_range (ym mn : Z) : 0 <= DayFromMonth ym mn <= 335.
Proof.
  unfold DayFromMonth. destruct (DaysInYear ym =? 366);
    destruct mn as [| p | p]; try lia;
    repeat (destruct p as [p | p |]; try lia).
Qed.

Lemma to24h_range (pm : bool) (h : Z) : 0 <= h -> 0 <= to24h pm h <= h + 12.
Proof.
  intros Hh. unfold to24h. destruct pm, (h =? 12); lia.
Qed.

Lemma localInstant_in_range (y m d h mi : Z) :
  0 <= y <= 9999 -> 0 <= m <= 11 -> 0 <= d <= 1000000 ->
  0 <= h <= 1000012 -> 0 <= mi <= 1000000 ->
  Z.abs (localInstant (MakeFullYear y) m d h mi) <= maxTime - msPerDay.
Proof.
  intros Hy Hm Hd Hh Hmi.
  unfold localInstant, MakeDate, MakeDay, MakeTime.
  rewrite (Z.div_small m 12), (Z.mod_small m 12), Z.add_0_r by lia.
  pose proof (DayFromMonth_range (MakeFullYear y) m) as HM.
  assert (HY : -720000 <= DayFromYear (MakeFullYear y) <= 2932900).
  { unfold MakeFullYear, DayFromYear.
    destruct ((0 <=? y) && (y <=? 99)) eqn:E.
    - apply andb_prop in E as [_ E]. apply Z.leb_le in E.
      Z.div_mod_to_equations; lia.
    - Z.div_mod_to_equations; lia. }
  unfold maxTime, msPerDay, msPerHour, msPerMinute, msPerSecond. lia.
Qed.

(** The Date of a text of the expected shape whose month is in the table and
    whose numbers are of moderate size. *)
Lemma parseDateTime_in_range {host : Host} (D M Y H Mi : string) (pm : bool) (m : Z) :
  allChars is_digit D = true -> allChars is_word M = true ->
  allChars is_digit Y = true -> allChars is_digit H = true ->
  allChars is_digit Mi = true -> monthOf M = Some m ->
  decimal Y <= 9999 -> decimal D <= 1000000 ->
  decimal H <= 1000000 -> decimal Mi <= 1000000 ->
  parseDateTime (dateTimeText D M Y H Mi pm)
  = Some (mkDate (Some (UTC (localInstant (MakeFullYear (decimal Y)) m (decimal D)
                                          (to24h pm (decimal H)) (decimal Mi))))).
Proof.
  intros HD HM HY HH HMi Hm BY BD BH BMi.
  rewrite parseDateTime_text by assumption. rewrite Hm, newDate_numbers.
  rewrite TimeClip_UTC; [reflexivity |].
  apply allChars_chars in HD as [_ HD], HY as [_ HY], HH as [_ HH], HMi as [_ HMi].
  apply decimal_nonneg in HD, HY, HH, HMi.
  pose proof (to24h_range pm (decimal H) HH).
  apply localInstant_in_range; try lia. now apply monthOf_range with M.
Qed.

Lemma forEach_In {A B : Type} (callback : A -> completion B) (data : list A)
    (done : list B) (d : A) (d' : B) :
  forEach callback data = Normal done -> In d data -> callback d = Normal d' ->
  In d' done.
Proof.
  revert done. induction data as [| a data IH]; intros done E Hin Hd; [contradiction |].
  cbn [forEach] in E. destruct (callback a) as [a' |] eqn:Ea; [| discriminate].
  destruct (forEach callback data) as [rest |]; [| discriminate].
  injection E as <-. destruct Hin as [-> | Hin].
  - left. congruence.
  - right. now apply IH.
Qed.

Lemma In_validData {host : Host} (data : list row) (events : list event) (d : row)
    (e : event) :
  forEach annotate data = Normal events ->
  In d data -> annotate d = Normal e -> isValid e = true -> In e (validData events).
Proof.
  intros E Hin He Hv. unfold validData.
  apply (Permutation_in _ (Permutation_sym (sort_perm _ _))).
  apply filter_In. split; [now apply (forEach_In annotate data events d e) | assumption].
Qed.

(** C10, refuted as stated: a day field of a thousand million has the
    expected shape, yet the Date is invalid and the record is dropped. *)
Lemma parseDateTime_excess_out_of_range :
  @parseDateTime utcHost "1000000000 Jan 2025 - 5:14 PM" = Some InvalidDate
  /\ exists e : event,
       @annotate utcHost (plain "1000000000 Jan 2025 - 5:14 PM" 3) = Normal e
       /\ isValid e = false.
Proof.
  split; [vm_compute; reflexivity |].
  eexists. split; [apply annotate_text; reflexivity |]. vm_compute. reflexivity.
Qed.

(** C10, amended. [parseDateTime] checks no range.  On a text of the
    expected shape whose month is in the table, with a year of at most four
    digits and day, hour and minute numbers up to a million, it returns a
    valid Date: the local time value is that of the first of the month at
    midnight plus one day per day beyond the first, one hour per hour (on
    the 24-hour clock) and one minute per minute, so that an excess carries
    into the next hour, day or month.  The record passes the validity test
    and is part of [validData] whenever the loop over the rows completes,
    as it does when every [time] cell holds text.  "32 Jan" reads as 1 Feb,
    "5:75 PM" as 6:15 PM, and "13:00 PM" as 1:00 AM of the next day. *)
Theorem parseDateTime_rolls_over {host : Host} :
  (forall (D M Y H Mi : string) (pm : bool) (m : Z),
      allChars is_digit D = true -> allChars is_word M = true ->
      allChars is_digit Y = true -> allChars is_digit H = true ->
      allChars is_digit Mi = true -> monthOf M = Some m ->
      decimal Y <= 9999 -> decimal D <= 1000000 ->
      decimal H <= 1000000 -> decimal Mi <= 1000000 ->
      let y := MakeFullYear (decimal Y) in
      let t := localInstant y m (decimal D) (to24h pm (decimal H)) (decimal Mi) in
      parseDateTime (dateTimeText D M Y H Mi pm) = Some (mkDate (Some (UTC t)))
      /\ t = localInstant y m 1 0 0 + (decimal D - 1) * msPerDay
             + to24h pm (decimal H) * msPerHour + decimal Mi * msPerMinute
      /\ forall (data : list row) (d : row),
           In d data -> time d = VString (dateTimeText D M Y H Mi pm) ->
           exists e : event,
             annotate d = Normal e /\ isValid e = true
             /\ (forall events, forEach annotate data = Normal events ->
                                In e (validData events))
             /\ (timesAreText data ->
                 exists events, forEach annotate data = Normal events
                                /\ In e (validData events)))
  /\ parseDateTime "32 Jan 2025 - 5:14 PM" = parseDateTime "1 Feb 2025 - 5:14 PM"
  /\ parseDateTime "32 Jan 2025 - 5:14 PM"
     = Some (mkDate (Some (UTC (localInstant 2025 1 1 17 14))))
  /\ parseDateTime "10 Oct 2025 - 5:75 PM" = parseDateTime "10 Oct 2025 - 6:15 PM"
  /\ parseDateTime "10 Oct 2025 - 13:00 PM" = parseDateTime "11 Oct 2025 - 1:00 AM".
Proof.
  split.
  { intros D M Y H Mi pm m HD HM HY HH HMi Hm BY BD BH BMi y t.
    assert (E : parseDateTime (dateTimeText D M Y H Mi pm) = Some (mkDate (Some (UTC t))))
      by now apply parseDateTime_in_range.
    split; [exact E |]. split.
    - unfold t, localInstant, MakeDate, MakeDay, MakeTime. ring.
    - intros data d Hin Ht.
      pose proof (annotate_text d _ Ht) as He.
      eexists. split; [exact He |].
      assert (Hv : isValid {| fields := d;
                              date := parseDateTime (dateTimeText D M Y H Mi pm) |} = true)
        by (unfold isValid; cbn [date]; rewrite E; reflexivity).
      split; [exact Hv |]. split.
      + intros events Ev. now apply (In_validData data events d).
      + intros Htext. destruct (forEach_annotate_text data Htext) as (events & Ev).
        exists events. split; [exact Ev | now apply (In_validData data events d)]. }
  assert (P : forall D M Y H Mi pm m t,
             allChars is_digit D = true -> allChars is_word M = true ->
             allChars is_digit Y = true -> allChars is_digit H = true ->
             allChars is_digit Mi = true -> monthOf M = Some m ->
             (decimal Y <=? 9999) && (decimal D <=? 1000000)
               && (decimal H <=? 1000000) && (decimal Mi <=? 1000000) = true ->
             localInstant (MakeFullYear (decimal Y)) m (decimal D)
                          (to24h pm (decimal H)) (decimal Mi) = t ->
             parseDateTime (dateTimeText D M Y H Mi pm) = Some (mkDate (Some (UTC t)))).
  { intros D M Y H Mi pm m t HD HM HY HH HMi Hm B <-.
    apply andb_prop in B as [B B4]. apply andb_prop in B as [B B3].
    apply andb_prop in B as [B1 B2].
    apply Z.leb_le in B1, B2, B3, B4. now apply parseDateTime_in_range. }
  assert (E1 : parseDateTime "32 Jan 2025 - 5:14 PM"
               = Some (mkDate (Some (UTC (localInstant 2025 1 1 17 14))))).
  { apply (P "32" "Jan" "2025" "5" "14" true 0)%string; reflexivity. }
  split.
  { rewrite E1. symmetry.
    apply (P "1" "Feb" "2025" "5" "14" true 1)%string; reflexivity. }
  split; [exact E1 |].
  split.
  { transitivity (Some (mkDate (Some (UTC (localInstant 2025 9 10 18 15))))).
    - apply (P "10" "Oct" "2025" "5" "75" true 9)%string; reflexivity.
    - symmetry. apply (P "10" "Oct" "2025" "6" "15" true 9)%string; reflexivity. }
  transitivity (Some (mkDate (Some (UTC (localInstant 2025 9 11 1 0))))).
  - apply (P "10" "Oct" "2025" "13" "00" true 9)%string; reflexivity.
  - symmetry. apply (P "11" "Oct" "2025" "1" "00" false 9)%string; reflexivity.
Qed.

Lemma parseDateTime_rolls_over_witness :
  @parseDateTime manilaHost (dateTimeText "31" "Nov" "2025" "0" "61" true)
  = Some (mkDate (Some (@UTC manilaHost (localInstant 2025 10 31 12 61)))).
Proof.
  apply (proj1 (@parseDateTime_rolls_over manilaHost)
           "31" "Nov" "2025" "0" "61" true 10)%string;
    try reflexivity; vm_compute; discriminate.
Defined.

(** ** The empty dataset *)

Lemma createChart_cons {host : Host} {d3 : D3} (innerWidth : Z) (data : list row)
    (events : list event) (first : event) (others : list event) :
  forEach annotate data = Normal events ->
  validData events = first :: others ->
  createChart innerWidth (Some data)
  = Normal (Some
      {| chart_validData := first :: others;
         chart_startTime := ms first;
         chart_endTime := ms (last (first :: others) first);
         chart_totalMinutes := totalMinutes (ms first) (ms (last (first :: others) first));
         chart_chartHeight := chartHeight (ms first) (ms (last (first :: others) first));
         chart_width := width innerWidth;
         chart_forces := simulation innerWidth first others;
         chart_nodes := nodes (ticks (simulation innerWidth first others) 300
                                 (forceSimulation (first :: others))) |}).
Proof. intros E Ev. rewrite (createChart_annotated _ _ _ E), Ev. reflexivity. Qed.

Lemma createChart_Normal {host : Host} {d3 : D3} (innerWidth : Z) (data : list row)
    (ch : chart) :
  createChart innerWidth (Some data) = Normal (Some ch) ->
  exists events first others,
    forEach annotate data = Normal events
    /\ validData events = first :: others
    /\ chart_validData ch = first :: others
    /\ chart_startTime ch = ms first
    /\ chart_endTime ch = ms (last (first :: others) first)
    /\ chart_totalMinutes ch = totalMinutes (chart_startTime ch) (chart_endTime ch)
    /\ chart_chartHeight ch = chartHeight (chart_startTime ch) (chart_endTime ch)
    /\ chart_forces ch = simulation innerWidth first others
    /\ chart_nodes ch = nodes (ticks (chart_forces ch) 300
                                 (forceSimulation (first :: others))).
Proof.
  intros E. destruct (forEach annotate data) as [events | err] eqn:Eev.
  2:{ unfold createChart in E. rewrite Eev in E. discriminate. }
  destruct (validData events) as [| first others] eqn:Ev.
  - rewrite (createChart_annotated _ _ _ Eev), Ev in E. discriminate.
  - rewrite (createChart_cons _ _ _ _ _ Eev Ev) in E.
    assert (E' : ch = {| chart_validData := first :: others;
         chart_startTime := ms first;
         chart_endTime := ms (last (first :: others) first);
         chart_totalMinutes := totalMinutes (ms first) (ms (last (first :: others) first));
         chart_chartHeight := chartHeight (ms first) (ms (last (first :: others) first));
         chart_width := width innerWidth;
         chart_forces := simulation innerWidth first others;
         chart_nodes := nodes (ticks (simulation innerWidth first others) 300
                                 (forceSimulation (first :: others))) |})
      by congruence.
    subst ch. exists events, first, others.
    cbn [chart_validData chart_startTime chart_endTime chart_totalMinutes
         chart_chartHeight chart_forces chart_nodes].
    split; [reflexivity |]. split; [exact Ev |].
    do 6 (split; [reflexivity |]). reflexivity.
Qed.

(** C8, on the code: with no record left after the filter, [createChart]
    does not stop with a no-data notice; it reads [validData[0].date] off
    the empty array and throws a TypeError. *)
Theorem createChart_empty_throws {host : Host} {d3 : D3} (innerWidth : Z) :
  createChart innerWidth (Some []) = Throw TypeError
  /\ createChart innerWidth (Some [unreadable]) = Throw TypeError
  /\ forall data events,
       forEach annotate data = Normal events -> validData events = [] ->
       createChart innerWidth (Some data) = Throw TypeError.
Proof.
  assert (G : forall data events,
             forEach annotate data = Normal events -> validData events = [] ->
             createChart innerWidth (Some data) = Throw TypeError).
  { intros data events E Ev. rewrite (createChart_annotated _ _ _ E), Ev. reflexivity. }
  split; [apply (G [] []); reflexivity |].
  split; [| exact G].
  apply (G [unreadable] [ {| fields := unreadable; date := None |} ]);
    vm_compute; reflexivity.
Qed.

Lemma createChart_empty_throws_witness :
  @createChart utcHost d3Current 1024 (Some [unreadable; unreadable]) = Throw TypeError.
Proof.
  apply (proj2 (proj2 (@createChart_empty_throws utcHost d3Current 1024))
           [unreadable; unreadable]
           [ {| fields := unreadable; date := None |};
             {| fields := unreadable; date := None |} ]);
    vm_compute; reflexivity.
Defined.

(** ** The time scale *)

Lemma ceilDiv_spec (a b : Z) : 0 < b -> a <= ceilDiv a b * b < a + b.
Proof.
  intros Hb. unfold ceilDiv.
  pose proof (Z.div_mod (- a) b ltac:(lia)) as E.
  pose proof (Z.mod_pos_bound (- a) b Hb) as B. nia.
Qed.

Lemma chartHeight_nonneg (t0 t1 : Z) : t0 <= t1 -> 0 <= chartHeight t0 t1.
Proof.
  intros H. unfold chartHeight, totalMinutes, pixelsPerMinute.
  pose proof (ceilDiv_spec (t1 - t0) (1000 * 60) ltac:(lia)). lia.
Qed.

Lemma chartHeight_degenerate (t0 : Z) : chartHeight t0 t0 = 0.
Proof.
  unfold chartHeight, totalMinutes, ceilDiv. now rewrite Z.sub_diag.
Qed.

Lemma yScale_degenerate {d3 : D3} (t0 t : Z) : (yScale t0 t0 t == 0)%Q.
Proof.
  unfold yScale. rewrite chartHeight_degenerate.
  unfold TimeScale.scaleTime, TimeScale.bimap, TimeScale.interpolateNumber.
  destruct (negb (Qle_bool (inject_Z t0) (inject_Z t0))); ring.
Qed.

Lemma yScale_formula {d3 : D3} (t0 t1 t : Z) :
  t0 < t1 ->
  (yScale t0 t1 t
   == inject_Z (chartHeight t0 t1) * ((inject_Z t - inject_Z t0) / (inject_Z t1 - inject_Z t0)))%Q.
Proof.
  intros Hlt. unfold yScale, TimeScale.scaleTime, TimeScale.bimap.
  assert (Hle : Qle_bool (inject_Z t0) (inject_Z t1) = true).
  { apply Qle_bool_iff. rewrite <- Zle_Qle. lia. }
  rewrite Hle. cbn [negb].
  unfold TimeScale.interpolateNumber, TimeScale.normalize.
  assert (Hne : Qeq_bool (inject_Z t1 - inject_Z t0) 0 = false).
  { destruct (Qeq_bool (inject_Z t1 - inject_Z t0) 0) eqn:E; [| reflexivity].
    apply Qeq_bool_iff in E. unfold Qminus in E.
    rewrite <- inject_Z_opp, <- inject_Z_plus in E.
    change 0%Q with (inject_Z 0) in E.
    apply (proj1 (inject_Z_injective _ _)) in E. lia. }
  rewrite Hne. ring.
Qed.

Lemma gap_positive (t0 t1 : Z) : t0 < t1 -> (0 < inject_Z t1 - inject_Z t0)%Q.
Proof.
  intros H. unfold Qminus. rewrite <- inject_Z_opp, <- inject_Z_plus.
  change 0%Q with (inject_Z 0). rewrite <- Zlt_Qlt. lia.
Qed.

Lemma yScale_linear_eq {d3 : D3} (t0 t1 t : Z) :
  t0 <= t1 ->
  (yScale t0 t1 t * (inject_Z t1 - inject_Z t0)
   == inject_Z (chartHeight t0 t1) * (inject_Z t - inject_Z t0))%Q.
Proof.
  intros Hle. destruct (Z.eq_dec t0 t1) as [<- | Hne].
  - rewrite yScale_degenerate, chartHeight_degenerate. ring.
  - assert (Hlt : t0 < t1) by lia. rewrite (yScale_formula _ _ _ Hlt).
    pose proof (gap_positive _ _ Hlt). field. Lqa.lra.
Qed.

Lemma yScale_ends {d3 : D3} (t0 t1 : Z) :
  t0 <= t1 ->
  (yScale t0 t1 t0 == 0)%Q /\ (yScale t0 t1 t1 == inject_Z (chartHeight t0 t1))%Q.
Proof.
  intros Hle. destruct (Z.eq_dec t0 t1) as [<- | Hne].
  - rewrite yScale_degenerate, chartHeight_degenerate. split; reflexivity.
  - assert (Hlt : t0 < t1) by lia. pose proof (gap_positive _ _ Hlt).
    rewrite !(yScale_formula _ _ _ Hlt). split; field; Lqa.lra.
Qed.

Lemma Q2R_inject_Z (z : Z) : Q2R (inject_Z z) = IZR z.
Proof. unfold Q2R, inject_Z. cbn [Qnum Qden]. field. Qed.

Lemma yScale_monotone {d3 : D3} (t0 t1 a b : Z) :
  t0 <= t1 -> a <= b -> (yScale t0 t1 a <= yScale t0 t1 b)%Q.
Proof.
  intros Hle Hab. destruct (Z.eq_dec t0 t1) as [<- | Hne].
  - rewrite !yScale_degenerate. apply Qle_refl.
  - assert (Hlt : t0 < t1) by lia. rewrite !(yScale_formula _ _ _ Hlt).
    pose proof (gap_positive _ _ Hlt) as Hg.
    assert (HH : (0 <= inject_Z (chartHeight t0 t1))%Q).
    { change 0%Q with (inject_Z 0). rewrite <- Zle_Qle. now apply chartHeight_nonneg. }
    assert (Hq : (inject_Z a <= inject_Z b)%Q) by now rewrite <- Zle_Qle.
    rewrite (Qmult_comm (inject_Z (chartHeight t0 t1)) ((inject_Z a - inject_Z t0) / _)).
    rewrite (Qmult_comm (inject_Z (chartHeight t0 t1)) ((inject_Z b - inject_Z t0) / _)).
    apply Qmult_le_compat_r; [| assumption].
    unfold Qdiv. apply Qmult_le_compat_r; [Lqa.lra |].
    apply Qlt_le_weak, Qinv_lt_0_compat. assumption.
Qed.

Lemma last_default {A : Type} (l : list A) (a d d' : A) :
  last (a :: l) d = last (a :: l) d'.
Proof.
  revert a. induction l as [| b l IH]; intros a; [reflexivity |].
  change (last (b :: l) d = last (b :: l) d'). apply IH.
Qed.

Lemma sorted_bounds (first : event) (others : list event) :
  StronglySorted byInstant (first :: others) ->
  Forall (fun d => ms first <= ms d <= ms (last (first :: others) first)) (first :: others).
Proof.
  revert first. induction others as [| second others IH]; intros first Hs.
  - constructor; [simpl; lia | constructor].
  - inversion Hs as [| ? ? Hs' Hall]; subst.
    specialize (IH second Hs'). inversion Hall as [| ? ? H12 _]; subst.
    unfold byInstant in H12.
    change (last (first :: second :: others) first) with (last (second :: others) first).
    rewrite (last_default others second first second).
    inversion IH as [| ? ? Hsec Hrest]; subst.
    constructor; [lia |].
    eapply Forall_impl; [| exact IH]. intros d Hd. cbv beta in Hd. lia.
Qed.

(** C4. In every chart drawn, the records lie between the first instant
    [t0] and the last instant [t1], both attained; the time scale sends [t0]
    to 0 and [t1] to the chart height, is linear in between (and beyond) and
    non-decreasing; the chart height is 15 pixels times the number of
    minutes spanned, rounded up. *)
Theorem yScale_linear {host : Host} {d3 : D3} (innerWidth : Z) (data : list row)
    (ch : chart) :
  createChart innerWidth (Some data) = Normal (Some ch) ->
  let t0 := chart_startTime ch in
  let t1 := chart_endTime ch in
  let height := chart_chartHeight ch in
  (In t0 (map ms (chart_validData ch)) /\ In t1 (map ms (chart_validData ch))
   /\ Forall (fun d => t0 <= ms d <= t1) (chart_validData ch))
  /\ (yScale t0 t1 t0 == 0)%Q
  /\ (yScale t0 t1 t1 == inject_Z height)%Q
  /\ (forall t, (yScale t0 t1 t * (inject_Z t1 - inject_Z t0)
                 == inject_Z height * (inject_Z t - inject_Z t0))%Q)
  /\ (forall a b, a <= b -> (yScale t0 t1 a <= yScale t0 t1 b)%Q)
  /\ height = chart_totalMinutes ch * 15
  /\ t1 - t0 <= chart_totalMinutes ch * 60000 < t1 - t0 + 60000.
Proof.
  intros E t0 t1 height.
  destruct (createChart_Normal _ _ _ E)
    as (events & first & others & _ & Ev & Hvd & Ht0 & Ht1 & Hmin & Hh & _ & _).
  fold t0 in Ht0, Hmin, Hh. fold t1 in Ht1, Hmin, Hh. fold height in Hh.
  pose proof (validData_sorted events) as Hs. rewrite Ev in Hs.
  pose proof (sorted_bounds _ _ Hs) as Hb. rewrite <- Ht0, <- Ht1 in Hb.
  assert (Hle : t0 <= t1).
  { inversion Hb as [| ? ? H1 _]; subst. lia. }
  split.
  { rewrite Hvd. split; [| split; [| exact Hb]].
    - left. now rewrite Ht0.
    - rewrite Ht1. apply in_map.
      clear. generalize first at 1 3. induction others as [| b l IH]; intros a.
      + now left.
      + change (last (a :: b :: l) first) with (last (b :: l) first).
        right. apply IH. }
  split.
  { destruct (Z.eq_dec t0 t1) as [Heq | Hne].
    - rewrite <- Heq. apply yScale_degenerate.
    - rewrite yScale_formula by lia. field.
      pose proof (gap_positive t0 t1 ltac:(lia)). Lqa.lra. }
  split.
  { rewrite Hh. destruct (Z.eq_dec t0 t1) as [Heq | Hne].
    - rewrite <- Heq, yScale_degenerate, chartHeight_degenerate. reflexivity.
    - rewrite yScale_formula by lia. field.
      pose proof (gap_positive t0 t1 ltac:(lia)). Lqa.lra. }
  split; [intros t; rewrite Hh; now apply yScale_linear_eq |].
  split; [intros a b Hab; now apply yScale_monotone |].
  split; [rewrite Hh, Hmin; reflexivity |].
  rewrite Hmin. unfold totalMinutes.
  pose proof (ceilDiv_spec (t1 - t0) (1000 * 60) ltac:(lia)). lia.
Qed.

Lemma sample_events :
  @forEach row event (@annotate manilaHost) [aftershock; unreadable; mainshock]
  = Normal (map (@dated manilaHost) [aftershock; unreadable; mainshock]).
Proof. apply forEach_annotate_dated. repeat constructor; eexists; reflexivity. Qed.

Lemma sample_validData :
  validData (map (@dated manilaHost) [aftershock; unreadable; mainshock])
  = [@dated manilaHost mainshock; @dated manilaHost aftershock].
Proof. vm_compute. reflexivity. Qed.

Lemma yScale_linear_witness :
  exists ch,
    @createChart manilaHost d3Current 1024 (Some [aftershock; unreadable; mainshock])
    = Normal (Some ch)
    /\ (@yScale d3Current (chart_startTime ch) (chart_endTime ch) (chart_endTime ch)
        == inject_Z (chart_chartHeight ch))%Q
    /\ chart_chartHeight ch = chart_totalMinutes ch * 15.
Proof.
  pose proof (@createChart_cons manilaHost d3Current 1024 _ _ _ _
                sample_events sample_validData) as E.
  eexists. split; [exact E |].
  pose proof (@yScale_linear manilaHost d3Current _ _ _ E) as T. cbv zeta in T.
  destruct T as (_ & _ & Hend & _ & _ & Hh & _).
  split; [exact Hend | exact Hh].
Defined.

(** ** The radius scale *)

Section RadiusScale.
Local Open Scope R_scope.
Context {d3 : D3}.

Lemma transformSqrt_nonneg (x : R) : 0 <= x -> SqrtScale.transformSqrt x = sqrt x.
Proof.
  intros H. unfold SqrtScale.transformSqrt. destruct (Rlt_dec x 0); [lra | reflexivity].
Qed.

Lemma transformSqrt_le (a b : R) :
  a <= b -> SqrtScale.transformSqrt a <= SqrtScale.transformSqrt b.
Proof.
  intros H. unfold SqrtScale.transformSqrt.
  destruct (Rlt_dec a 0), (Rlt_dec b 0).
  - apply Ropp_le_contravar, sqrt_le_1_alt. lra.
  - pose proof (sqrt_pos (- a)). pose proof (sqrt_pos b). lra.
  - lra.
  - now apply sqrt_le_1_alt.
Qed.

Lemma transformSqrt_lt (a b : R) :
  a < b -> SqrtScale.transformSqrt a < SqrtScale.transformSqrt b.
Proof.
  intros H. unfold SqrtScale.transformSqrt.
  destruct (Rlt_dec a 0), (Rlt_dec b 0).
  - apply Ropp_lt_contravar, sqrt_lt_1_alt. lra.
  - pose proof (sqrt_lt_R0 (- a) ltac:(lra)). pose proof (sqrt_pos b). lra.
  - lra.
  - apply sqrt_lt_1_alt. lra.
Qed.

(** The scale over a domain in ascending order. *)
Lemma bimap_ascending (d0 d1 r0 r1 x : R) :
  d0 < d1 ->
  SqrtScale.bimap d0 d1 r0 r1 x = r0 + (r1 - r0) * ((x - d0) / (d1 - d0)).
Proof.
  intros H. unfold SqrtScale.bimap, SqrtScale.interpolateNumber, SqrtScale.normalize.
  destruct (Rlt_dec d1 d0); [lra |].
  destruct (Req_dec_T (d1 - d0) 0); [lra | ring].
Qed.

Lemma collapsed_unit_R : 0 <= Q2R collapsed <= 1.
Proof.
  destruct collapsed_unit as [H0 H1]. apply Qle_Rle in H0, H1.
  rewrite RMicromega.Q2R_0 in H0. rewrite RMicromega.Q2R_1 in H1. lra.
Qed.

Lemma bimap_collapsed (d0 r0 r1 x : R) :
  SqrtScale.bimap d0 d0 r0 r1 x = r0 * (1 - Q2R collapsed) + r1 * Q2R collapsed.
Proof.
  unfold SqrtScale.bimap, SqrtScale.interpolateNumber, SqrtScale.normalize.
  destruct (Rlt_dec d0 d0); [lra |].
  destruct (Req_dec_T (d0 - d0) 0); [reflexivity | lra].
Qed.

Lemma bimap_monotone (d0 d1 r0 r1 a b : R) :
  d0 <= d1 -> r0 <= r1 -> a <= b ->
  SqrtScale.bimap d0 d1 r0 r1 a <= SqrtScale.bimap d0 d1 r0 r1 b.
Proof.
  intros Hd Hr Hab. destruct (Req_dec_T d0 d1) as [<- | Hne].
  - rewrite !bimap_collapsed. lra.
  - assert (Hlt : d0 < d1) by lra. rewrite !bimap_ascending by assumption.
    apply Rplus_le_compat_l, Rmult_le_compat_l; [lra |].
    unfold Rdiv. apply Rmult_le_compat_r; [| lra].
    apply Rlt_le, Rinv_0_lt_compat. lra.
Qed.

Lemma bimap_within (d0 d1 r0 r1 x : R) :
  d0 <= x <= d1 -> r0 <= r1 -> r0 <= SqrtScale.bimap d0 d1 r0 r1 x <= r1.
Proof.
  intros Hx Hr. destruct (Req_dec_T d0 d1) as [<- | Hne].
  - rewrite bimap_collapsed. pose proof collapsed_unit_R. nra.
  - assert (Hlt : d0 < d1) by lra. rewrite bimap_ascending by assumption.
    assert (Hu : 0 <= (x - d0) / (d1 - d0) <= 1).
    { split.
      - apply Rmult_le_pos; [lra |]. apply Rlt_le, Rinv_0_lt_compat. lra.
      - apply (Rmult_le_reg_r (d1 - d0)); [lra |]. unfold Rdiv.
        rewrite Rmult_assoc, Rinv_l by lra. lra. }
    nra.
Qed.

Lemma radiusRange_ordered (mobile : bool) :
  0 < fst (radiusRange mobile) <= snd (radiusRange mobile).
Proof. destruct mobile; simpl; lra. Qed.

End RadiusScale.

Lemma d3_min_le (vs : list Q) (v : Q) :
  (d3_min v vs <= v)%Q /\ Forall (fun a => (d3_min v vs <= a)%Q) vs.
Proof.
  revert v. induction vs as [| a vs IH]; intros v.
  - split; [apply Qle_refl | constructor].
  - unfold d3_min. cbn [fold_left].
    change (fold_left _ vs ?w) with (d3_min w vs).
    destruct (Qle_bool v a) eqn:E; cbn [negb].
    + apply Qle_bool_iff in E. destruct (IH v) as [H1 H2].
      split; [assumption |]. constructor; [eapply Qle_trans; eassumption | assumption].
    + assert (Hlt : (a < v)%Q).
      { apply Qnot_le_lt. intros C. apply Qle_bool_iff in C. congruence. }
      destruct (IH a) as [H1 H2].
      split; [apply Qle_trans with a; [assumption | now apply Qlt_le_weak] |].
      constructor; assumption.
Qed.

Lemma d3_max_ge (vs : list Q) (v : Q) :
  (v <= d3_max v vs)%Q /\ Forall (fun a => (a <= d3_max v vs)%Q) vs.
Proof.
  revert v. induction vs as [| a vs IH]; intros v.
  - split; [apply Qle_refl | constructor].
  - unfold d3_max. cbn [fold_left].
    change (fold_left _ vs ?w) with (d3_max w vs).
    destruct (Qle_bool a v) eqn:E; cbn [negb].
    + apply Qle_bool_iff in E. destruct (IH v) as [H1 H2].
      split; [assumption |]. constructor; [eapply Qle_trans; eassumption | assumption].
    + assert (Hlt : (v < a)%Q).
      { apply Qnot_le_lt. intros C. apply Qle_bool_iff in C. congruence. }
      destruct (IH a) as [H1 H2].
      split; [apply Qle_trans with a; [now apply Qlt_le_weak | assumption] |].
      constructor; assumption.
Qed.

Lemma radiusScale_within {d3 : D3} (mobile : bool) (first : Q) (others : list Q) (m : Q) :
  let lo := d3_min first others in
  let hi := d3_max first others in
  In m (first :: others) ->
  (fst (radiusRange mobile) <= radiusScale mobile lo hi m <= snd (radiusRange mobile))%R.
Proof.
  intros lo hi Hin.
  destruct (d3_min_le others first) as [Hlo1 Hlo2].
  destruct (d3_max_ge others first) as [Hhi1 Hhi2].
  fold lo in Hlo1, Hlo2. fold hi in Hhi1, Hhi2.
  pose proof (radiusRange_ordered mobile) as Hr.
  unfold radiusScale, SqrtScale.scaleSqrt.
  apply bimap_within; [| lra].
  assert (Hm : (lo <= m <= hi)%Q).
  { destruct Hin as [<- | Hin]; [split; assumption |].
    rewrite Forall_forall in Hlo2, Hhi2. split; [now apply Hlo2 | now apply Hhi2]. }
  split; apply transformSqrt_le, Qle_Rle, Hm.
Qed.

(** The ends of the domain go to the ends of the range. *)
Lemma radiusScale_ends {d3 : D3} (mobile : bool) (lo hi : Q) :
  (lo < hi)%Q ->
  radiusScale mobile lo hi lo = fst (radiusRange mobile)
  /\ radiusScale mobile lo hi hi = snd (radiusRange mobile).
Proof.
  intros Hlt. pose proof (transformSqrt_lt _ _ (Qlt_Rlt _ _ Hlt)) as Hs.
  unfold radiusScale, SqrtScale.scaleSqrt.
  rewrite !bimap_ascending by assumption. split; field; lra.
Qed.

(** One magnitude for all: every radius is the collapsed one. *)
Lemma radiusScale_single {d3 : D3} (mobile : bool) (m m' : Q) :
  radiusScale mobile m m m'
  = (fst (radiusRange mobile) * (1 - Q2R collapsed)
     + snd (radiusRange mobile) * Q2R collapsed)%R.
Proof. unfold radiusScale, SqrtScale.scaleSqrt. apply bimap_collapsed. Qed.

(** C9, refuted as stated: the area of a circle is not in proportion to
    the magnitude.  With the magnitudes 3.2 and 7.4 on a desktop viewport,
    the circles have the radii 14 and 45: the square of the radius is 61.25
    per unit of magnitude for the one and more than 273 for the other. *)
Lemma radiusScale_area_not_proportional :
  let r := @radiusScale d3Current false (d3_min (32 # 10) [74 # 10])
                        (d3_max (32 # 10) [74 # 10]) in
  (r (32 # 10) = 14 /\ r (74 # 10) = 45
   /\ r (32 # 10) * r (32 # 10) / Q2R (32 # 10) = 61.25
   /\ 273 < r (74 # 10) * r (74 # 10) / Q2R (74 # 10)
   /\ r (74 # 10) * r (74 # 10) * Q2R (32 # 10)
      <> r (32 # 10) * r (32 # 10) * Q2R (74 # 10))%R.
Proof.
  intros r. unfold r.
  change (d3_min (32 # 10) [74 # 10]) with (32 # 10)%Q.
  change (d3_max (32 # 10) [74 # 10]) with (74 # 10)%Q.
  destruct (@radiusScale_ends d3Current false (32 # 10) (74 # 10) ltac:(reflexivity))
    as [E0 E1].
  cbn [radiusRange fst snd] in E0, E1. rewrite E0, E1.
  change (Q2R (32 # 10)) with 3.2%R. change (Q2R (74 # 10)) with 7.4%R.
  repeat split; lra.
Qed.

(** C9, amended.  Over the domain from the least to the greatest magnitude
    of the records drawn, the radius scale is non-decreasing, keeps every
    record's radius within the pixel range, sends the least magnitude to the
    lower end and the greatest to the upper end, and is affine in the square
    root of the magnitude: r = A + B sqrt m.  Its square is therefore
    B^2 m + 2 A B sqrt m + A^2, which is linear in the magnitude, and then
    in proportion to it, only when A is 0: that is when the square roots of
    the greatest and the least magnitude happen to be in the ratio of the
    ends of the pixel range, 45 to 14 or 35 to 10. *)
Theorem radiusScale_monotone {d3 : D3} (mobile : bool) (first : Q) (others : list Q) :
  let lo := d3_min first others in
  let hi := d3_max first others in
  let r0 := fst (radiusRange mobile) in
  let r1 := snd (radiusRange mobile) in
  ((forall m0 m1 : Q, (m0 < m1)%Q ->
      radiusScale mobile lo hi m0 <= radiusScale mobile lo hi m1)
   /\ (forall m : Q, In m (first :: others) ->
         r0 <= radiusScale mobile lo hi m <= r1)
   /\ ((lo < hi)%Q ->
         radiusScale mobile lo hi lo = r0 /\ radiusScale mobile lo hi hi = r1)
   /\ ((0 <= lo)%Q -> (lo < hi)%Q -> forall m : Q, (0 <= m)%Q ->
         let B := (r1 - r0) / (sqrt (Q2R hi) - sqrt (Q2R lo)) in
         let A := r0 - B * sqrt (Q2R lo) in
         radiusScale mobile lo hi m = A + B * sqrt (Q2R m)
         /\ radiusScale mobile lo hi m * radiusScale mobile lo hi m
            = B * B * Q2R m + 2 * A * B * sqrt (Q2R m) + A * A
         /\ 0 < B
         /\ (A = 0 <-> r0 * sqrt (Q2R hi) = r1 * sqrt (Q2R lo))))%R.
Proof.
  intros lo hi r0 r1.
  destruct (d3_min_le others first) as [Hlo1 Hlo2].
  destruct (d3_max_ge others first) as [Hhi1 Hhi2].
  fold lo in Hlo1, Hlo2. fold hi in Hhi1, Hhi2.
  assert (Hlohi : (lo <= hi)%Q) by (eapply Qle_trans; eassumption).
  pose proof (radiusRange_ordered mobile) as Hr. fold r0 r1 in Hr.
  pose proof (transformSqrt_le _ _ (Qle_Rle _ _ Hlohi)) as Hd.
  unfold radiusScale, SqrtScale.scaleSqrt. fold r0 r1.
  split.
  { intros m0 m1 Hm. apply bimap_monotone; [assumption | lra |].
    apply transformSqrt_le, Qle_Rle, Qlt_le_weak, Hm. }
  split.
  { intros m Hin. apply bimap_within; [| lra].
    assert (Hm : (lo <= m <= hi)%Q).
    { destruct Hin as [<- | Hin]; [split; assumption |].
      rewrite Forall_forall in Hlo2, Hhi2. split; [now apply Hlo2 | now apply Hhi2]. }
    split; apply transformSqrt_le, Qle_Rle, Hm. }
  split.
  { intros Hlt. pose proof (transformSqrt_lt _ _ (Qlt_Rlt _ _ Hlt)) as Hs.
    rewrite !bimap_ascending by assumption. split; field; lra. }
  intros H0 Hlt m Hm. cbv zeta.
  set (B := ((r1 - r0) / (sqrt (Q2R hi) - sqrt (Q2R lo)))%R).
  set (A := (r0 - B * sqrt (Q2R lo))%R).
  pose proof (transformSqrt_lt _ _ (Qlt_Rlt _ _ Hlt)) as Hs.
  assert (H0' : (0 <= Q2R lo)%R) by (rewrite <- RMicromega.Q2R_0; now apply Qle_Rle).
  assert (Hm' : (0 <= Q2R m)%R) by (rewrite <- RMicromega.Q2R_0; now apply Qle_Rle).
  assert (Hhi' : (0 <= Q2R hi)%R) by (pose proof (Qle_Rle _ _ Hlohi); lra).
  rewrite bimap_ascending by assumption.
  rewrite !transformSqrt_nonneg in * by assumption.
  assert (E : (r0 + (r1 - r0) * ((sqrt (Q2R m) - sqrt (Q2R lo))
                                  / (sqrt (Q2R hi) - sqrt (Q2R lo)))
               = A + B * sqrt (Q2R m))%R).
  { unfold A, B. field. lra. }
  split; [exact E |]. rewrite E.
  pose proof (sqrt_sqrt _ Hm') as Hsq.
  split.
  { replace (B * B * Q2R m)%R with (B * B * (sqrt (Q2R m) * sqrt (Q2R m)))%R
      by now rewrite Hsq.
    ring. }
  assert (Hgap : (0 < sqrt (Q2R hi) - sqrt (Q2R lo))%R) by lra.
  assert (HA : (A * (sqrt (Q2R hi) - sqrt (Q2R lo))
                = r0 * sqrt (Q2R hi) - r1 * sqrt (Q2R lo))%R).
  { unfold A, B. field. lra. }
  split.
  { unfold B. apply Rdiv_lt_0_compat; [| lra].
    unfold r0, r1. destruct mobile; cbn [radiusRange fst snd]; lra. }
  split; intros H.
  - rewrite H in HA. lra.
  - assert (Hz : (A * (sqrt (Q2R hi) - sqrt (Q2R lo)) = 0)%R) by lra.
    apply Rmult_integral in Hz as [Hz | Hz]; lra.
Qed.

Lemma radiusScale_monotone_witness :
  (@radiusScale d3Current false (d3_min (74 # 10) [58 # 10; 32 # 10])
                 (d3_max (74 # 10) [58 # 10; 32 # 10])
                 (d3_max (74 # 10) [58 # 10; 32 # 10]) = 45)%R
  /\ (@radiusScale d3Current false (d3_min (74 # 10) [58 # 10; 32 # 10])
                    (d3_max (74 # 10) [58 # 10; 32 # 10]) (32 # 10)
      <= @radiusScale d3Current false (d3_min (74 # 10) [58 # 10; 32 # 10])
                      (d3_max (74 # 10) [58 # 10; 32 # 10]) (58 # 10))%R.
Proof.
  pose proof (@radiusScale_monotone d3Current false (74 # 10) [58 # 10; 32 # 10]) as T.
  cbv zeta in T. destruct T as (Hmono & _ & Hends & _).
  split.
  - apply Hends. reflexivity.
  - apply Hmono. reflexivity.
Defined.

(** ** The collision force on a pair *)

Section Collide.
Local Open Scope R_scope.
Context {d3 : D3}.

Lemma apply_apart (xi yi ri rj : R) (this data : node) (draws : nat) :
  ~ (xi - x data - vx data) * (xi - x data - vx data)
    + (yi - y data - vy data) * (yi - y data - vy data) < (ri + rj) * (ri + rj) ->
  apply xi yi ri rj this data draws = (this, data, draws).
Proof.
  intros H. unfold apply.
  destruct (Rlt_dec _ _) as [C | _]; [contradiction | reflexivity].
Qed.

Lemma apply_overlap (xi yi ri rj : R) (this data : node) (draws : nat) :
  let dx := xi - x data - vx data in
  let dy := yi - y data - vy data in
  let push := (ri + rj - sqrt (dx * dx + dy * dy)) / sqrt (dx * dx + dy * dy)
              * collideStrength in
  let w := (rj * rj) / (ri * ri + rj * rj) in
  dx * dx + dy * dy < (ri + rj) * (ri + rj) -> dx <> 0 -> dy <> 0 ->
  apply xi yi ri rj this data draws
  = ({| index := index this; x := x this; y := y this;
        vx := vx this + dx * push * w; vy := vy this + dy * push * w;
        fx := fx this; fy := fy this |},
     {| index := index data; x := x data; y := y data;
        vx := vx data - dx * push * (1 - w); vy := vy data - dy * push * (1 - w);
        fx := fx data; fy := fy data |},
     draws).
Proof.
  intros dx dy push w Hl Hx Hy. unfold apply. fold dx dy.
  destruct (Rlt_dec _ _) as [_ | C]; [| contradiction].
  destruct (Req_dec_T dx 0) as [C | _]; [contradiction |].
  destruct (Req_dec_T dy 0) as [C | _]; [contradiction |].
  reflexivity.
Qed.

Lemma sqrt_lt_square (l r : R) : 0 <= l -> 0 < r -> (sqrt l < r <-> l < r * r).
Proof.
  intros Hl Hr. split; intros H.
  - rewrite <- (sqrt_sqrt l Hl). pose proof (sqrt_pos l). nra.
  - rewrite <- (sqrt_square r) by lra. apply sqrt_lt_1_alt. lra.
Qed.

(** The pair step on a pair whose anticipated centers differ in both
    coordinates. *)
Lemma apply_threshold (xi yi ri rj : R) (this data : node) (draws : nat) :
  let dx := xi - x data - vx data in
  let dy := yi - y data - vy data in
  let dist := sqrt (dx * dx + dy * dy) in
  let res := apply xi yi ri rj this data draws in
  0 < ri -> 0 < rj -> dx <> 0 -> dy <> 0 ->
  (dist < ri + rj <-> fst res <> (this, data))
  /\ (~ dist < ri + rj -> res = (this, data, draws))
  /\ (dist < ri + rj ->
        let push := (ri + rj - dist) / dist * collideStrength in
        let w := (rj * rj) / (ri * ri + rj * rj) in
        0 < push /\ 0 < w < 1
        /\ res = ({| index := index this; x := x this; y := y this;
                     vx := vx this + dx * push * w; vy := vy this + dy * push * w;
                     fx := fx this; fy := fy this |},
                  {| index := index data; x := x data; y := y data;
                     vx := vx data - dx * push * (1 - w);
                     vy := vy data - dy * push * (1 - w);
                     fx := fx data; fy := fy data |},
                  draws)
        /\ (rj <= ri -> w <= 1 - w)).
Proof.
  intros dx dy dist res Hri Hrj Hdx Hdy.
  assert (Hl : 0 < dx * dx + dy * dy) by nra.
  assert (Hd : 0 < dist) by now apply sqrt_lt_R0.
  assert (Hiff : dist < ri + rj <-> dx * dx + dy * dy < (ri + rj) * (ri + rj)).
  { apply sqrt_lt_square; lra. }
  assert (Hw : 0 < (rj * rj) / (ri * ri + rj * rj) < 1).
  { assert (0 < ri * ri) by nra. assert (0 < rj * rj) by nra.
    split.
    - apply Rdiv_lt_0_compat; lra.
    - apply (Rmult_lt_reg_r (ri * ri + rj * rj)); [lra |].
      unfold Rdiv. rewrite Rmult_assoc, Rinv_l by lra. lra. }
  pose proof collideStrength_range as Hcs.
  assert (Hover : dist < ri + rj ->
            let push := (ri + rj - dist) / dist * collideStrength in
            let w := (rj * rj) / (ri * ri + rj * rj) in
            0 < push
            /\ res = ({| index := index this; x := x this; y := y this;
                         vx := vx this + dx * push * w; vy := vy this + dy * push * w;
                         fx := fx this; fy := fy this |},
                      {| index := index data; x := x data; y := y data;
                         vx := vx data - dx * push * (1 - w);
                         vy := vy data - dy * push * (1 - w);
                         fx := fx data; fy := fy data |},
                      draws)).
  { intros Hlt push w.
    split; [apply Rmult_lt_0_compat; [apply Rdiv_lt_0_compat; lra | lra] |].
    unfold res. rewrite apply_overlap by (try apply Hiff; assumption).
    fold dx dy dist. reflexivity. }
  split; [split |].
  - intros Hlt E. destruct (Hover Hlt) as [Hp Hres]. rewrite Hres in E.
    apply (f_equal (fun p : node * node => vx (fst p))) in E. cbn [fst vx] in E.
    assert (Hz : dx * ((ri + rj - dist) / dist * collideStrength)
                 * ((rj * rj) / (ri * ri + rj * rj)) = 0) by lra.
    apply Rmult_integral in Hz as [Hz | Hz]; [| lra].
    apply Rmult_integral in Hz as [Hz | Hz]; [contradiction | lra].
  - intros Hne. destruct (Rlt_dec dist (ri + rj)) as [Hlt | Hge]; [assumption |].
    exfalso. apply Hne. unfold res. rewrite apply_apart; [reflexivity |].
    intros C. apply Hge, Hiff, C.
  - split.
    + intros Hge. unfold res. apply apply_apart. intros C. apply Hge, Hiff, C.
    + intros Hlt push w. destruct (Hover Hlt) as [Hp Hres].
      split; [exact Hp |]. split; [exact Hw |]. split; [exact Hres |].
      intros Hle. unfold w.
      assert (0 < ri * ri) by nra. assert (0 < rj * rj) by nra.
      assert (Hsq : rj * rj <= ri * ri) by nra.
      apply (Rmult_le_reg_r (ri * ri + rj * rj)); [lra |].
      unfold Rdiv. rewrite Rmult_minus_distr_r, Rmult_assoc, Rinv_l by lra. lra.
Qed.

Lemma store_nth (i : nat) (ns : list node) : store i (nth i ns unplaced) ns = ns.
Proof.
  revert i. induction ns as [| m ns IH]; intros [| i]; cbn [store nth]; try reflexivity.
  now rewrite IH.
Qed.

Lemma fold_left_fixed {A B : Type} (f : A -> B -> A) (l : list B) (a : A) :
  (forall b, In b l -> f a b = a) -> fold_left f l a = a.
Proof.
  induction l as [| b l IH]; intros H; [reflexivity |].
  cbn [fold_left]. rewrite (H b (or_introl eq_refl)). apply IH.
  intros b' Hb'. apply H. now right.
Qed.

(** A pass of the collision force over nodes no two of which overlap
    changes nothing, wherever the walk goes. *)
Lemma forceCollide_apart (radii : list R) (ns : list node) (draws : nat) :
  (forall i j, (i < j < List.length ns)%nat ->
     ~ overlapping (nth i ns unplaced) (nth j ns unplaced)
                   (nth i radii 0) (nth j radii 0)) ->
  forceCollide radii (ns, draws) = (ns, draws).
Proof.
  intros H. unfold forceCollide. cbn [fst].
  apply fold_left_fixed. intros i Hi. apply in_seq in Hi.
  unfold walk. cbn [fst snd].
  apply fold_left_fixed. intros j Hj. apply in_seq in Hj.
  destruct (visits _ _ _ _); [| reflexivity].
  rewrite apply_apart.
  - now rewrite !store_nth.
  - intros C. apply (H i j); [lia |]. unfold overlapping.
    replace (x (nth i ns unplaced) + vx (nth i ns unplaced)
             - x (nth j ns unplaced) - vx (nth j ns unplaced))
      with (x (nth i ns unplaced) + vx (nth i ns unplaced)
            - x (nth j ns unplaced) - vx (nth j ns unplaced)) by reflexivity.
    exact C.
Qed.

(** The collision force on two nodes: the pair step, if the walk of the
    first comes to the second. *)
Lemma forceCollide_pair (radii : list R) (a b : node) (draws : nat) :
  forceCollide radii ([a; b], draws)
  = if visits [a; b] radii a 1
    then let '(a', b', draws') :=
           apply (x a + vx a) (y a + vy a) (nth 0 radii 0) (nth 1 radii 0) a b draws in
         ([a'; b'], draws')
    else ([a; b], draws).
Proof.
  unfold forceCollide. cbn [fst List.length seq fold_left].
  unfold walk at 2. cbn [fst snd List.length Nat.sub seq fold_left nth].
  destruct (visits [a; b] radii a 1).
  - destruct (apply _ _ _ _ a b draws) as [[a' b'] draws'].
    cbn [store]. unfold walk. cbn [fst snd List.length Nat.sub seq fold_left].
    reflexivity.
  - unfold walk. cbn [fst snd List.length Nat.sub seq fold_left]. reflexivity.
Qed.

End Collide.

Lemma radii_simulation {host : Host} {d3 : D3} (innerWidth : Z) (first : event)
    (others : list event) (i : nat) :
  let vd := first :: others in
  let lo := d3_min (magnitude (fields first)) (map (fun d => magnitude (fields d)) others) in
  let hi := d3_max (magnitude (fields first)) (map (fun d => magnitude (fields d)) others) in
  (i < List.length vd)%nat ->
  (nth i (radii (simulation innerWidth first others)) 0
   = radiusScale (isMobile innerWidth) lo hi (magnitude (fields (nth i vd first))) + 1.5
   /\ 0 < radiusScale (isMobile innerWidth) lo hi (magnitude (fields (nth i vd first))))%R.
Proof.
  intros vd lo hi Hi. split.
  - unfold simulation. cbn [radii]. fold vd lo hi.
    rewrite (nth_indep _ 0%R
               ((fun d => radiusScale (isMobile innerWidth) lo hi (magnitude (fields d))
                          + 1.5) first)%R)
      by now rewrite length_map.
    now rewrite (map_nth (fun d => radiusScale (isMobile innerWidth) lo hi
                                     (magnitude (fields d)) + 1.5)%R).
  - pose proof (radiusScale_within (isMobile innerWidth) (magnitude (fields first))
                  (map (fun d => magnitude (fields d)) others)
                  (magnitude (fields (nth i vd first)))) as Hw.
    cbv zeta in Hw. fold lo hi in Hw.
    pose proof (radiusRange_ordered (isMobile innerWidth)) as Hr.
    assert (Hin : In (magnitude (fields (nth i vd first)))
                     (magnitude (fields first) :: map (fun d => magnitude (fields d)) others)).
    { change (magnitude (fields first) :: map (fun d => magnitude (fields d)) others)
        with (map (fun d => magnitude (fields d)) vd).
      apply (in_map (fun d : event => magnitude (fields d))). now apply nth_In. }
    specialize (Hw Hin). lra.
Qed.

(** C2, refuted as stated: two records of magnitude 5 are the whole table,
    so both circles are drawn with radius 29.5; with their centers 60.6
    apart they are farther from each other than the two radii plus 1.5, yet
    the collision force pushes them. *)
Lemma forceCollide_pads_each_radius :
  let first := @dated manilaHost (plain "10 Oct 2025 - 9:43 AM" 5) in
  let second := @dated manilaHost (plain "10 Oct 2025 - 9:44 AM" 5) in
  let f := @simulation manilaHost d3Current 1024 first [second] in
  let a := {| index := 0; x := 0; y := 0; vx := 0; vy := 0; fx := None; fy := None |} in
  let b := {| index := 1; x := 36.36; y := 48.48; vx := 0; vy := 0;
              fx := None; fy := None |} in
  (radii f = [29.5 + 1.5; 29.5 + 1.5]
   /\ sqrt ((x a - x b) * (x a - x b) + (y a - y b) * (y a - y b)) = 60.6
   /\ ~ 60.6 < 29.5 + 29.5 + 1.5
   /\ fst (@forceCollide d3Current (radii f) ([a; b], 0%nat)) <> [a; b])%R.
Proof.
  intros first second f a b.
  assert (Hr : (radii f = [29.5 + 1.5; 29.5 + 1.5])%R).
  { unfold f, simulation. cbn [radii map fields magnitude first second dated plain].
    unfold radiusScale, SqrtScale.scaleSqrt.
    change (d3_min 5 (map (fun d => magnitude (fields d)) [second])) with 5%Q.
    change (d3_max 5 (map (fun d => magnitude (fields d)) [second])) with 5%Q.
    rewrite (@bimap_collapsed d3Current).
    change (isMobile 1024) with false. cbn [radiusRange fst snd].
    change (@collapsed d3Current) with (1 # 2)%Q.
    replace (Q2R (1 # 2)) with (1 / 2)%R by (unfold Q2R; cbn; lra).
    repeat f_equal; lra. }
  assert (Hs : forall v : R, v = (60.6 * 60.6)%R -> sqrt v = 60.6%R).
  { intros v ->. apply sqrt_square. lra. }
  split; [exact Hr |]. subst a b. cbn [x y vx vy].
  split; [apply Hs; lra |]. split; [lra |].
  rewrite (@forceCollide_pair d3Current). rewrite Hr.
  change (@visits d3Current _ _ _ 1%nat) with true. cbn [nth x y vx vy].
  rewrite (@apply_overlap d3Current) by (cbn [x y vx vy]; lra).
  cbn [fst x y vx vy index fx fy]. intros E.
  injection E as E _. 
  rewrite (Hs ((0 + 0 - 36.36 - 0) * (0 + 0 - 36.36 - 0)
               + (0 + 0 - 48.48 - 0) * (0 + 0 - 48.48 - 0))%R) in E by lra.
  change (@collideStrength d3Current) with 1%R in E. lra.
Qed.

(** C2, amended.  The collision force is handed, for every record, the
    drawn radius plus 1.5: the padding counts once per circle, three pixels
    for a pair.  When the walk of the force brings a node to a later one
    whose anticipated center (position plus velocity) differs from its own
    in both coordinates, the pair is corrected if and only if the distance
    between the anticipated centers is less than the two drawn radii plus 3.
    The correction acts on the velocities along the line of the centers,
    away from each other, in proportion to the overlap; the node met takes
    the share r_this^2 / (r_this^2 + r_met^2) of it, in collision radii, and
    the walking node the rest, so the larger circle moves less.  (An offset
    that is exactly zero is replaced by a jiggle first.)  A pass of the
    force over nodes no two of which are that close changes nothing,
    wherever the walk goes; on two nodes the pass is the pair step when the
    walk of the first comes to the second, and nothing otherwise.  That the
    walk comes to every pair that overlaps is not claimed: it follows a
    quadtree built when the pass begins. *)
Theorem forceCollide_threshold {host : Host} {d3 : D3} (innerWidth : Z) (first : event)
    (others : list event) :
  let vd := first :: others in
  let f := simulation innerWidth first others in
  let drawn := fun i : nat =>
    radiusScale (isMobile innerWidth)
      (d3_min (magnitude (fields first)) (map (fun d => magnitude (fields d)) others))
      (d3_max (magnitude (fields first)) (map (fun d => magnitude (fields d)) others))
      (magnitude (fields (nth i vd first))) in
  ((forall i : nat, (i < List.length vd)%nat ->
      nth i (radii f) 0 = drawn i + 1.5 /\ 0 < drawn i)
   /\ (forall (i j : nat) (this data : node) (draws : nat),
         (i < List.length vd)%nat -> (j < List.length vd)%nat ->
         let ri := nth i (radii f) 0 in
         let rj := nth j (radii f) 0 in
         let xi := x this + vx this in
         let yi := y this + vy this in
         let dx := xi - x data - vx data in
         let dy := yi - y data - vy data in
         let dist := sqrt (dx * dx + dy * dy) in
         let res := apply xi yi ri rj this data draws in
         dx <> 0 -> dy <> 0 ->
         (dist < drawn i + drawn j + 3 <-> fst res <> (this, data))
         /\ (~ dist < drawn i + drawn j + 3 -> res = (this, data, draws))
         /\ (dist < drawn i + drawn j + 3 ->
               let push := (drawn i + drawn j + 3 - dist) / dist * collideStrength in
               let w := (rj * rj) / (ri * ri + rj * rj) in
               0 < push /\ 0 < w < 1
               /\ res = ({| index := index this; x := x this; y := y this;
                            vx := vx this + dx * push * w; vy := vy this + dy * push * w;
                            fx := fx this; fy := fy this |},
                         {| index := index data; x := x data; y := y data;
                            vx := vx data - dx * push * (1 - w);
                            vy := vy data - dy * push * (1 - w);
                            fx := fx data; fy := fy data |},
                         draws)
               /\ (drawn j <= drawn i -> w <= 1 - w)))
   /\ (forall (ns : list node) (draws : nat),
         (forall i j, (i < j < List.length ns)%nat ->
            ~ overlapping (nth i ns unplaced) (nth j ns unplaced)
                          (nth i (radii f) 0) (nth j (radii f) 0)) ->
         forceCollide (radii f) (ns, draws) = (ns, draws))
   /\ (forall (a b : node) (draws : nat),
         forceCollide (radii f) ([a; b], draws)
         = if visits [a; b] (radii f) a 1
           then let '(a', b', draws') :=
                  apply (x a + vx a) (y a + vy a)
                        (nth 0 (radii f) 0) (nth 1 (radii f) 0) a b draws in
                ([a'; b'], draws')
           else ([a; b], draws)))%R.
Proof.
  intros vd f drawn.
  split; [intros i Hi; exact (radii_simulation innerWidth first others i Hi) |].
  split; [| split; [intros ns draws; apply forceCollide_apart
                   | intros a b draws; apply forceCollide_pair]].
  intros i j this data draws Hi Hj ri rj xi yi dx dy dist res Hdx Hdy.
  destruct (radii_simulation innerWidth first others i Hi) as [Ei Pi].
  destruct (radii_simulation innerWidth first others j Hj) as [Ej Pj].
  fold vd in Ei, Ej, Pi, Pj. fold f in Ei, Ej. fold (drawn i) in Ei, Pi.
  fold (drawn j) in Ej, Pj. fold ri in Ei. fold rj in Ej.
  assert (Hsum : (drawn i + drawn j + 3 = ri + rj)%R) by lra.
  rewrite Hsum.
  pose proof (apply_threshold xi yi ri rj this data draws
                ltac:(lra) ltac:(lra) Hdx Hdy) as T.
  cbv zeta in T. fold dx dy in T. fold dist in T. fold res in T.
  destruct T as (T1 & T2 & T3).
  split; [exact T1 |]. split; [exact T2 |].
  intros Hlt push w. destruct (T3 Hlt) as (Hp & Hw & Hres & Hle).
  split; [exact Hp |]. split; [exact Hw |]. split; [exact Hres |].
  intros Hd. apply Hle. lra.
Qed.

Lemma forceCollide_threshold_witness :
  (0 < @radiusScale d3Current (isMobile 1024)
         (d3_min (magnitude mainshock) [magnitude aftershock])
         (d3_max (magnitude mainshock) [magnitude aftershock])
         (magnitude mainshock))%R.
Proof.
  exact (proj2 (proj1 (@forceCollide_threshold manilaHost d3Current 1024
                         (@dated manilaHost mainshock) [@dated manilaHost aftershock])
                      0%nat ltac:(cbn; lia))).
Defined.

(** ** The nodes of the relaxation *)

Section NodeIndex.
Context {d3 : D3}.

Lemma forceY_index (yz : list R) (strength a : R) (ns : list node) :
  List.length yz = List.length ns ->
  map index (forceY yz strength a ns) = map index ns.
Proof.
  unfold forceY. revert yz. induction ns as [| n ns IH]; intros [| t yz] E;
    try discriminate E; [reflexivity |].
  cbn [combine map index]. f_equal. apply IH. now injection E.
Qed.

Lemma forceX_index (xz strength a : R) (ns : list node) :
  map index (forceX xz strength a ns) = map index ns.
Proof. unfold forceX. rewrite map_map. now apply map_ext. Qed.

Lemma store_index (i : nat) (n : node) (ns : list node) :
  index n = index (nth i ns unplaced) -> map index (store i n ns) = map index ns.
Proof.
  revert i. induction ns as [| m ns IH]; intros i E; [destruct i; reflexivity |].
  destruct i as [| i]; cbn [store map nth] in *; [now rewrite E |].
  f_equal. now apply IH.
Qed.

Lemma apply_index (xi yi ri rj : R) (this data : node) (draws : nat) :
  index (fst (fst (apply xi yi ri rj this data draws))) = index this
  /\ index (snd (fst (apply xi yi ri rj this data draws))) = index data.
Proof.
  unfold apply. destruct (Rlt_dec _ _); [| now split].
  destruct (Req_dec_T _ 0); destruct (Req_dec_T _ 0); now split.
Qed.

Lemma fold_left_invariant {A B : Type} (P : A -> Prop) (f : A -> B -> A) (l : list B) (a : A) :
  P a -> (forall a b, P a -> P (f a b)) -> P (fold_left f l a).
Proof.
  intros Ha Hf. revert a Ha. induction l as [| b l IH]; intros a Ha; [exact Ha |].
  cbn [fold_left]. apply IH. now apply Hf.
Qed.

Lemma walk_index (tree : list node) (radii : list R) (i : nat) (st : list node * nat) :
  map index (fst (walk tree radii i st)) = map index (fst st).
Proof.
  unfold walk.
  apply (fold_left_invariant (fun st' => map index (fst st') = map index (fst st)));
    [reflexivity |].
  intros st' j Hst'. destruct (visits _ _ _ _); [| exact Hst'].
  pose proof (apply_index
                (x (nth i (fst st) unplaced) + vx (nth i (fst st) unplaced))
                (y (nth i (fst st) unplaced) + vy (nth i (fst st) unplaced))
                (nth i radii 0%R) (nth j radii 0%R)
                (nth i (fst st') unplaced) (nth j (fst st') unplaced) (snd st'))
    as [Hi Hj].
  destruct (apply _ _ _ _ _ _ _) as [[n' d'] draws']. cbn [fst snd] in *.
  assert (E1 : map index (store i n' (fst st')) = map index (fst st'))
    by now apply store_index.
  rewrite store_index; [congruence |].
  rewrite Hj, <- !(map_nth index), E1. reflexivity.
Qed.

Lemma forceCollide_index (radii : list R) (st : list node * nat) :
  map index (fst (forceCollide radii st)) = map index (fst st).
Proof.
  unfold forceCollide.
  apply (fold_left_invariant (fun st' => map index (fst st') = map index (fst st)));
    [reflexivity |].
  intros st' i Hst'. now rewrite walk_index.
Qed.

Lemma tick_index (f : forces) (s : simulationState) :
  List.length (targetY f) = List.length (nodes s) ->
  map index (nodes (tick f s)) = map index (nodes s).
Proof.
  intros E. unfold tick.
  pose proof (forceCollide_index (radii f)
                (forceX (centerX f) 0.1
                   (alpha s + (alphaTarget - alpha s) * alphaDecay)
                   (forceY (targetY f) 1
                      (alpha s + (alphaTarget - alpha s) * alphaDecay) (nodes s)),
                 draws s)) as G.
  destruct (forceCollide _ _) as [ns3 draws']. cbn [fst nodes] in *.
  rewrite map_map. unfold advance. cbn [index].
  change (map (fun n : node => index n) ns3) with (map index ns3).
  rewrite G, forceX_index, forceY_index by assumption. reflexivity.
Qed.

Lemma ticks_index (f : forces) (count : nat) (s : simulationState) :
  List.length (targetY f) = List.length (nodes s) ->
  map index (nodes (ticks f count s)) = map index (nodes s).
Proof.
  intros E. unfold ticks. induction count as [| count IH]; [reflexivity |].
  change (Nat.iter (S count) (tick f) s) with (tick f (Nat.iter count (tick f) s)).
  rewrite tick_index; [exact IH |].
  rewrite E, <- (length_map index (nodes s)), <- IH. now rewrite length_map.
Qed.

Lemma initializeNodes_index (data : list row) :
  map index (initializeNodes data) = seq 0 (List.length data).
Proof.
  unfold initializeNodes. rewrite map_map. cbn [initializeNode index].
  generalize 0%nat. induction data as [| d data IH]; intros start; [reflexivity |].
  cbn [List.length seq combine map fst]. now rewrite IH.
Qed.

Lemma forceSimulation_index (data : list event) :
  map index (nodes (forceSimulation data)) = seq 0 (List.length data).
Proof.
  unfold forceSimulation. cbn [nodes].
  now rewrite initializeNodes_index, length_map.
Qed.

End NodeIndex.

(** ** A single record *)

Section SingleNode.
Local Open Scope R_scope.
Context {d3 : D3}.

Lemma alphaKeep_pow300 : (979 / 1000) ^ 300 >= 1 / 1000.
Proof.
  assert (H : (979 / 1000) ^ 300 * 1000 ^ 300 = 979 ^ 300).
  { rewrite <- Rpow_mult_distr. f_equal. lra. }
  assert (Hpos : 0 < 1000 ^ 300) by (apply pow_lt; lra).
  assert (Hz : 1000 ^ 300 <= 1000 * 979 ^ 300).
  { rewrite !pow_IZR, <- mult_IZR. apply IZR_le. vm_compute. discriminate. }
  revert H Hpos Hz.
  generalize ((979 / 1000) ^ 300) (1000 ^ 300) (979 ^ 300). intros b p n H Hpos Hz.
  nra.
Qed.

Lemma alphaKeep_range : 0 < alphaKeep <= 979 / 1000.
Proof.
  unfold alphaKeep, alphaMin. split; [apply exp_pos |].
  apply Rle_trans with (Rpower ((979 / 1000) ^ 300) (1 / 300)).
  - apply Rle_Rpower_l; [lra |]. split; [lra |]. pose proof alphaKeep_pow300. lra.
  - rewrite <- (Rpower_pow 300) by lra. rewrite Rpower_mult.
    replace (INR 300 * (1 / 300)) with 1.
    + rewrite Rpower_1; lra.
    + change 300%nat with (Z.to_nat 300). rewrite INR_IZR_INZ, Z2Nat.id by lia. lra.
Qed.

Lemma alphaKeep_pow (k : nat) :
  0 < alphaKeep ^ k <= 1 /\ ((9 <= k)%nat -> alphaKeep ^ k <= 5 / 6).
Proof.
  pose proof alphaKeep_range as [H0 H1].
  assert (Hle1 : forall n, alphaKeep ^ n <= 1).
  { intros n. rewrite <- (pow1 n). apply pow_incr. lra. }
  split; [split; [now apply pow_lt | apply Hle1] |].
  intros Hk. replace k with (9 + (k - 9))%nat by lia. rewrite pow_add.
  assert (H9 : alphaKeep ^ 9 <= (979 / 1000) ^ 9) by (apply pow_incr; lra).
  assert (Hc : (979 / 1000) ^ 9 <= 5 / 6) by lra.
  pose proof (Hle1 (k - 9)%nat). pose proof (pow_lt alphaKeep (k - 9) H0).
  pose proof (pow_lt alphaKeep 9 H0). nra.
Qed.

Lemma cone_step (s a abar K K' e v : R) :
  s = 1 \/ s = -1 -> 0 <= a <= abar -> 0 <= K -> 0 <= K' ->
  (1 + K') * (0.6 * K + 0.06 * abar) <= K' ->
  0 < s * e -> 0 <= s * v <= K * (s * e) ->
  let v' := (v + e * 0.1 * a) * 0.6 in
  let e' := e - v' in
  0 < s * e' /\ 0 <= s * v' <= K' * (s * e').
Proof.
  intros Hs Ha HK HK' Hstep He Hv v' e'.
  set (E := s * e) in *. set (V := s * v) in *.
  assert (HV' : s * v' = (V + E * 0.1 * a) * 0.6) by (unfold v', V, E; ring).
  assert (HE' : s * e' = E - s * v') by (unfold e', E; ring).
  rewrite HE', HV'.
  assert (Hc : (V + E * 0.1 * a) * 0.6 <= (0.6 * K + 0.06 * abar) * E) by nra.
  assert (Hc0 : 0 <= (V + E * 0.1 * a) * 0.6) by nra.
  set (V' := (V + E * 0.1 * a) * 0.6) in *.
  set (c := 0.6 * K + 0.06 * abar) in *.
  assert (Hc1 : (1 + K') * V' <= K' * E) by nra.
  split; [nra | split; [assumption | nra]].
Qed.

(** The bound of one tick carries to the next. *)
Lemma coneBound_step (k : nat) :
  0 <= coneBound k /\ 0 <= coneBound (S k)
  /\ (1 + coneBound (S k))
     * (0.6 * coneBound k + 0.06 * (if (k <? 8)%nat then 1 else 5 / 6))
     <= coneBound (S k).
Proof.
  do 9 (destruct k as [| k]; [cbn [coneBound Nat.ltb Nat.leb]; lra |]).
  cbn [coneBound Nat.ltb Nat.leb]. lra.
Qed.

Lemma tick_single (f : forces) (a ty : R) (n : node) (k : nat) :
  targetY f = [ty] -> fx n = None -> fy n = None ->
  tick f {| alpha := a; nodes := [n]; draws := k |}
  = {| alpha := a + (alphaTarget - a) * alphaDecay;
       nodes :=
         [ {| index := index n;
              x := x n + (vx n + (centerX f - x n) * 0.1
                                 * (a + (alphaTarget - a) * alphaDecay)) * velocityDecay;
              y := y n + (vy n + (ty - y n) * 1
                                 * (a + (alphaTarget - a) * alphaDecay)) * velocityDecay;
              vx := (vx n + (centerX f - x n) * 0.1
                            * (a + (alphaTarget - a) * alphaDecay)) * velocityDecay;
              vy := (vy n + (ty - y n) * 1
                            * (a + (alphaTarget - a) * alphaDecay)) * velocityDecay;
              fx := None;
              fy := None |} ];
       draws := k |}.
Proof.
  intros E Hfx Hfy. unfold tick. cbn [alpha nodes draws]. rewrite E.
  unfold forceY, forceX, forceCollide, walk, advance.
  cbn [combine map fold_left seq List.length fst snd Nat.sub index x y vx vy fx fy].
  rewrite Hfx, Hfy. reflexivity.
Qed.

(** A single free node whose target ordinate is 0 stays on it; its abscissa
    moves toward the center line, tick after tick, without reaching it. *)
Lemma single_node_relaxation (f : forces) (x0 s : R) :
  targetY f = [0] -> s = 1 \/ s = -1 -> 0 < s * (centerX f - x0) ->
  forall k : nat,
  exists n : node,
    ticks f k (atRest x0) = {| alpha := alphaKeep ^ k; nodes := [n]; draws := 0 |}
    /\ (fx n = None /\ fy n = None)
    /\ y n = 0 /\ vy n = 0
    /\ 0 < s * (centerX f - x n)
    /\ 0 <= s * vx n <= coneBound k * (s * (centerX f - x n))
    /\ 0 <= s * (x n - x0)
    /\ ((0 < k)%nat -> 0 < s * (x n - x0)).
Proof.
  intros Hty Hs He0 k. induction k as [| k IH].
  - exists {| index := 0; x := x0; y := 0; vx := 0; vy := 0; fx := None; fy := None |}.
    cbn [x y vx vy fx fy coneBound]. split; [reflexivity |].
    repeat split; try lra; try lia.
  - destruct IH as (n & Hk & [Hfx Hfy] & Hy & Hvy & He & Hv & Hx & _).
    unfold ticks in *.
    change (Nat.iter (S k) (tick f) (atRest x0))
      with (tick f (Nat.iter k (tick f) (atRest x0))).
    rewrite Hk, (tick_single f _ 0 n 0 Hty Hfx Hfy).
    assert (Ha : alphaKeep ^ k + (alphaTarget - alphaKeep ^ k) * alphaDecay
                 = alphaKeep ^ S k).
    { unfold alphaTarget, alphaDecay. fold alphaKeep. cbn [pow]. ring. }
    rewrite Ha. eexists. split; [reflexivity |]. cbn [x y vx vy fx fy].
    split; [split; reflexivity |].
    destruct (alphaKeep_pow (S k)) as [[Ha0 Ha1] Ha9].
    destruct (coneBound_step k) as (HK & HK' & Hstep).
    assert (Habar : alphaKeep ^ S k <= (if (k <? 8)%nat then 1 else 5 / 6)).
    { destruct (k <? 8)%nat eqn:E; [assumption |].
      apply Ha9. apply Nat.ltb_ge in E. lia. }
    clear Ha Ha9. set (a1 := alphaKeep ^ S k) in *. clearbody a1.
    pose proof (cone_step s a1 _ _ _ (centerX f - x n) (vx n)
                  Hs (conj (Rlt_le _ _ Ha0) Habar) HK HK' Hstep He Hv) as Hcone.
    cbv zeta in Hcone. destruct Hcone as [He' Hv'].
    unfold velocityDecay. rewrite Hy, Hvy.
    set (v' := (vx n + (centerX f - x n) * 0.1 * a1) * 0.6) in *.
    replace (centerX f - (x n + v')) with (centerX f - x n - v') by ring.
    split; [lra |]. split; [lra |]. split; [exact He' |]. split; [exact Hv' |].
    assert (Hpos : 0 < s * v').
    { unfold v'. destruct Hv as [Hv0 _].
      replace (s * ((vx n + (centerX f - x n) * 0.1 * a1) * 0.6))
        with (0.6 * (s * vx n) + 0.06 * a1 * (s * (centerX f - x n)))
        by lra.
      nra. }
    split; [nra | intros _; nra].
Qed.

(** A single free node that starts on the center line, on target, stays
    there. *)
Lemma single_node_settled (f : forces) :
  targetY f = [0] ->
  forall k : nat,
  exists n : node,
    ticks f k (atRest (centerX f)) = {| alpha := alphaKeep ^ k; nodes := [n]; draws := 0 |}
    /\ (fx n = None /\ fy n = None)
    /\ x n = centerX f /\ y n = 0 /\ vx n = 0 /\ vy n = 0.
Proof.
  intros Hty k. induction k as [| k IH].
  - eexists. split; [reflexivity |]. cbn [x y vx vy fx fy]. repeat split.
  - destruct IH as (n & Hk & [Hfx Hfy] & Hx & Hy & Hvx & Hvy).
    unfold ticks in *.
    change (Nat.iter (S k) (tick f) (atRest (centerX f)))
      with (tick f (Nat.iter k (tick f) (atRest (centerX f)))).
    rewrite Hk, (tick_single f _ 0 n 0 Hty Hfx Hfy).
    assert (Ha : alphaKeep ^ k + (alphaTarget - alphaKeep ^ k) * alphaDecay
                 = alphaKeep ^ S k).
    { unfold alphaTarget, alphaDecay. fold alphaKeep. cbn [pow]. ring. }
    rewrite Ha. eexists. split; [reflexivity |]. cbn [x y vx vy fx fy].
    split; [split; reflexivity |].
    rewrite Hx, Hy, Hvx, Hvy. generalize (alphaKeep ^ S k). intros a1.
    unfold velocityDecay. repeat split; lra.
Qed.

(** Where 300 ticks leave a single free node that starts at rest at
    [(x0, 0)] with the target ordinate 0: on the center line if it started
    there, and otherwise strictly between its start and the line. *)
Lemma single_node_end (f : forces) (x0 : R) :
  targetY f = [0] ->
  exists n : node,
    ticks f 300 (atRest x0) = {| alpha := alphaKeep ^ 300; nodes := [n]; draws := 0 |}
    /\ y n = 0
    /\ ((x0 = centerX f /\ x n = centerX f)
        \/ x0 < x n < centerX f
        \/ centerX f < x n < x0).
Proof.
  intros Hty.
  destruct (Rtotal_order x0 (centerX f)) as [Hlt | [Heq | Hgt]].
  - destruct (single_node_relaxation f x0 1 Hty (or_introl eq_refl) ltac:(lra) 300)
      as (n & Hn & _ & Hy & _ & He & _ & _ & Hx).
    exists n. split; [exact Hn |]. split; [exact Hy |].
    right; left. specialize (Hx ltac:(lia)). lra.
  - rewrite Heq.
    destruct (single_node_settled f Hty 300) as (n & Hn & _ & Hx & Hy & _).
    exists n. split; [exact Hn |]. split; [exact Hy |].
    left. split; [reflexivity | exact Hx].
  - destruct (single_node_relaxation f x0 (-1) Hty (or_intror eq_refl) ltac:(lra) 300)
      as (n & Hn & _ & Hy & _ & He & _ & _ & Hx).
    exists n. split; [exact Hn |]. split; [exact Hy |].
    right; right. specialize (Hx ltac:(lia)). lra.
Qed.

(** A record without the columns d3 reads starts on the spiral, at rest. *)
Lemma initializeNodes_unplaced (d : row) :
  unplacedRecord d ->
  initializeNodes [d]
  = [ {| index := 0; x := 10 * sqrt spiralOffset; y := 0; vx := 0; vy := 0;
         fx := None; fy := None |} ].
Proof.
  intros (Hx & Hy & Hvx & Hvy & Hfx & Hfy).
  unfold initializeNodes. cbn [List.length seq combine map fst snd].
  unfold initializeNode, initialRadius. rewrite Hx, Hy, Hvx, Hvy, Hfx, Hfy.
  cbn [fixedAt numberOf INR].
  rewrite Rmult_0_l, cos_0, sin_0, Rplus_0_r, Rmult_1_r, Rmult_0_r.
  reflexivity.
Qed.

(** A record with its own [x], with [y] at 0, and nothing else starts
    there, at rest. *)
Lemma initializeNodes_placed (d : row) (q : Q) :
  column_x d = Given q -> numberOf (column_y d) = Some 0 ->
  column_vx d = Absent -> column_vy d = Absent ->
  column_fx d = Absent -> column_fy d = Absent ->
  initializeNodes [d]
  = [ {| index := 0; x := Q2R q; y := 0; vx := 0; vy := 0; fx := None; fy := None |} ].
Proof.
  intros Hx Hy Hvx Hvy Hfx Hfy.
  unfold initializeNodes. cbn [List.length seq combine map fst snd].
  unfold initializeNode. rewrite Hx, Hy, Hvx, Hvy, Hfx, Hfy.
  cbn [fixedAt numberOf]. reflexivity.
Qed.

(** With the spiral of d3-force 2 and later, no viewport puts the center
    line on the abscissa the first node starts at; with the spiral of 1.x,
    which starts at the origin, only a chart of width 0 does. *)
Lemma center_off_start (w : Z) :
  (spiralOffset = 0.5 -> IZR w / 2 <> 10 * sqrt spiralOffset)
  /\ (spiralOffset = 0 -> (IZR w / 2 = 10 * sqrt spiralOffset <-> w = 0%Z)).
Proof.
  split.
  - intros -> E. pose proof (sqrt_sqrt 0.5 ltac:(lra)) as Hs.
    assert (Hr : sqrt 0.5 = IZR w / 20) by lra. rewrite Hr in Hs.
    assert (Hw : IZR (w * w) = IZR 200) by (rewrite mult_IZR; lra).
    apply eq_IZR in Hw.
    destruct (Z_le_gt_dec w 14), (Z_le_gt_dec (-14) w); nia.
  - intros ->. rewrite sqrt_0, Rmult_0_r. split.
    + intros E. apply eq_IZR. lra.
    + intros ->. lra.
Qed.

End SingleNode.

Lemma single_event_forces {host : Host} {d3 : D3} (innerWidth : Z) (first : event) :
  targetY (simulation innerWidth first []) = [0%R]
  /\ targetY (simulation innerWidth first [])
     = [Q2R (yScale (ms first) (ms (last [first] first)) (ms first))]
  /\ centerX (simulation innerWidth first []) = (IZR (width innerWidth) / 2)%R.
Proof.
  unfold simulation. cbn [targetY centerX map last].
  split; [| split; reflexivity].
  rewrite (Qeq_eqR _ _ (yScale_degenerate (ms first) (ms first))).
  now rewrite RMicromega.Q2R_0.
Qed.

(** Where the relaxation leaves a single record that starts at rest at
    [(x0, 0)], free. *)
Lemma single_event_nodes {host : Host} {d3 : D3} (innerWidth : Z) (first : event)
    (x0 : R) :
  nodes (forceSimulation [first])
  = [ {| index := 0; x := x0; y := 0; vx := 0; vy := 0; fx := None; fy := None |} ] ->
  exists n : node,
    nodes (ticks (simulation innerWidth first []) 300 (forceSimulation [first])) = [n]
    /\ y n = 0%R
    /\ ((x0 = IZR (width innerWidth) / 2 /\ x n = IZR (width innerWidth) / 2)%R
        \/ (x0 < x n < IZR (width innerWidth) / 2)%R
        \/ (IZR (width innerWidth) / 2 < x n < x0)%R).
Proof.
  intros Hinit.
  destruct (single_event_forces innerWidth first) as (Hty & _ & Hc).
  assert (Hstart : forceSimulation [first] = atRest x0).
  { unfold forceSimulation, atRest in *. cbn [nodes] in Hinit. now rewrite Hinit. }
  rewrite Hstart.
  destruct (single_node_end (simulation innerWidth first []) x0 Hty)
    as (n & Hn & Hy & Hx).
  exists n. rewrite Hn. cbn [nodes]. split; [reflexivity |]. split; [exact Hy |].
  rewrite Hc in Hx. exact Hx.
Qed.

Lemma mainshock_alone :
  @forEach row event (@annotate manilaHost) [mainshock]
  = Normal [@dated manilaHost mainshock]
  /\ validData [@dated manilaHost mainshock] = [@dated manilaHost mainshock].
Proof. split; vm_compute; reflexivity. Qed.

(** C1, refuted as stated: with the mainshock as the only record and a
    viewport 1024 wide, the center line is at 382 and the circle is drawn to
    the left of it, with the current d3 and with the earlier one alike. *)
Lemma single_event_off_center :
  (exists (ch : chart) (n : node),
      @createChart manilaHost d3Current 1024 (Some [mainshock]) = Normal (Some ch)
      /\ chart_nodes ch = [n]
      /\ centerX (chart_forces ch) = 382%R
      /\ (x n < 382)%R)
  /\ (exists (ch : chart) (n : node),
         @createChart manilaHost d3Legacy 1024 (Some [mainshock]) = Normal (Some ch)
         /\ chart_nodes ch = [n]
         /\ centerX (chart_forces ch) = 382%R
         /\ (x n < 382)%R).
Proof.
  destruct mainshock_alone as [Eev Ev].
  assert (Hw : (IZR (width 1024) / 2 = 382)%R).
  { change (width 1024) with 764. lra. }
  assert (Hu : unplacedRecord (fields (@dated manilaHost mainshock)))
    by (repeat split).
  split.
  - pose proof (@createChart_cons manilaHost d3Current 1024 _ _ _ _ Eev Ev) as E.
    destruct (@single_event_nodes manilaHost d3Current 1024 (@dated manilaHost mainshock)
                _ (@initializeNodes_unplaced d3Current _ Hu))
      as (n & Hn & _ & Hx).
    eexists. exists n. split; [exact E |]. cbn [chart_nodes chart_forces].
    split; [exact Hn |]. split; [unfold simulation; cbn [centerX]; exact Hw |].
    rewrite Hw in Hx. change (@spiralOffset d3Current) with 0.5%R in Hx.
    assert (0 <= sqrt 0.5)%R by apply sqrt_pos.
    assert (sqrt 0.5 <= 1)%R by (rewrite <- sqrt_1; apply sqrt_le_1_alt; lra).
    lra.
  - pose proof (@createChart_cons manilaHost d3Legacy 1024 _ _ _ _ Eev Ev) as E.
    destruct (@single_event_nodes manilaHost d3Legacy 1024 (@dated manilaHost mainshock)
                _ (@initializeNodes_unplaced d3Legacy _ Hu))
      as (n & Hn & _ & Hx).
    eexists. exists n. split; [exact E |]. cbn [chart_nodes chart_forces].
    split; [exact Hn |]. split; [unfold simulation; cbn [centerX]; exact Hw |].
    rewrite Hw in Hx. change (@spiralOffset d3Legacy) with 0%R in Hx.
    rewrite sqrt_0 in Hx. lra.
Qed.

(** C1, amended.  With a single surviving record the relaxation is not a
    no-op.  The ordinate of the target is the time-scale value of the
    record's instant, which is 0, and the center line is at half the width
    of the chart.  A record that has none of the columns [x], [y], [vx],
    [vy], [fx], [fy] is started by d3 on its spiral, at [(10 sqrt(1/2), 0)]
    (at the origin in d3-force 1.x), and the 300 ticks pull it toward the
    center line: the ordinate is exact, and the abscissa ends strictly
    between its start and the center line, and not on the line -- except
    with the spiral that starts at the origin when the chart has width 0,
    where start and line coincide.  A record that brings its own [x], with
    [y] at 0, and no velocity and no fixed position, is started there
    instead: it ends on the line if it started on it, and strictly between
    its start and the line otherwise. *)
Theorem single_event_layout {host : Host} {d3 : D3} (innerWidth : Z)
    (data : list row) (events : list event) (first : event) :
  forEach annotate data = Normal events ->
  validData events = [first] ->
  exists (ch : chart) (n : node),
    createChart innerWidth (Some data) = Normal (Some ch)
    /\ chart_nodes ch = [n]
    /\ targetY (chart_forces ch)
       = [Q2R (yScale (chart_startTime ch) (chart_endTime ch) (ms first))]
    /\ targetY (chart_forces ch) = [0%R]
    /\ centerX (chart_forces ch) = (IZR (width innerWidth) / 2)%R
    /\ (unplacedRecord (fields first) ->
          nodes (forceSimulation [first])
          = [ {| index := 0; x := 10 * sqrt spiralOffset; y := 0; vx := 0; vy := 0;
                 fx := None; fy := None |} ]
          /\ y n = 0%R
          /\ (spiralOffset = 0.5%R \/ width innerWidth <> 0 ->
                ((10 * sqrt spiralOffset < x n < centerX (chart_forces ch))%R
                 \/ (centerX (chart_forces ch) < x n < 10 * sqrt spiralOffset)%R)
                /\ x n <> centerX (chart_forces ch))
          /\ (spiralOffset = 0%R -> width innerWidth = 0 ->
                x n = centerX (chart_forces ch)))
    /\ (forall q : Q,
          column_x (fields first) = Given q ->
          numberOf (column_y (fields first)) = Some 0%R ->
          column_vx (fields first) = Absent -> column_vy (fields first) = Absent ->
          column_fx (fields first) = Absent -> column_fy (fields first) = Absent ->
          nodes (forceSimulation [first])
          = [ {| index := 0; x := Q2R q; y := 0; vx := 0; vy := 0;
                 fx := None; fy := None |} ]
          /\ y n = 0%R
          /\ (Q2R q = centerX (chart_forces ch) -> x n = centerX (chart_forces ch))
          /\ ((Q2R q < centerX (chart_forces ch))%R ->
                (Q2R q < x n < centerX (chart_forces ch))%R)
          /\ ((centerX (chart_forces ch) < Q2R q)%R ->
                (centerX (chart_forces ch) < x n < Q2R q)%R)).
Proof.
  intros Eev Ev. pose proof (createChart_cons innerWidth _ _ _ _ Eev Ev) as E.
  destruct (single_event_forces innerWidth first) as (Hty & Hty' & Hc).
  destruct (center_off_start (width innerWidth)) as [Hoff Hzero].
  assert (Hone : exists n : node,
             nodes (ticks (simulation innerWidth first []) 300 (forceSimulation [first]))
             = [n]).
  { assert (Hl : List.length
                   (nodes (ticks (simulation innerWidth first []) 300
                             (forceSimulation [first]))) = 1%nat).
    { rewrite <- (length_map index), ticks_index.
      - now rewrite forceSimulation_index.
      - rewrite Hty, <- (length_map index (nodes _)), forceSimulation_index.
        reflexivity. }
    destruct (nodes _) as [| n [| n' l]]; try discriminate Hl. now exists n. }
  destruct Hone as (n & Hn).
  eexists. exists n. split; [exact E |].
  cbn [chart_nodes chart_forces chart_startTime chart_endTime].
  split; [exact Hn |]. split; [exact Hty' |]. split; [exact Hty |].
  split; [exact Hc |]. rewrite Hc. split.
  - intros Hu.
    pose proof (initializeNodes_unplaced (fields first) Hu) as Hinit.
    assert (Hinit' : nodes (forceSimulation [first])
                     = [ {| index := 0; x := 10 * sqrt spiralOffset; y := 0; vx := 0;
                            vy := 0; fx := None; fy := None |} ])
      by exact Hinit.
    destruct (single_event_nodes innerWidth first _ Hinit') as (n' & Hn' & Hy & Hx).
    rewrite Hn in Hn'. injection Hn' as <-.
    split; [exact Hinit' |]. split; [exact Hy |]. split.
    + intros Hcase.
      assert (Hne : (10 * sqrt spiralOffset <> IZR (width innerWidth) / 2)%R).
      { intros C. destruct spiralOffset_cases as [Hs | Hs].
        - apply (Hoff Hs). now symmetry.
        - destruct Hcase as [Hhalf | Hw]; [rewrite Hs in Hhalf; lra |].
          apply Hw, (Hzero Hs). now symmetry. }
      destruct Hx as [[Heq _] | [Hx | Hx]]; [contradiction | |]; split; (tauto || lra).
    + intros Hs Hw. destruct Hx as [[_ Hx] | [Hx | Hx]]; [exact Hx | |];
        exfalso; rewrite Hs, sqrt_0, Rmult_0_r, Hw in Hx; lra.
  - intros q Hx Hy Hvx Hvy Hfx Hfy.
    pose proof (initializeNodes_placed (fields first) q Hx Hy Hvx Hvy Hfx Hfy) as Hinit.
    assert (Hinit' : nodes (forceSimulation [first])
                     = [ {| index := 0; x := Q2R q; y := 0; vx := 0;
                            vy := 0; fx := None; fy := None |} ])
      by exact Hinit.
    destruct (single_event_nodes innerWidth first _ Hinit') as (n' & Hn' & Hy' & Hx').
    rewrite Hn in Hn'. injection Hn' as <-.
    split; [exact Hinit' |]. split; [exact Hy' |]. repeat split; intros; lra.
Qed.

Lemma single_event_layout_witness :
  (exists (ch : chart) (n : node),
      @createChart utcHost d3Current 400 (Some [unreadable; aftershock]) = Normal (Some ch)
      /\ chart_nodes ch = [n]
      /\ y n = 0%R
      /\ x n <> centerX (chart_forces ch))
  /\ (exists (ch : chart) (n : node),
         @createChart manilaHost d3Current 1024
            (Some [located "10 Oct 2025 - 9:43 AM" (74 # 10) 382 0]) = Normal (Some ch)
         /\ chart_nodes ch = [n]
         /\ y n = 0%R
         /\ x n = 382%R).
Proof.
  split.
  - assert (Eev : @forEach row event (@annotate utcHost) [unreadable; aftershock]
                  = Normal (map (@dated utcHost) [unreadable; aftershock]))
      by (vm_compute; reflexivity).
    assert (Ev : validData (map (@dated utcHost) [unreadable; aftershock])
                 = [@dated utcHost aftershock])
      by (vm_compute; reflexivity).
    destruct (@single_event_layout utcHost d3Current 400 _ _ _ Eev Ev)
      as (ch & n & E & Hn & _ & _ & _ & Hu & _).
    destruct (Hu ltac:(repeat split)) as (_ & Hy & Hx & _).
    exists ch, n. split; [exact E |]. split; [exact Hn |]. split; [exact Hy |].
    apply Hx. left. reflexivity.
  - assert (Eev : @forEach row event (@annotate manilaHost)
                    [located "10 Oct 2025 - 9:43 AM" (74 # 10) 382 0]
                  = Normal [@dated manilaHost (located "10 Oct 2025 - 9:43 AM" (74 # 10) 382 0)])
      by (vm_compute; reflexivity).
    assert (Ev : validData [@dated manilaHost (located "10 Oct 2025 - 9:43 AM" (74 # 10) 382 0)]
                 = [@dated manilaHost (located "10 Oct 2025 - 9:43 AM" (74 # 10) 382 0)])
      by (vm_compute; reflexivity).
    destruct (@single_event_layout manilaHost d3Current 1024 _ _ _ Eev Ev)
      as (ch & n & E & Hn & _ & _ & Hc & _ & Hp).
    assert (Hw : (IZR (width 1024) / 2 = 382)%R).
    { change (width 1024) with 764. lra. }
    assert (Hq : Q2R 382 = 382%R) by (unfold Q2R; cbn [Qnum Qden]; lra).
    destruct (Hp 382%Q eq_refl) as (_ & Hy & Hx & _);
      try reflexivity.
    { cbn [fields dated located column_y numberOf]. f_equal. apply RMicromega.Q2R_0. }
    exists ch, n. split; [exact E |]. split; [exact Hn |]. split; [exact Hy |].
    rewrite <- Hw, <- Hc. apply Hx. rewrite Hc, Hw. exact Hq.
Defined.

(** ** The random source of the relaxation *)

Lemma fold_left_agree {A B : Type} (f g : A -> B -> A) (m : A -> nat) (P : nat -> Prop)
    (l : list B) (a : A) :
  (forall a b, (m a <= m (f a b))%nat) ->
  (forall a b, (forall i, (m a <= i < m (f a b))%nat -> P i) -> g a b = f a b) ->
  (m a <= m (fold_left f l a))%nat
  /\ ((forall i, (m a <= i < m (fold_left f l a))%nat -> P i) ->
      fold_left g l a = fold_left f l a).
Proof.
  intros Hle Heq. revert a. induction l as [| b l IH]; intros a; cbn [fold_left].
  - split; [lia | reflexivity].
  - destruct (IH (f a b)) as [H1 H2]. pose proof (Hle a b). split; [lia |].
    intros HP. rewrite (Heq a b) by (intros i Hi; apply HP; lia).
    apply H2. intros i Hi. apply HP. lia.
Qed.

Lemma tick_eq {d3 : D3} (f : forces) (s : simulationState) :
  tick f s
  = (let alpha' := alpha s + (alphaTarget - alpha s) * alphaDecay in
    let st := forceCollide (radii f)
                (forceX (centerX f) 0.1 alpha' (forceY (targetY f) 1 alpha' (nodes s)),
                 draws s) in
    {| alpha := alpha'; nodes := map advance (fst st); draws := snd st |})%R.
Proof. unfold tick. cbv zeta. destruct (forceCollide _ _). reflexivity. Qed.

(** The relaxation reads its random source at the draws it counts, and
    nowhere else: with another source that agrees with it on those draws,
    every step is the same. *)
Section RandomSource.
Local Open Scope R_scope.
Context {d3 : D3}.
Variable source : nat -> R.

Lemma apply_draws (xi yi ri rj : R) (this data : node) (draws : nat) :
  (draws <= snd (apply xi yi ri rj this data draws))%nat
  /\ ((forall i, (draws <= i < snd (apply xi yi ri rj this data draws))%nat ->
         source i = random i) ->
      @apply (withRandom d3 source) xi yi ri rj this data draws
      = apply xi yi ri rj this data draws).
Proof.
  unfold apply, jiggle. cbn [random withRandom].
  change (@collideStrength (withRandom d3 source)) with (@collideStrength d3).
  destruct (Rlt_dec _ _); [| split; [cbn [snd]; lia | reflexivity]].
  destruct (Req_dec_T (xi - x data - vx data) 0);
    destruct (Req_dec_T (yi - y data - vy data) 0); cbn [snd];
    (split; [lia | intros E]).
  - rewrite (E draws), (E (S draws)) by lia. reflexivity.
  - rewrite (E draws) by lia. reflexivity.
  - rewrite (E draws) by lia. reflexivity.
  - reflexivity.
Qed.

Lemma walk_draws (tree : list node) (radii : list R) (i : nat) (st : list node * nat) :
  (snd st <= snd (walk tree radii i st))%nat
  /\ ((forall k, (snd st <= k < snd (walk tree radii i st))%nat -> source k = random k) ->
      @walk (withRandom d3 source) tree radii i st = walk tree radii i st).
Proof.
  unfold walk. cbv zeta.
  apply (fold_left_agree _ _ snd (fun k => source k = random k)).
  - intros st' j. destruct (visits _ _ _ _); [| lia].
    pose proof (apply_draws (x (nth i (fst st) unplaced) + vx (nth i (fst st) unplaced))
                  (y (nth i (fst st) unplaced) + vy (nth i (fst st) unplaced))
                  (nth i radii 0) (nth j radii 0) (nth i (fst st') unplaced)
                  (nth j (fst st') unplaced) (snd st')) as [H _].
    destruct (apply _ _ _ _ _ _ _) as [[n' d'] draws']. exact H.
  - intros st' j. change (@visits (withRandom d3 source)) with (@visits d3).
    destruct (visits _ _ _ _); [| reflexivity].
    pose proof (apply_draws (x (nth i (fst st) unplaced) + vx (nth i (fst st) unplaced))
                  (y (nth i (fst st) unplaced) + vy (nth i (fst st) unplaced))
                  (nth i radii 0) (nth j radii 0) (nth i (fst st') unplaced)
                  (nth j (fst st') unplaced) (snd st')) as [_ H].
    intros E. rewrite H; [reflexivity |].
    destruct (apply _ _ _ _ _ _ _) as [[n' d'] draws']. exact E.
Qed.

Lemma forceCollide_draws (radii : list R) (st : list node * nat) :
  (snd st <= snd (forceCollide radii st))%nat
  /\ ((forall k, (snd st <= k < snd (forceCollide radii st))%nat -> source k = random k) ->
      @forceCollide (withRandom d3 source) radii st = forceCollide radii st).
Proof.
  unfold forceCollide. cbv zeta.
  apply (fold_left_agree _ _ snd (fun k => source k = random k));
    intros st' i; apply walk_draws.
Qed.

Lemma tick_draws (f : forces) (s : simulationState) :
  (draws s <= draws (tick f s))%nat
  /\ ((forall k, (draws s <= k < draws (tick f s))%nat -> source k = random k) ->
      @tick (withRandom d3 source) f s = tick f s).
Proof.
  rewrite (@tick_eq (withRandom d3 source)), tick_eq. cbv zeta. cbn [draws].
  match goal with
  | |- context [@forceCollide d3 ?r ?st] =>
      pose proof (forceCollide_draws r st) as [H1 H2]
  end.
  cbn [snd] in H1, H2. split; [exact H1 |].
  intros E. rewrite (H2 E). reflexivity.
Qed.

Lemma ticks_draws (f : forces) (count : nat) (s : simulationState) :
  (draws s <= draws (ticks f count s))%nat
  /\ ((forall k, (draws s <= k < draws (ticks f count s))%nat -> source k = random k) ->
      @ticks (withRandom d3 source) f count s = ticks f count s).
Proof.
  unfold ticks. induction count as [| count [IH1 IH2]]; [split; [apply le_n | reflexivity] |].
  change (@Nat.iter (S count) simulationState (@tick (withRandom d3 source) f) s)
    with (@tick (withRandom d3 source) f
            (@Nat.iter count simulationState (@tick (withRandom d3 source) f) s)).
  change (Nat.iter (S count) (tick f) s) with (tick f (Nat.iter count (tick f) s)).
  destruct (tick_draws f (Nat.iter count (tick f) s)) as [T1 T2].
  split; [lia |]. intros E. rewrite IH2 by (intros k Hk; apply E; lia).
  apply T2. intros k Hk. apply E. lia.
Qed.

(** A single node meets no other. *)
Lemma tick_alone (f : forces) (s : simulationState) :
  targetY f <> [] -> List.length (nodes s) = 1%nat ->
  List.length (nodes (tick f s)) = 1%nat /\ draws (tick f s) = draws s.
Proof.
  intros Hty E. destruct s as [a [| n [| m ns]] k]; try discriminate E.
  rewrite tick_eq. cbv zeta. cbn [alpha nodes draws].
  unfold forceY, forceX, forceCollide, walk.
  destruct (targetY f) as [| ty tys]; [contradiction |].
  cbn [combine map fold_left seq List.length fst snd Nat.sub]. split; reflexivity.
Qed.

Lemma ticks_alone (f : forces) (count : nat) (s : simulationState) :
  targetY f <> [] -> List.length (nodes s) = 1%nat ->
  List.length (nodes (ticks f count s)) = 1%nat /\ draws (ticks f count s) = draws s.
Proof.
  intros Hty E. unfold ticks. induction count as [| count [IH1 IH2]]; [split; [exact E | reflexivity] |].
  change (Nat.iter (S count) (tick f) s) with (tick f (Nat.iter count (tick f) s)).
  destruct (tick_alone f _ Hty IH1) as [T1 T2]. split; [exact T1 | congruence].
Qed.

End RandomSource.

Lemma simulation_withRandom {host : Host} {d3 : D3} (source : nat -> R) (innerWidth : Z)
    (first : event) (others : list event) :
  @simulation host (withRandom d3 source) innerWidth first others
  = simulation innerWidth first others.
Proof. reflexivity. Qed.

Lemma forceSimulation_withRandom {d3 : D3} (source : nat -> R) (data : list event) :
  @forceSimulation (withRandom d3 source) data = forceSimulation data.
Proof. reflexivity. Qed.

(** C3, amended.  The nodes a simulation starts from are the same
    whatever its random source: every record starts where its own columns
    put it or on the spiral, at the place of its index, and no jiggle has
    been drawn.  The 300 ticks read the random source at the jiggles they
    draw and nowhere else: with any other source that agrees with it on the
    draws consumed, the chart is the same.  So it is when no jiggle is
    drawn, whatever the other source, and none is drawn when a single
    record is left after the filter.  (The collision force draws a jiggle
    only for a pair whose anticipated centers coincide in an abscissa or an
    ordinate while they overlap.) *)
Theorem layout_random_free {host : Host} {d3 : D3} (source : nat -> R) (innerWidth : Z)
    (data : list row) (ch : chart) :
  createChart innerWidth (Some data) = Normal (Some ch) ->
  let vd := chart_validData ch in
  let f := chart_forces ch in
  let consumed := draws (ticks f 300 (forceSimulation vd)) in
  @forceSimulation (withRandom d3 source) vd = forceSimulation vd
  /\ draws (forceSimulation vd) = 0%nat
  /\ ((forall k, (k < consumed)%nat -> source k = random k) ->
      @createChart host (withRandom d3 source) innerWidth (Some data) = Normal (Some ch))
  /\ (consumed = 0%nat ->
      @createChart host (withRandom d3 source) innerWidth (Some data) = Normal (Some ch))
  /\ (List.length vd = 1%nat -> consumed = 0%nat).
Proof.
  intros E vd f consumed.
  split; [apply forceSimulation_withRandom |]. split; [reflexivity |].
  destruct (createChart_Normal _ _ _ E)
    as (events & first & others & Eev & Ev & Hvd & _ & _ & _ & _ & Hf & _).
  assert (Hsame : (forall k, (k < consumed)%nat -> source k = random k) ->
            @createChart host (withRandom d3 source) innerWidth (Some data)
            = Normal (Some ch)).
  { intros Hd.
    rewrite (createChart_cons _ _ _ _ _ Eev Ev) in E.
    rewrite (@createChart_cons host (withRandom d3 source) _ _ _ _ _ Eev Ev).
    rewrite simulation_withRandom, forceSimulation_withRandom.
    rewrite (proj2 (ticks_draws source (simulation innerWidth first others) 300
                      (forceSimulation (first :: others)))); [exact E |].
    intros k [_ Hk]. apply Hd. unfold consumed, f, vd. rewrite Hf, Hvd. exact Hk. }
  split; [exact Hsame |]. split.
  - intros H0. apply Hsame. intros k Hk. rewrite H0 in Hk. lia.
  - intros Hl. unfold consumed.
    apply (ticks_alone f 300 (forceSimulation vd)).
    + unfold f. rewrite Hf. unfold simulation. cbn [targetY map]. discriminate.
    + unfold forceSimulation. cbn [nodes]. unfold initializeNodes.
      rewrite length_map, length_combine, length_seq, length_map, Hl. reflexivity.
Qed.

Lemma layout_random_free_witness :
  exists ch : chart,
    @createChart manilaHost d3Legacy 1024 (Some [mainshock]) = Normal (Some ch)
    /\ @createChart manilaHost (withRandom d3Legacy (fun _ => 0.75%R)) 1024 (Some [mainshock])
       = Normal (Some ch).
Proof.
  destruct mainshock_alone as [Eev Ev].
  pose proof (@createChart_cons manilaHost d3Legacy 1024 _ _ _ _ Eev Ev) as E.
  eexists. split; [exact E |].
  destruct (@layout_random_free manilaHost d3Legacy (fun _ => 0.75%R) 1024 _ _ E)
    as (_ & _ & _ & H & Hl).
  apply H, Hl. reflexivity.
Defined.

(** ** Two records on one abscissa *)

Section PairRelaxation.
Local Open Scope R_scope.
Context {d3 : D3}.

Lemma coneBound_range (k : nat) : 0 <= coneBound k <= 1 / 4.
Proof.
  do 9 (destruct k as [| k]; [cbn [coneBound]; lra |]). cbn [coneBound]. lra.
Qed.

Lemma cone_step_pushed (a abar K K' E V P : R) :
  0 < a <= abar -> abar <= 1 -> 0 <= K <= 1 / 4 -> 0 <= K' ->
  (1 + K') * (0.6 * K + 0.06 * abar) <= K' ->
  0 < E -> - K * E <= V -> 0 <= P ->
  let V' := (V - E * 0.1 * a + P) * 0.6 in
  0 < E + V' /\ - K' * (E + V') <= V'.
Proof.
  intros Ha Habar HK HK' Hstep HE HV HP V'.
  assert (Hc : - (0.6 * K + 0.06 * a) * E <= V') by (unfold V'; nra).
  assert (Hc1 : (0.6 * K + 0.06 * a) * E <= (0.6 * K + 0.06 * abar) * E) by nra.
  clearbody V'.
  set (c := 0.6 * K + 0.06 * abar) in *.
  assert (Hc2 : c <= 0.21) by (unfold c; lra).
  assert (Hc3 : - c * E <= V') by lra.
  assert (Hc4 : (1 + K') * (c * E) <= K' * E) by nra.
  split; [nra |]. nra.
Qed.

(** The pair step on a pair held at different ordinates, the first node to
    the side [s] of the second: it does not bring them closer. *)
Lemma apply_held (s xi yi ri rj : R) (this data : node) (draws : nat) :
  s = 1 \/ s = -1 -> 0 < ri -> 0 < rj ->
  yi - y data - vy data <> 0 -> 0 < s * (xi - x data - vx data) ->
  exists this' data' : node,
    apply xi yi ri rj this data draws = (this', data', draws)
    /\ x this' = x this /\ x data' = x data
    /\ fx this' = fx this /\ fx data' = fx data
    /\ fy this' = fy this /\ fy data' = fy data
    /\ s * (vx this - vx data) <= s * (vx this' - vx data').
Proof.
  intros Hs Hri Hrj Hdy Hdx.
  set (dx := xi - x data - vx data) in *. set (dy := yi - y data - vy data) in *.
  destruct (Rlt_dec (dx * dx + dy * dy) ((ri + rj) * (ri + rj))) as [Hl | Hl].
  - assert (Hx : dx <> 0) by (intros C; rewrite C in Hdx; lra).
    rewrite apply_overlap by assumption. fold dx dy.
    do 2 eexists. split; [reflexivity |]. cbn [x vx fx fy].
    do 6 (split; [reflexivity |]).
    assert (H0 : 0 < dx * dx + dy * dy) by nra.
    pose proof (sqrt_lt_R0 _ H0) as Hd.
    pose proof (proj2 (sqrt_lt_square (dx * dx + dy * dy) (ri + rj) ltac:(lra) ltac:(lra)) Hl)
      as Hlt.
    pose proof collideStrength_range as Hcs.
    assert (Hp : 0 < (ri + rj - sqrt (dx * dx + dy * dy)) / sqrt (dx * dx + dy * dy)
                     * collideStrength).
    { apply Rmult_lt_0_compat; [apply Rdiv_lt_0_compat; lra | lra]. }
    set (push := (ri + rj - sqrt (dx * dx + dy * dy)) / sqrt (dx * dx + dy * dy)
                 * collideStrength) in *.
    set (w := rj * rj / (ri * ri + rj * rj)).
    replace (s * (vx this + dx * push * w - (vx data - dx * push * (1 - w))))
      with (s * (vx this - vx data) + s * dx * push) by ring.
    nra.
  - rewrite apply_apart by assumption.
    exists this, data. split; [reflexivity |]. repeat split; lra.
Qed.

(** The pair step on a pair held at different ordinates on one abscissa: a
    jiggle is drawn, and its sign decides the side the first node is pushed
    to. *)
Lemma apply_jiggled (s xi yi ri rj : R) (this data : node) (draws : nat) :
  s = 1 \/ s = -1 -> 0 < ri -> 0 < rj ->
  xi - x data - vx data = 0 -> yi - y data - vy data <> 0 ->
  0 < s * jiggle draws ->
  (yi - y data - vy data) * (yi - y data - vy data) + jiggle draws * jiggle draws
  < (ri + rj) * (ri + rj) ->
  exists this' data' : node,
    apply xi yi ri rj this data draws = (this', data', S draws)
    /\ x this' = x this /\ x data' = x data
    /\ fx this' = fx this /\ fx data' = fx data
    /\ fy this' = fy this /\ fy data' = fy data
    /\ s * (vx this - vx data) < s * (vx this' - vx data').
Proof.
  intros Hs Hri Hrj Hdx Hdy Hj Hl.
  unfold apply. rewrite Hdx.
  set (dy := yi - y data - vy data) in *. set (j := jiggle draws) in *.
  destruct (Rlt_dec (0 * 0 + dy * dy) ((ri + rj) * (ri + rj))) as [_ | C]; [| nra].
  destruct (Req_dec_T 0 0) as [_ | C]; [| lra].
  destruct (Req_dec_T dy 0) as [C | _]; [contradiction |].
  do 2 eexists. split; [reflexivity |]. cbn [x vx fx fy].
  do 6 (split; [reflexivity |]).
  assert (H0 : 0 < 0 * 0 + dy * dy + j * j) by nra.
  pose proof (sqrt_lt_R0 _ H0) as Hd.
  assert (Hlt : sqrt (0 * 0 + dy * dy + j * j) < ri + rj).
  { apply sqrt_lt_square; lra. }
  pose proof collideStrength_range as Hcs.
  assert (Hp : 0 < (ri + rj - sqrt (0 * 0 + dy * dy + j * j)) / sqrt (0 * 0 + dy * dy + j * j)
                   * collideStrength).
  { apply Rmult_lt_0_compat; [apply Rdiv_lt_0_compat; lra | lra]. }
  set (push := (ri + rj - sqrt (0 * 0 + dy * dy + j * j)) / sqrt (0 * 0 + dy * dy + j * j)
               * collideStrength) in *.
  set (w := rj * rj / (ri * ri + rj * rj)).
  replace (s * (vx this + j * push * w - (vx data - j * push * (1 - w))))
    with (s * (vx this - vx data) + s * j * push) by ring.
  nra.
Qed.

Variable f : forces.
Variables h r0 r1 s : R.
Hypothesis Hty : targetY f = [0; h].
Hypothesis Hrad : radii f = [r0; r1].
Hypothesis Hr0 : 0 < r0.
Hypothesis Hr1 : 0 < r1.
Hypothesis Hh : 0 < h.
Hypothesis Hvis : forall a b : node, visits [a; b] (radii f) a 1 = true.
Hypothesis Hs : s = 1 \/ s = -1.

Lemma tick_held (k : nat) (st : simulationState) :
  heldApart s h (coneBound k) (alphaKeep ^ k) st ->
  heldApart s h (coneBound (S k)) (alphaKeep ^ S k) (tick f st).
Proof.
  intros (n0 & n1 & -> & Hfx0 & Hfx1 & Hfy0 & Hfy1 & Hy0 & Hy1 & Hvy0 & Hvy1 & HE & HV).
  rewrite tick_eq. cbv zeta. cbn [alpha nodes draws].
  assert (Ha : alphaKeep ^ k + (alphaTarget - alphaKeep ^ k) * alphaDecay
               = alphaKeep ^ S k).
  { unfold alphaTarget, alphaDecay. fold alphaKeep. cbn [pow]. ring. }
  rewrite Ha.
  destruct (alphaKeep_pow (S k)) as [[Ha0 Ha1] Ha9].
  destruct (coneBound_step k) as (_ & HK' & Hstep).
  pose proof (coneBound_range k) as HK.
  assert (Habar : alphaKeep ^ S k <= (if (k <? 8)%nat then 1 else 5 / 6)).
  { destruct (k <? 8)%nat eqn:E; [assumption |].
    apply Ha9. apply Nat.ltb_ge in E. lia. }
  assert (Habar1 : (if (k <? 8)%nat then 1 else 5 / 6) <= 1).
  { destruct (k <? 8)%nat; lra. }
  clear Ha Ha9. set (a1 := alphaKeep ^ S k) in *. clearbody a1.
  rewrite Hty. unfold forceY, forceX. cbn [combine map].
  rewrite forceCollide_pair, Hvis, Hrad. cbn [nth].
  match goal with
  | |- context [apply ?xi ?yi ?ri ?rj ?this ?data ?d] =>
      destruct (apply_held s xi yi ri rj this data d Hs Hr0 Hr1)
        as (p0 & p1 & Hap & Hx0 & Hx1 & Hpfx0 & Hpfx1 & Hpfy0 & Hpfy1 & Hpv)
  end.
  { cbn [x y vx vy]. rewrite Hy0, Hy1, Hvy0, Hvy1. lra. }
  { cbn [x y vx vy].
    replace (s * (x n0 + (vx n0 + (centerX f - x n0) * 0.1 * a1) - x n1
                  - (vx n1 + (centerX f - x n1) * 0.1 * a1)))
      with (s * (x n0 - x n1) * (1 - 0.1 * a1) + s * (vx n0 - vx n1)) by ring.
    nra. }
  rewrite Hap. cbn [fst snd map].
  cbn [x y vx vy fx fy] in Hx0, Hx1, Hpfx0, Hpfx1, Hpfy0, Hpfy1, Hpv.
  exists (advance p0), (advance p1). split; [reflexivity |].
  unfold advance. cbn [x y vx vy fx fy].
  rewrite Hpfx0, Hpfx1, Hpfy0, Hpfy1, Hfx0, Hfx1, Hfy0, Hfy1, Hx0, Hx1.
  do 8 (split; [reflexivity |]).
  set (P := s * (vx p0 - vx p1)
            - s * (vx n0 + (centerX f - x n0) * 0.1 * a1
                   - (vx n1 + (centerX f - x n1) * 0.1 * a1))).
  assert (HP : 0 <= P) by (unfold P; lra).
  pose proof (cone_step_pushed a1 _ _ _ (s * (x n0 - x n1)) (s * (vx n0 - vx n1)) P
                (conj Ha0 Habar) Habar1 HK HK' Hstep HE HV HP) as Hcone.
  cbv zeta in Hcone. unfold velocityDecay.
  replace (s * (x n0 + vx p0 * 0.6 - (x n1 + vx p1 * 0.6)))
    with (s * (x n0 - x n1)
          + (s * (vx n0 - vx n1) - s * (x n0 - x n1) * 0.1 * a1 + P) * 0.6)
    by (unfold P; ring).
  replace (s * (vx p0 * 0.6 - vx p1 * 0.6))
    with ((s * (vx n0 - vx n1) - s * (x n0 - x n1) * 0.1 * a1 + P) * 0.6)
    by (unfold P; ring).
  exact Hcone.
Qed.

(** The first tick: the nodes start on one abscissa, and the jiggle parts
    them. *)
Lemma tick_parted (n0 n1 : node) :
  fx n0 = None -> fx n1 = None -> fy n0 = Some 0 -> fy n1 = Some h ->
  y n0 = 0 -> y n1 = h -> vy n0 = 0 -> vy n1 = 0 ->
  x n0 = x n1 -> vx n0 = vx n1 ->
  0 < s * jiggle 0 ->
  h * h + jiggle 0 * jiggle 0 < (r0 + r1) * (r0 + r1) ->
  heldApart s h (coneBound 1) (alphaKeep ^ 1)
    (tick f {| alpha := 1; nodes := [n0; n1]; draws := 0 |}).
Proof.
  intros Hfx0 Hfx1 Hfy0 Hfy1 Hy0 Hy1 Hvy0 Hvy1 Hx Hvx Hj Hl.
  rewrite tick_eq. cbv zeta. cbn [alpha nodes draws].
  assert (Ha : 1 + (alphaTarget - 1) * alphaDecay = alphaKeep ^ 1).
  { unfold alphaTarget, alphaDecay. fold alphaKeep. cbn [pow]. ring. }
  rewrite Ha. generalize (alphaKeep ^ 1). intros a1.
  rewrite Hty. unfold forceY, forceX. cbn [combine map].
  rewrite forceCollide_pair, Hvis, Hrad. cbn [nth].
  match goal with
  | |- context [apply ?xi ?yi ?ri ?rj ?this ?data ?d] =>
      destruct (apply_jiggled s xi yi ri rj this data d Hs Hr0 Hr1)
        as (p0 & p1 & Hap & Hx0 & Hx1 & Hpfx0 & Hpfx1 & Hpfy0 & Hpfy1 & Hpv)
  end.
  { cbn [x y vx vy]. rewrite Hx, Hvx. ring. }
  { cbn [x y vx vy]. rewrite Hy0, Hy1, Hvy0, Hvy1. lra. }
  { exact Hj. }
  { cbn [x y vx vy]. rewrite Hy0, Hy1, Hvy0, Hvy1.
    replace (0 + (0 + (0 - 0) * 1 * a1) - h - (0 + (h - h) * 1 * a1)) with (- h) by ring.
    lra. }
  rewrite Hap. cbn [fst snd map].
  cbn [x y vx vy fx fy] in Hx0, Hx1, Hpfx0, Hpfx1, Hpfy0, Hpfy1, Hpv.
  exists (advance p0), (advance p1). split; [reflexivity |].
  unfold advance. cbn [x y vx vy fx fy].
  rewrite Hpfx0, Hpfx1, Hpfy0, Hpfy1, Hfx0, Hfx1, Hfy0, Hfy1, Hx0, Hx1.
  do 8 (split; [reflexivity |]).
  rewrite Hx, Hvx in *. unfold velocityDecay. cbn [coneBound].
  assert (HP : 0 < s * (vx p0 - vx p1)) by lra.
  split; nra.
Qed.

(** Where 300 ticks leave them: on the side the jiggle chose. *)
Lemma ticks_parted (n0 n1 : node) :
  fx n0 = None -> fx n1 = None -> fy n0 = Some 0 -> fy n1 = Some h ->
  y n0 = 0 -> y n1 = h -> vy n0 = 0 -> vy n1 = 0 ->
  x n0 = x n1 -> vx n0 = vx n1 ->
  0 < s * jiggle 0 ->
  h * h + jiggle 0 * jiggle 0 < (r0 + r1) * (r0 + r1) ->
  forall k : nat,
    heldApart s h (coneBound (S k)) (alphaKeep ^ S k)
      (ticks f (S k) {| alpha := 1; nodes := [n0; n1]; draws := 0 |}).
Proof.
  intros Hfx0 Hfx1 Hfy0 Hfy1 Hy0 Hy1 Hvy0 Hvy1 Hx Hvx Hj Hl k.
  induction k as [| k IH].
  - now apply tick_parted.
  - unfold ticks in *.
    change (Nat.iter (S (S k)) (tick f) {| alpha := 1; nodes := [n0; n1]; draws := 0 |})
      with (tick f (Nat.iter (S k) (tick f) {| alpha := 1; nodes := [n0; n1]; draws := 0 |})).
    now apply tick_held.
Qed.

End PairRelaxation.

(** The two records of one table, a minute apart. *)
Lemma pair_events :
  let first := @dated manilaHost (placed "10 Oct 2025 - 9:43 AM" 5 0 0 0) in
  let second := @dated manilaHost (placed "10 Oct 2025 - 9:44 AM" 5 0 15 15) in
  @forEach row event (@annotate manilaHost)
     [placed "10 Oct 2025 - 9:43 AM" 5 0 0 0; placed "10 Oct 2025 - 9:44 AM" 5 0 15 15]
  = Normal [first; second]
  /\ validData [first; second] = [first; second]
  /\ ms first = 1760060580000 /\ ms second = 1760060640000.
Proof. repeat split; vm_compute; reflexivity. Qed.

Lemma pair_forces :
  let first := @dated manilaHost (placed "10 Oct 2025 - 9:43 AM" 5 0 0 0) in
  let second := @dated manilaHost (placed "10 Oct 2025 - 9:44 AM" 5 0 15 15) in
  let f := @simulation manilaHost d3Legacy 1024 first [second] in
  (targetY f = [0; 15] /\ radii f = [14 + 1.5; 14 + 1.5])%R
  /\ (@forceSimulation d3Legacy [first; second]
      = {| alpha := 1;
           nodes := [ {| index := 0; x := 0; y := 0; vx := 0; vy := 0;
                         fx := None; fy := Some 0 |};
                      {| index := 1; x := 0; y := 15; vx := 0; vy := 0;
                         fx := None; fy := Some 15 |} ];
           draws := 0 |})%R.
Proof.
  intros first second f.
  destruct pair_events as (_ & _ & M0 & M1). fold first second in M0, M1.
  assert (Q0 : Q2R 0 = 0%R) by apply RMicromega.Q2R_0.
  assert (Q15 : Q2R 15 = 15%R) by (unfold Q2R; cbn [Qnum Qden]; lra).
  split; [split |].
  - unfold f, simulation. cbn [targetY map last]. rewrite M0, M1.
    destruct (@yScale_ends d3Legacy 1760060580000 1760060640000 ltac:(lia)) as [Y0 Y1].
    rewrite (Qeq_eqR _ _ Y0), (Qeq_eqR _ _ Y1), Q0.
    change (chartHeight 1760060580000 1760060640000) with 15%Z.
    now rewrite Q2R_inject_Z.
  - unfold f, simulation. cbn [radii map].
    change (magnitude (fields first)) with 5%Q.
    change (magnitude (fields second)) with 5%Q.
    change (d3_min 5 (map (fun d => magnitude (fields d)) [second])) with 5%Q.
    change (d3_max 5 (map (fun d => magnitude (fields d)) [second])) with 5%Q.
    rewrite !(@radiusScale_single d3Legacy).
    change (isMobile 1024) with false. cbn [radiusRange fst snd].
    change (@collapsed d3Legacy) with 0%Q. rewrite Q0.
    repeat f_equal; lra.
  - transitivity
      {| alpha := 1%R;
         nodes := [ {| index := 0; x := Q2R 0; y := Q2R 0; vx := 0%R; vy := 0%R;
                       fx := None; fy := Some (Q2R 0) |};
                    {| index := 1; x := Q2R 0; y := Q2R 15; vx := 0%R; vy := 0%R;
                       fx := None; fy := Some (Q2R 15) |} ];
         draws := 0 |}; [reflexivity |].
    now rewrite Q0, Q15.
Qed.

(** C3, refuted as stated: the same two records, in the same order, laid
    out twice with the d3 of the 1.x era, whose jiggle draws from
    [Math.random].  The table gives both the abscissa 0 and holds each at
    the ordinate of its minute, 0 and 15, so their circles overlap on one
    vertical line and the first tick draws a jiggle.  When the draw is 1/4
    the first circle ends to the left of the second; when it is 3/4, to its
    right.  The records, the targets and the radii are the same in both
    runs. *)
Lemma layout_depends_on_random :
  let data := [placed "10 Oct 2025 - 9:43 AM" 5 0 0 0;
               placed "10 Oct 2025 - 9:44 AM" 5 0 15 15] in
  exists (once again : chart) (a0 a1 b0 b1 : node),
    @createChart manilaHost (withRandom d3Legacy (fun _ => 0.25%R)) 1024 (Some data)
    = Normal (Some once)
    /\ @createChart manilaHost (withRandom d3Legacy (fun _ => 0.75%R)) 1024 (Some data)
       = Normal (Some again)
    /\ chart_validData once = chart_validData again
    /\ chart_forces once = chart_forces again
    /\ chart_nodes once = [a0; a1] /\ chart_nodes again = [b0; b1]
    /\ (x a0 < x a1)%R /\ (x b1 < x b0)%R.
Proof.
  intros data.
  destruct pair_events as (Eev & Ev & _). destruct pair_forces as ([Hty Hrad] & Hstart).
  set (first := @dated manilaHost (placed "10 Oct 2025 - 9:43 AM" 5 0 0 0)) in *.
  set (second := @dated manilaHost (placed "10 Oct 2025 - 9:44 AM" 5 0 15 15)) in *.
  set (f := @simulation manilaHost d3Legacy 1024 first [second]) in *.
  fold data in Eev.
  assert (Hside : forall (q s : R), (s = 1 \/ s = -1)%R -> (0 < s * (q - 0.5))%R ->
            (-1 <= q - 0.5 <= 1)%R ->
            exists n0 n1 : node,
              nodes (@ticks (withRandom d3Legacy (fun _ => q)) f 300
                       (@forceSimulation d3Legacy [first; second])) = [n0; n1]
              /\ (0 < s * (x n0 - x n1))%R).
  { intros q s Hs Hq Hb. rewrite Hstart.
    destruct (@ticks_parted (withRandom d3Legacy (fun _ => q)) f 15 (14 + 1.5) (14 + 1.5) s
                Hty Hrad ltac:(lra) ltac:(lra) ltac:(lra) (fun _ _ => eq_refl) Hs
                {| index := 0; x := 0; y := 0; vx := 0; vy := 0;
                   fx := None; fy := Some 0%R |}
                {| index := 1; x := 0; y := 15; vx := 0; vy := 0;
                   fx := None; fy := Some 15%R |}
                eq_refl eq_refl eq_refl eq_refl eq_refl eq_refl eq_refl eq_refl
                eq_refl eq_refl) with (k := 299%nat)
      as (n0 & n1 & Hn & _ & _ & _ & _ & _ & _ & _ & _ & HE & _).
    - unfold jiggle. cbn [random withRandom]. nra.
    - unfold jiggle. cbn [random withRandom].
      assert (Hj : ((q - 0.5) * 1e-6 * ((q - 0.5) * 1e-6) <= 1)%R).
      { nra. }
      lra.
    - exists n0, n1. rewrite Hn. split; [reflexivity | exact HE]. }
  destruct (Hside 0.25%R (-1)%R (or_intror eq_refl) ltac:(lra)) as (a0 & a1 & Ha & HEa).
  { lra. }
  destruct (Hside 0.75%R 1%R (or_introl eq_refl) ltac:(lra)) as (b0 & b1 & Hb & HEb).
  { lra. }
  do 2 eexists. exists a0, a1, b0, b1.
  split; [exact (@createChart_cons manilaHost (withRandom d3Legacy (fun _ => 0.25%R))
                   1024 data _ _ _ Eev Ev) |].
  split; [exact (@createChart_cons manilaHost (withRandom d3Legacy (fun _ => 0.75%R))
                   1024 data _ _ _ Eev Ev) |].
  cbn [chart_validData chart_forces chart_nodes].
  split; [reflexivity |]. split; [reflexivity |].
  split; [exact Ha |]. split; [exact Hb |]. split; lra.
Qed.

(** * Further properties of the script *)

(** ** [parseDateTime]: what the pattern lets through *)

Lemma exec_at_needs_digit (s : chars) :
  match s with
  | [] => True
  | c :: _ => is_digit c = false
  end ->
  exec_at dateTimePattern s = None.
Proof.
  intros H. unfold exec_at, dateTimePattern, cat. cbn [run]. unfold plus.
  destruct s as [| c s]; [reflexivity |]. now rewrite H.
Qed.

Lemma exec_skips_prefix (pre s : chars) :
  forallb (fun c => negb (is_digit c)) pre = true ->
  exec dateTimePattern (pre ++ s) = exec dateTimePattern s.
Proof.
  induction pre as [| c pre IH]; intros H; [reflexivity |].
  cbn [forallb] in H. apply andb_prop in H as [Hc Hpre].
  apply negb_true_iff in Hc. cbn [app exec].
  rewrite (exec_at_needs_digit (c :: pre ++ s) Hc). now apply IH.
Qed.

(** X1. A text without a digit is never a timestamp: the result is [null]. *)
Theorem parseDateTime_no_digit {host : Host} (s : string) :
  forallb (fun c => negb (is_digit c)) (list_ascii_of_string s) = true ->
  parseDateTime s = None.
Proof.
  intros H. unfold parseDateTime.
  rewrite <- (app_nil_r (list_ascii_of_string s)), (exec_skips_prefix _ [] H).
  reflexivity.
Qed.

Lemma parseDateTime_no_digit_witness :
  @parseDateTime manilaHost "Oct - :PM (no time given)" = None.
Proof. apply (@parseDateTime_no_digit manilaHost). reflexivity. Defined.

Lemma dateTimeText_chars_tail (D M Y H Mi : string) (pm : bool) (tail : string) :
  list_ascii_of_string (dateTimeText D M Y H Mi pm ++ tail)
  = (list_ascii_of_string D ++ " " :: list_ascii_of_string M ++ " "
       :: list_ascii_of_string Y ++ " " :: "-" :: " "
       :: list_ascii_of_string H ++ ":" :: list_ascii_of_string Mi
       ++ " " :: ampmChars pm ++ list_ascii_of_string tail)%char.
Proof.
  rewrite list_ascii_of_string_app, dateTimeText_chars.
  repeat (rewrite <- app_assoc; cbn [app]). reflexivity.
Qed.

(** The groups the pattern captures in a timestamp with text around it. *)
Lemma exec_dateTime_around (pre : string) (D M Y H Mi : string) (pm : bool)
    (tail : string) :
  forallb (fun c => negb (is_digit c)) (list_ascii_of_string pre) = true ->
  allChars is_digit D = true -> allChars is_word M = true ->
  allChars is_digit Y = true -> allChars is_digit H = true ->
  allChars is_digit Mi = true ->
  exists whole,
    exec dateTimePattern
      (list_ascii_of_string (pre ++ dateTimeText D M Y H Mi pm ++ tail))
    = Some [whole; list_ascii_of_string D; list_ascii_of_string M;
            list_ascii_of_string Y; list_ascii_of_string H;
            list_ascii_of_string Mi; ampmChars pm].
Proof.
  intros Hpre HD HM HY HH HMi.
  apply allChars_chars in HD as [? ?], HM as [? ?], HY as [? ?], HH as [? ?], HMi as [? ?].
  rewrite list_ascii_of_string_app, (exec_skips_prefix _ _ Hpre), dateTimeText_chars_tail.
  destruct (exec_at_dateTime (list_ascii_of_string D) (list_ascii_of_string M)
              (list_ascii_of_string Y) (list_ascii_of_string H)
              (list_ascii_of_string Mi) pm (list_ascii_of_string tail))
    as [whole Hexec]; try assumption.
  exists whole.
  destruct (list_ascii_of_string D) as [| d0 lD] eqn:ED; [congruence |].
  cbn [exec app] in *. now rewrite Hexec.
Qed.

(** X2. The pattern is not anchored: text before the timestamp that holds no
    digit, and any text after it, change nothing. *)
Theorem parseDateTime_unanchored {host : Host} (pre : string) (D M Y H Mi : string)
    (pm : bool) (tail : string) :
  forallb (fun c => negb (is_digit c)) (list_ascii_of_string pre) = true ->
  allChars is_digit D = true -> allChars is_word M = true ->
  allChars is_digit Y = true -> allChars is_digit H = true ->
  allChars is_digit Mi = true ->
  parseDateTime (pre ++ dateTimeText D M Y H Mi pm ++ tail)
  = parseDateTime (dateTimeText D M Y H Mi pm).
Proof.
  intros Hpre HD HM HY HH HMi.
  destruct (exec_dateTime_around pre D M Y H Mi pm tail Hpre HD HM HY HH HMi)
    as [whole E].
  destruct (exec_dateTime_around "" D M Y H Mi pm "" eq_refl HD HM HY HH HMi)
    as [whole' E'].
  assert (Es : ("" ++ dateTimeText D M Y H Mi pm ++ "")%string
               = dateTimeText D M Y H Mi pm).
  { cbn [String.append]. clear. induction (dateTimeText D M Y H Mi pm) as [| c s IH];
      [reflexivity | cbn [String.append]; now rewrite IH]. }
  rewrite Es in E'. unfold parseDateTime. rewrite E, E'. reflexivity.
Qed.

Lemma parseDateTime_unanchored_witness :
  @parseDateTime utcHost ("Felt at: " ++ dateTimeText "10" "Oct" "2025" "9" "43" false
                            ++ " (PST), 12 km deep")
  = @parseDateTime utcHost (dateTimeText "10" "Oct" "2025" "9" "43" false).
Proof. apply (@parseDateTime_unanchored utcHost); reflexivity. Defined.

Lemma substring03_string (M : string) :
  string_of_list_ascii (substring03 (list_ascii_of_string M)) = substring 0 3 M.
Proof.
  unfold substring03.
  destruct M as [| a [| b [| c M]]]; try reflexivity.
  cbn [list_ascii_of_string firstn string_of_list_ascii substring].
  destruct M; reflexivity.
Qed.

(** X3. Of a timestamp, only the numbers count, the first three characters
    of the month word and AM or PM: leading zeros and the rest of the month
    word ("October" for "Oct") make no difference. *)
Theorem parseDateTime_by_value {host : Host} (D M Y H Mi D' M' Y' H' Mi' : string)
    (pm : bool) :
  allChars is_digit D = true -> allChars is_word M = true ->
  allChars is_digit Y = true -> allChars is_digit H = true ->
  allChars is_digit Mi = true ->
  allChars is_digit D' = true -> allChars is_word M' = true ->
  allChars is_digit Y' = true -> allChars is_digit H' = true ->
  allChars is_digit Mi' = true ->
  decimal D = decimal D' -> substring 0 3 M = substring 0 3 M' ->
  decimal Y = decimal Y' -> decimal H = decimal H' -> decimal Mi = decimal Mi' ->
  parseDateTime (dateTimeText D M Y H Mi pm) = parseDateTime (dateTimeText D' M' Y' H' Mi' pm).
Proof.
  intros ? ? ? ? ? ? ? ? ? ? ED EM EY EH EMi.
  rewrite !parseDateTime_text by assumption.
  unfold monthOf. rewrite !substring03_string, ED, EM, EY, EH, EMi. reflexivity.
Qed.

Lemma parseDateTime_by_value_witness :
  @parseDateTime utcHost (dateTimeText "07" "October" "2025" "09" "05" true)
  = @parseDateTime utcHost (dateTimeText "7" "Oct" "2025" "9" "5" true).
Proof. apply (@parseDateTime_by_value utcHost); reflexivity. Defined.

(** X4. A year below 100 is read as a year of the twentieth century: "25"
    gives the Date of 1925. *)
Theorem parseDateTime_short_year {host : Host} (D M Y Y' H Mi : string) (pm : bool) :
  allChars is_digit D = true -> allChars is_word M = true ->
  allChars is_digit Y = true -> allChars is_digit Y' = true ->
  allChars is_digit H = true -> allChars is_digit Mi = true ->
  decimal Y <= 99 -> decimal Y' = 1900 + decimal Y ->
  parseDateTime (dateTimeText D M Y H Mi pm) = parseDateTime (dateTimeText D M Y' H Mi pm).
Proof.
  intros HD HM HY HY' HH HMi Hle E.
  rewrite !parseDateTime_text by assumption. rewrite E.
  apply allChars_chars in HY as [_ HY]. apply decimal_nonneg in HY.
  destruct (monthOf M) as [m |]; [| reflexivity].
  rewrite !newDate_numbers. unfold MakeFullYear.
  replace ((0 <=? decimal Y) && (decimal Y <=? 99)) with true
    by (symmetry; apply andb_true_intro; split; apply Z.leb_le; lia).
  replace ((0 <=? 1900 + decimal Y) && (1900 + decimal Y <=? 99)) with false
    by (symmetry; apply andb_false_intro2, Z.leb_gt; lia).
  reflexivity.
Qed.

Lemma parseDateTime_short_year_witness :
  @parseDateTime manilaHost (dateTimeText "10" "Oct" "25" "5" "14" true)
  = @parseDateTime manilaHost (dateTimeText "10" "Oct" "1925" "5" "14" true).
Proof. apply (@parseDateTime_short_year manilaHost); try reflexivity. vm_compute. discriminate. Defined.

(** ** The Date of an ordinary timestamp *)

Lemma leb_day (k t : Z) : (msPerDay * k <=? t) = (k <=? Day t).
Proof.
  unfold Day, msPerDay.
  destruct (Z.leb_spec (86400000 * k) t), (Z.leb_spec k (t / 86400000));
    try reflexivity; exfalso; Z.div_mod_to_equations; lia.
Qed.

Lemma DayFromYear_shift (y : Z) :
  DayFromYear y = 365 * (y - 1970) + ((y - 1) / 4 - 492) - ((y - 1) / 100 - 19)
                  + ((y - 1) / 400 - 4).
Proof. unfold DayFromYear. Z.div_mod_to_equations. lia. Qed.

Lemma leap_step (y : Z) :
  y / 4 - (y - 1) / 4 = (if y mod 4 =? 0 then 1 else 0)
  /\ y / 100 - (y - 1) / 100 = (if y mod 100 =? 0 then 1 else 0)
  /\ y / 400 - (y - 1) / 400 = (if y mod 400 =? 0 then 1 else 0).
Proof.
  repeat split.
  - destruct (Z.eqb_spec (y mod 4) 0); Z.div_mod_to_equations; lia.
  - destruct (Z.eqb_spec (y mod 100) 0); Z.div_mod_to_equations; lia.
  - destruct (Z.eqb_spec (y mod 400) 0); Z.div_mod_to_equations; lia.
Qed.

Lemma leap_nesting (y : Z) :
  (y mod 400 = 0 -> y mod 100 = 0) /\ (y mod 100 = 0 -> y mod 4 = 0).
Proof. split; intros H; Z.div_mod_to_equations; lia. Qed.

Lemma DayFromYear_next (y : Z) : DayFromYear (y + 1) = DayFromYear y + DaysInYear y.
Proof.
  rewrite !DayFromYear_shift. replace (y + 1 - 1) with y by lia.
  destruct (leap_step y) as (S4 & S100 & S400).
  destruct (leap_nesting y) as (N400 & N100).
  unfold DaysInYear.
  destruct (Z.eqb_spec (y mod 4) 0) as [E4 | E4];
    destruct (Z.eqb_spec (y mod 100) 0) as [E100 | E100];
    destruct (Z.eqb_spec (y mod 400) 0) as [E400 | E400];
    cbn [negb]; try lia; try (exfalso; tauto).
Qed.

Lemma DayFromYear_monotone (a b : Z) : a <= b -> DayFromYear a <= DayFromYear b.
Proof. intros H. unfold DayFromYear. Z.div_mod_to_equations. lia. Qed.

Lemma year_climb_finds (fuel : nat) (y0 y t : Z) :
  y0 <= y -> y - y0 <= Z.of_nat fuel ->
  DayFromYear y <= Day t < DayFromYear (y + 1) ->
  year_climb fuel y0 t = y.
Proof.
  revert y0. induction fuel as [| fuel IH]; intros y0 H0 Hf Hd.
  - cbn [year_climb]. lia.
  - cbn [year_climb]. unfold TimeFromYear. rewrite leb_day.
    destruct (Z.leb_spec (DayFromYear (y0 + 1)) (Day t)) as [Hle | Hgt].
    + destruct (Z.eq_dec y0 y) as [-> | Hne]; [lia |].
      apply IH; [lia | lia | assumption].
    + destruct (Z.eq_dec y0 y) as [-> | Hne]; [reflexivity |].
      pose proof (DayFromYear_monotone (y0 + 1) y ltac:(lia)). lia.
Qed.

Lemma YearFromTime_finds (y t : Z) :
  0 <= y <= 9999 -> DayFromYear y <= Day t < DayFromYear (y + 1) ->
  YearFromTime t = y.
Proof.
  intros Hy Hd. unfold YearFromTime. apply year_climb_finds; [| | assumption].
  - unfold DayFromYear in Hd.
    destruct (Day t <? 0) eqn:E; [apply Z.ltb_lt in E | apply Z.ltb_ge in E];
      Z.div_mod_to_equations; lia.
  - unfold DayFromYear in Hd. change (Z.of_nat 2048) with 2048.
    destruct (Day t <? 0) eqn:E; [apply Z.ltb_lt in E | apply Z.ltb_ge in E];
      Z.div_mod_to_equations; lia.
Qed.

Lemma Day_localInstant (y m d h mi : Z) :
  0 <= m <= 11 -> 0 <= h <= 23 -> 0 <= mi <= 59 ->
  Day (localInstant y m d h mi) = DayFromYear y + DayFromMonth y m + d - 1
  /\ HourFromTime (localInstant y m d h mi) = h
  /\ MinFromTime (localInstant y m d h mi) = mi.
Proof.
  intros Hm Hh Hmi.
  unfold localInstant, MakeDate, MakeDay, MakeTime.
  rewrite (Z.div_small m 12), (Z.mod_small m 12), Z.add_0_r by lia.
  generalize (DayFromYear y + DayFromMonth y m + d - 1). intros D.
  unfold Day, HourFromTime, MinFromTime, msPerDay, msPerHour, msPerMinute, msPerSecond.
  repeat split; Z.div_mod_to_equations; lia.
Qed.

Lemma month_cases (m : Z) :
  0 <= m <= 11 ->
  m = 0 \/ m = 1 \/ m = 2 \/ m = 3 \/ m = 4 \/ m = 5 \/ m = 6 \/ m = 7 \/ m = 8
  \/ m = 9 \/ m = 10 \/ m = 11.
Proof. lia. Qed.

Lemma DaysInYear_cases (y : Z) : DaysInYear y = 365 \/ DaysInYear y = 366.
Proof.
  unfold DaysInYear.
  destruct (y mod 4 =? 0), (y mod 100 =? 0), (y mod 400 =? 0); cbn [negb]; lia.
Qed.

(** The local time value of a date of the calendar and a time of day reads
    back as that date and time. *)
Lemma civil_localInstant (y m d h mi : Z) :
  0 <= y <= 9999 -> 0 <= m <= 11 -> 1 <= d <= daysInMonth y m ->
  0 <= h <= 23 -> 0 <= mi <= 59 ->
  civil (localInstant y m d h mi) = (y, m, d, h, mi).
Proof.
  intros Hy Hm Hd Hh Hmi.
  destruct (Day_localInstant y m d h mi Hm Hh Hmi) as (ED & EH & EMi).
  set (t := localInstant y m d h mi) in *.
  pose proof (DaysInYear_cases y) as HL.
  assert (HW : 0 <= DayFromMonth y m + d - 1 < DaysInYear y).
  { unfold daysInMonth, DayFromMonth in *.
    destruct (month_cases m Hm) as [-> | [-> | [-> | [-> | [-> | [-> | [-> | [-> | [->
      | [-> | [-> | ->]]]]]]]]]]];
      destruct HL as [HL | HL]; rewrite HL in *; cbn [Z.eqb Pos.eqb] in *; lia. }
  assert (EY : YearFromTime t = y).
  { apply YearFromTime_finds; [assumption |]. rewrite ED, DayFromYear_next. lia. }
  assert (EW : DayWithinYear t = DayFromMonth y m + d - 1)
    by (unfold DayWithinYear; rewrite EY, ED; lia).
  assert (EM : MonthFromTime t = m /\ DateFromTime t = d).
  { unfold DateFromTime, MonthFromTime, InLeapYear. rewrite EW, EY.
    unfold daysInMonth, DayFromMonth in *.
    destruct (month_cases m Hm) as [-> | [-> | [-> | [-> | [-> | [-> | [-> | [-> | [->
      | [-> | [-> | ->]]]]]]]]]]];
      destruct HL as [HL | HL]; rewrite HL in *; cbn [Z.eqb Pos.eqb] in *;
      repeat match goal with
             | |- context [?a <? ?b] =>
                 destruct (Z.ltb_spec a b); [try (exfalso; lia) | try (exfalso; lia)]
             end;
      split; lia. }
  unfold civil. destruct EM as [-> ->]. now rewrite EY, EH, EMi.
Qed.

Lemma daysInMonth_range (year month : Z) : 28 <= daysInMonth year month <= 31.
Proof.
  unfold daysInMonth. destruct (DaysInYear year =? 366);
    destruct month as [| p | p]; try lia;
    repeat (destruct p as [p | p |]; try lia).
Qed.

(** X5. A timestamp that names a day of the calendar and a time of the
    12-hour clock is read without any carry: the Date is valid, and its
    local time value reads back as the year (1900 + Y for a year below
    100), the month of the table, the day, the hour on the 24-hour clock
    and the minute that were written. *)
Theorem parseDateTime_calendar {host : Host} (D M Y H Mi : string) (pm : bool) (m : Z) :
  allChars is_digit D = true -> allChars is_word M = true ->
  allChars is_digit Y = true -> allChars is_digit H = true ->
  allChars is_digit Mi = true -> monthOf M = Some m ->
  decimal Y <= 9999 ->
  1 <= decimal D <= daysInMonth (MakeFullYear (decimal Y)) m ->
  1 <= decimal H <= 12 -> decimal Mi <= 59 ->
  exists t : Z,
    parseDateTime (dateTimeText D M Y H Mi pm) = Some (mkDate (Some (UTC t)))
    /\ civil t = (MakeFullYear (decimal Y), m, decimal D, to24h pm (decimal H), decimal Mi)
    /\ HourFromTime t * 60 + MinFromTime t = clockMinutes pm (decimal H) (decimal Mi)
    /\ 0 <= clockMinutes pm (decimal H) (decimal Mi) < 1440.
Proof.
  intros HD HM HY HH HMi Hm BY BD BH BMi.
  exists (localInstant (MakeFullYear (decimal Y)) m (decimal D)
                       (to24h pm (decimal H)) (decimal Mi)).
  pose proof (daysInMonth_range (MakeFullYear (decimal Y)) m) as RD.
  split; [apply parseDateTime_in_range; try assumption; lia |].
  pose proof (monthOf_range _ _ Hm) as Rm.
  assert (RY : 0 <= decimal Y).
  { apply decimal_nonneg. unfold allChars in HY. now apply andb_prop in HY as [_ HY]. }
  assert (RMi : 0 <= decimal Mi).
  { apply decimal_nonneg. unfold allChars in HMi. now apply andb_prop in HMi as [_ HMi]. }
  assert (RF : 0 <= MakeFullYear (decimal Y) <= 9999).
  { unfold MakeFullYear. destruct ((0 <=? decimal Y) && (decimal Y <=? 99)) eqn:E; [| lia].
    apply andb_prop in E as [_ E]. apply Z.leb_le in E. lia. }
  assert (RH : 0 <= to24h pm (decimal H) <= 23).
  { unfold to24h. destruct pm; destruct (Z.eqb_spec (decimal H) 12); lia. }
  pose proof (civil_localInstant _ m (decimal D) _ (decimal Mi) RF Rm BD RH
                                 ltac:(lia)) as EC.
  split; [exact EC |].
  unfold civil in EC. injection EC as _ _ _ -> ->.
  unfold clockMinutes. split; [reflexivity | lia].
Qed.


Lemma parseDateTime_calendar_witness :
  exists t : Z,
    @parseDateTime manilaHost (dateTimeText "29" "Feb" "2024" "12" "05" false)
    = Some (mkDate (Some (@UTC manilaHost t)))
    /\ civil t = (2024, 1, 29, 0, 5).
Proof.
  assert (B1 : decimal "2024" <= 9999) by (vm_compute; discriminate).
  assert (B2 : 1 <= decimal "29" <= daysInMonth (MakeFullYear (decimal "2024")) 1)
    by (split; vm_compute; discriminate).
  assert (B3 : 1 <= decimal "12" <= 12) by (split; vm_compute; discriminate).
  assert (B4 : decimal "05" <= 59) by (vm_compute; discriminate).
  destruct (@parseDateTime_calendar manilaHost "29" "Feb" "2024" "12" "05" false 1
              eq_refl eq_refl eq_refl eq_refl eq_refl eq_refl B1 B2 B3 B4)
    as (t & E & C & _).
  exists t. split; [exact E | exact C].
Defined.

(** ** The sort keeps the order of the table among equal instants *)

Lemma filter_later (t : Z) (l : list event) :
  Forall (fun d => t < ms d) l -> filter (fun d => ms d =? t) l = [].
Proof.
  induction 1 as [| b l Hb _ IH]; [reflexivity |].
  cbn [filter]. destruct (Z.eqb_spec (ms b) t); [lia | exact IH].
Qed.

Lemma insert_stable (t : Z) (a : event) (l : list event) :
  isValid a = true -> Forall (fun d => isValid d = true) l ->
  StronglySorted byInstant l ->
  filter (fun d => ms d =? t) (insert compareDates a l)
  = filter (fun d => ms d =? t) l ++ filter (fun d => ms d =? t) [a].
Proof.
  intros Ha Hl Hs. induction l as [| b l IH].
  - reflexivity.
  - inversion Hl as [| ? ? Hb Hl']; subst. inversion Hs as [| ? ? Hs' Hall]; subst.
    cbn [insert]. rewrite (compareDates_valid b a Hb Ha).
    destruct (0 <? ms b - ms a) eqn:E.
    + apply Z.ltb_lt in E.
      cbn [filter]. destruct (Z.eqb_spec (ms a) t) as [Ea | Ea].
      * assert (G : filter (fun d => ms d =? t) (b :: l) = []).
        { apply filter_later. constructor; [lia |].
          eapply Forall_impl; [| exact Hall]. unfold byInstant. intros; lia. }
        cbn [filter] in G. rewrite G. reflexivity.
      * now rewrite app_nil_r.
    + cbn [filter]. rewrite (IH Hl' Hs').
      destruct (ms b =? t); reflexivity.
Qed.

Lemma sort_from_stable (t : Z) (l acc : list event) :
  Forall (fun d => isValid d = true) l ->
  Forall (fun d => isValid d = true) acc -> StronglySorted byInstant acc ->
  filter (fun d => ms d =? t)
         (fold_left (fun sorted a => insert compareDates a sorted) l acc)
  = filter (fun d => ms d =? t) acc ++ filter (fun d => ms d =? t) l.
Proof.
  revert acc. induction l as [| a l IH]; intros acc Hl Hacc Hs.
  - cbn [fold_left filter]. now rewrite app_nil_r.
  - inversion Hl as [| ? ? Ha Hl']; subst. cbn [fold_left].
    rewrite IH; [| assumption | now apply insert_valid |].
    + rewrite insert_stable by assumption. rewrite <- app_assoc. f_equal.
      cbn [filter]. destruct (ms a =? t); reflexivity.
    + apply Sorted_StronglySorted; [intros x y z; unfold byInstant; lia |].
      apply insert_sorted; [assumption .. |]. now apply StronglySorted_Sorted.
Qed.

(** X6. The sort of [validData] is stable: the records of one and the same
    instant stand in [validData] in the order of their rows in the table,
    which is the order the loop left them in. *)
Theorem validData_stable (data : list event) (t : Z) :
  filter (fun d => ms d =? t) (validData data)
  = filter (fun d => ms d =? t) (filter isValid data).
Proof.
  unfold validData, sort.
  rewrite sort_from_stable; [reflexivity | apply filter_valid | constructor | constructor].
Qed.

(** ** The minute ticks *)

Lemma minuteCount_next (currentTime endTime : Z) :
  currentTime <= endTime ->
  minuteCount currentTime endTime = S (minuteCount (currentTime + 60000) endTime).
Proof.
  intros H. unfold minuteCount. rewrite <- Z2Nat.inj_succ.
  - f_equal. Z.div_mod_to_equations. lia.
  - Z.div_mod_to_equations. lia.
Qed.

Lemma minuteCount_past (currentTime endTime : Z) :
  endTime < currentTime -> minuteCount currentTime endTime = 0%nat.
Proof.
  intros H. unfold minuteCount.
  assert ((endTime - currentTime) / 60000 + 1 <= 0) by (Z.div_mod_to_equations; lia).
  destruct ((endTime - currentTime) / 60000 + 1); try reflexivity; lia.
Qed.

Lemma minuteAt_next (currentTime : Z) (n : nat) :
  map (minuteAt currentTime) (seq 1 n) = map (minuteAt (currentTime + 60000)) (seq 0 n).
Proof.
  rewrite <- seq_shift, map_map. apply map_ext. intros k. unfold minuteAt. lia.
Qed.

Lemma minuteLoop_rounds (fuel : nat) (currentTime endTime : Z) (acc : list Z) :
  minuteLoop fuel currentTime endTime acc
  = if (minuteCount currentTime endTime <? fuel)%nat
    then Some (acc ++ map (minuteAt currentTime) (seq 0 (minuteCount currentTime endTime)))
    else None.
Proof.
  revert currentTime acc. induction fuel as [| fuel IH]; intros currentTime acc.
  - reflexivity.
  - cbn [minuteLoop]. destruct (Z.leb_spec currentTime endTime) as [Hle | Hgt].
    + rewrite IH, (minuteCount_next _ _ Hle).
      change (S (minuteCount (currentTime + 60000) endTime) <? S fuel)%nat
        with (minuteCount (currentTime + 60000) endTime <? fuel)%nat.
      destruct (minuteCount (currentTime + 60000) endTime <? fuel)%nat; [| reflexivity].
      cbn [seq map]. rewrite minuteAt_next, <- app_assoc. cbn [app].
      do 3 f_equal. unfold minuteAt. lia.
    + rewrite (minuteCount_past _ _ Hgt). cbn [seq map]. now rewrite app_nil_r.
Qed.

(** X7. The loop that collects the minute ticks ends after as many rounds
    as whole minutes fit between the first and the last instant, plus one,
    with one tick per minute from [startTime] on: given fewer rounds it has
    not ended; given more, it returns these ticks.  When [startTime] is not
    after [endTime] the first tick is [startTime], every tick lies in the
    range of the chart, and the last one is less than a minute before
    [endTime]. *)
Theorem allMinutes_ticks (fuel : nat) (startTime endTime : Z) :
  allMinutes fuel startTime endTime
  = (if (minuteCount startTime endTime <? fuel)%nat
     then Some (map (minuteAt startTime) (seq 0 (minuteCount startTime endTime)))
     else None)
  /\ (startTime <= endTime ->
      (0 < minuteCount startTime endTime)%nat
      /\ (forall k, (k < minuteCount startTime endTime)%nat ->
                    startTime <= minuteAt startTime k <= endTime)
      /\ endTime < minuteAt startTime (minuteCount startTime endTime)).
Proof.
  split; [unfold allMinutes; now rewrite minuteLoop_rounds |].
  intros Hle. unfold minuteCount, minuteAt.
  assert (H0 : 0 <= (endTime - startTime) / 60000) by (Z.div_mod_to_equations; lia).
  split; [lia |]. split.
  - intros k Hk. apply Nat2Z.inj_lt in Hk. rewrite Z2Nat.id in Hk by lia.
    Z.div_mod_to_equations. lia.
  - rewrite Z2Nat.id by lia. Z.div_mod_to_equations. lia.
Qed.

Lemma allMinutes_ticks_witness :
  (0 < minuteCount 1000 150000)%nat
  /\ allMinutes 10 1000 150000 = Some [1000; 61000; 121000].
Proof.
  split.
  - apply (proj2 (allMinutes_ticks 10 1000 150000)). lia.
  - rewrite (proj1 (allMinutes_ticks 10 1000 150000)). reflexivity.
Defined.

(** ** The keys of a row *)

Section CleanRowFacts.
Import CleanRow.
Context {V : Type} (isNull : V -> bool).

Lemma keyEqb_eq (a b : jsString) : keyEqb a b = true <-> a = b.
Proof. unfold keyEqb. destruct (list_eq_dec N.eq_dec a b); split; congruence. Qed.

Lemma ownProperty_define (o : @properties V) (k key : jsString) (v : V) :
  ownProperty (define o k v) key = if keyEqb k key then Some v else ownProperty o key.
Proof.
  induction o as [| [k' w] o IH]; cbn [define ownProperty]; [reflexivity |].
  destruct (keyEqb k' k) eqn:E; cbn [ownProperty].
  - apply keyEqb_eq in E. subst k'. destruct (keyEqb k key); reflexivity.
  - destruct (keyEqb k' key) eqn:E'; [| exact IH].
    apply keyEqb_eq in E'. subst k'.
    destruct (keyEqb k key) eqn:E''; [| reflexivity].
    apply keyEqb_eq in E''. subst k.
    assert (keyEqb key key = true) by now apply keyEqb_eq. congruence.
Qed.

Lemma ownProperty_app (o o' : @properties V) (key : jsString) :
  ownProperty (o ++ o') key
  = match ownProperty o key with Some v => Some v | None => ownProperty o' key end.
Proof.
  induction o as [| [k w] o IH]; cbn [app ownProperty]; [reflexivity |].
  destruct (keyEqb k key); [reflexivity | exact IH].
Qed.

Lemma cleanRow_from (row : @properties V) (clean : object) (key : jsString) :
  key <> protoKey ->
  ownProperty (own (fold_left (fun clean (p : jsString * V) =>
                                 assign isNull clean (trim (fst p)) (snd p)) row clean)) key
  = match ownProperty (rev (trimmedKeys row)) key with
    | Some v => Some v
    | None => ownProperty (own clean) key
    end.
Proof.
  intros Hkey. revert clean. induction row as [| [k v] row IH]; intros clean.
  - reflexivity.
  - cbn [fold_left trimmedKeys map rev fst snd]. rewrite IH.
    fold (trimmedKeys row). rewrite ownProperty_app.
    destruct (ownProperty (rev (trimmedKeys row)) key); [reflexivity |].
    cbn [ownProperty]. unfold assign.
    destruct (keyEqb (trim k) protoKey && negb (nullPrototype clean)) eqn:E; cbn [own].
    + apply andb_prop in E as [E _]. apply keyEqb_eq in E.
      destruct (keyEqb (trim k) key) eqn:E'; [| reflexivity].
      apply keyEqb_eq in E'. congruence.
    + rewrite ownProperty_define. destruct (keyEqb (trim k) key); reflexivity.
Qed.

Lemma cleanRow_proto_from (row : @properties V) (clean : object) :
  nullPrototype clean = false -> ownProperty (own clean) protoKey = None ->
  Forall (fun p => trim (fst p) = protoKey -> isNull (snd p) = false) row ->
  let res := fold_left (fun clean (p : jsString * V) =>
                          assign isNull clean (trim (fst p)) (snd p)) row clean in
  nullPrototype res = false /\ ownProperty (own res) protoKey = None.
Proof.
  intros Hn Ho Hrow. revert clean Hn Ho.
  induction Hrow as [| [k v] row Hp _ IH]; intros clean Hn Ho; [now split |].
  cbn [fold_left fst snd]. apply IH.
  - unfold assign. rewrite Hn. cbn [negb]. rewrite andb_true_r.
    destruct (keyEqb (trim k) protoKey) eqn:E; cbn [nullPrototype]; [| reflexivity].
    apply keyEqb_eq in E. now apply Hp.
  - unfold assign. rewrite Hn. cbn [negb]. rewrite andb_true_r.
    destruct (keyEqb (trim k) protoKey) eqn:E; cbn [own]; [assumption |].
    rewrite ownProperty_define, E. assumption.
Qed.

End CleanRowFacts.

(** X9. What [cleanRow] holds under a key other than "__proto__": the
    value of the last property of the row whose key, trimmed, is that key,
    and nothing when there is none.  So keys that differ by surrounding
    white space fall together, the later one winning.  No property
    "__proto__" is created as long as no field whose key trims to it is
    [null]: such a field is dropped. *)
Theorem cleanRow_lookup {V : Type} (isNull : V -> bool) (row : @CleanRow.properties V) :
  (forall key, key <> CleanRow.protoKey ->
     CleanRow.ownProperty (CleanRow.own (CleanRow.cleanRow isNull row)) key
     = CleanRow.ownProperty (rev (CleanRow.trimmedKeys row)) key)
  /\ (Forall (fun p => CleanRow.trim (fst p) = CleanRow.protoKey -> isNull (snd p) = false)
             row ->
      CleanRow.ownProperty (CleanRow.own (CleanRow.cleanRow isNull row)) CleanRow.protoKey
      = None).
Proof.
  split.
  - intros key Hkey. unfold CleanRow.cleanRow. rewrite cleanRow_from by assumption.
    cbn [CleanRow.own CleanRow.ownProperty].
    destruct (CleanRow.ownProperty _ key); reflexivity.
  - intros Hrow. unfold CleanRow.cleanRow.
    exact (proj2 (cleanRow_proto_from isNull row
                   {| CleanRow.own := []; CleanRow.nullPrototype := false |}
                   eq_refl eq_refl Hrow)).
Qed.

Lemma cleanRow_lookup_witness :
  CleanRow.ownProperty
    (CleanRow.own (CleanRow.cleanRow (fun v : Z => v =? 0)
                     [([32; 116]%N, 1); ([116; 32]%N, 2); ([109]%N, 3)]))
    [116]%N
  = Some 2.
Proof.
  rewrite (proj1 (cleanRow_lookup (fun v : Z => v =? 0)
                    [([32; 116]%N, 1); ([116; 32]%N, 2); ([109]%N, 3)]) [116]%N).
  - reflexivity.
  - discriminate.
Defined.

(** ** The reveal on scroll *)

Lemma map_combine_map {A B C : Type} (g : A -> B) (h : A * B -> C) (l : list A) :
  map h (combine l (map g l)) = map (fun a => h (a, g a)) l.
Proof. induction l as [| a l IH]; cbn [map combine]; [reflexivity | now rewrite IH]. Qed.

Lemma labelled_map {A B : Type} (f : A -> B) (vd : list event) (marks : list A) :
  labelled vd (map f marks) = map f (labelled vd marks).
Proof.
  unfold labelled. revert marks.
  induction vd as [| d vd IH]; intros [| a marks]; cbn [map combine filter]; try reflexivity.
  cbn [fst]. destruct (hasLabel d); cbn [map snd]; now rewrite IH.
Qed.

Lemma reaches_above (innerWidth : Z) (a b : node) (call : R * R) :
  (y a <= y b)%R -> reaches innerWidth b call = true -> reaches innerWidth a call = true.
Proof.
  unfold reaches, Rleb. intros Hab.
  destruct (Rle_dec (y b + _) _) as [Hb | _]; [| discriminate].
  intros _. destruct (Rle_dec (y a + _) _) as [_ | Ha]; [reflexivity |].
  exfalso. apply Ha. lra.
Qed.

(** The page after the calls, from any page whose circles and labels were
    set node by node. *)
Lemma scrolled_from (innerWidth : Z) (circles labels : list node) (calls : list (R * R))
    (seen : node -> bool) (hint : bool) :
  fold_left (fun page (c : R * R) =>
               updateVisibility innerWidth circles labels (fst c) (snd c) page)
            calls
            {| circleVisible := map seen circles;
               labelOpacity := map (fun d => if seen d then 1 else 0) labels;
               hintDisplayed := hint |}
  = {| circleVisible := map (fun d => seen d || existsb (reaches innerWidth d) calls) circles;
       labelOpacity :=
         map (fun d => if seen d || existsb (reaches innerWidth d) calls then 1 else 0) labels;
       hintDisplayed := hint && negb (existsb (fun c => Rltb 200 (fst c)) calls) |}.
Proof.
  revert seen hint. induction calls as [| c calls IH]; intros seen hint.
  - cbn [fold_left existsb negb]. rewrite andb_true_r. f_equal.
    + apply map_ext. intros d. now rewrite orb_false_r.
    + apply map_ext. intros d. now rewrite orb_false_r.
  - cbn [fold_left]. unfold updateVisibility at 2.
    cbn [circleVisible labelOpacity hintDisplayed].
    rewrite (map_combine_map seen), (map_combine_map (fun d => if seen d then 1 else 0)).
    cbn [fst snd].
    replace (map (fun a : node =>
                    if Rleb (y a + IZR (top (margin innerWidth))) (fst c + snd c / 2)
                    then 1 else if seen a then 1 else 0) labels)
      with (map (fun d => if (fun a => seen a || reaches innerWidth a c) d then 1 else 0)
                labels).
    2:{ apply map_ext. intros d. unfold reaches.
        destruct (seen d), (Rleb _ _); reflexivity. }
    replace (map (fun a : node =>
                    if Rleb (y a + IZR (top (margin innerWidth))) (fst c + snd c / 2)
                       && negb (seen a)
                    then true else seen a) circles)
      with (map (fun a => seen a || reaches innerWidth a c) circles).
    2:{ apply map_ext. intros d. unfold reaches.
        destruct (seen d), (Rleb _ _); reflexivity. }
    rewrite (IH (fun a => seen a || reaches innerWidth a c)).
    f_equal.
    + apply map_ext. intros d. cbn [existsb]. now rewrite orb_assoc.
    + apply map_ext. intros d. cbn [existsb]. now rewrite orb_assoc.
    + cbn [existsb]. destruct (Rltb 200 (fst c)), hint; reflexivity.
Qed.

(** X10. The reveal keeps no other memory than what it shows, and never
    takes anything back: after any sequence of calls of [updateVisibility],
    a circle is visible exactly when some call so far brought the middle of
    the window down to it (its ordinate plus the top margin), a label has
    opacity 1 under the same condition and 0 otherwise, and the scroll hint
    is displayed exactly when no call so far found the page scrolled by
    more than 200.  The order of the calls plays no part, and whatever is
    shown stays shown after further calls; a circle that is not below a
    visible one is visible too. *)
Theorem scrolled_reveal (innerWidth : Z) (circles labels : list node)
    (calls : list (R * R)) :
  scrolled innerWidth circles labels calls
  = {| circleVisible := map (fun d => existsb (reaches innerWidth d) calls) circles;
       labelOpacity :=
         map (fun d => if existsb (reaches innerWidth d) calls then 1 else 0) labels;
       hintDisplayed := negb (existsb (fun c => Rltb 200 (fst c)) calls) |}
  /\ (forall (more : list (R * R)) (d : node),
        existsb (reaches innerWidth d) calls = true ->
        existsb (reaches innerWidth d) (calls ++ more) = true)
  /\ (forall a b : node,
        (y a <= y b)%R ->
        existsb (reaches innerWidth b) calls = true ->
        existsb (reaches innerWidth a) calls = true).
Proof.
  split.
  { unfold scrolled, drawn.
    exact (scrolled_from innerWidth circles labels calls (fun _ => false) true). }
  split.
  - intros more d H. rewrite existsb_app, H. reflexivity.
  - intros a b Hab H. apply existsb_exists in H as (c & Hin & Hc).
    apply existsb_exists. exists c. split; [assumption |].
    now apply reaches_above with b.
Qed.

Lemma scrolled_reveal_witness :
  existsb (reaches 1024 {| index := 0; x := 0; y := 10; vx := 0; vy := 0;
                           fx := None; fy := None |})
          [(0, 400)%R]
  = true.
Proof.
  apply (proj2 (proj2 (scrolled_reveal 1024 [] [] [(0, 400)%R]))
           {| index := 0; x := 0; y := 10; vx := 0; vy := 0; fx := None; fy := None |}
           {| index := 1; x := 0; y := 20; vx := 0; vy := 0; fx := None; fy := None |}).
  - cbn [y]. lra.
  - cbn [existsb]. unfold reaches, Rleb. cbn [y fst snd margin top isMobile].
    destruct (Rle_dec _ _) as [_ | C]; [reflexivity |].
    exfalso. apply C. cbn. lra.
Defined.

(** X11. The labels follow their circles.  With the circles drawn for the
    nodes of [validData] and the labels for those of magnitude 2.5 and more,
    the opacity of a label is, after any calls, 1 if its circle is visible
    and 0 if not; and a record with a label is one of magnitude at least
    5 / 2, the bound included. *)
Theorem labels_follow_circles (innerWidth : Z) (vd : list event) (ns : list node)
    (calls : list (R * R)) :
  let page := scrolled innerWidth ns (labelled vd ns) calls in
  labelOpacity page
  = map (fun visible : bool => if visible then 1 else 0) (labelled vd (circleVisible page))
  /\ forall d : event, hasLabel d = true <-> (5 # 2 <= magnitude (fields d))%Q.
Proof.
  intros page. unfold page, scrolled, drawn.
  rewrite (scrolled_from innerWidth ns (labelled vd ns) calls (fun _ => false) true).
  cbn [labelOpacity circleVisible orb]. split.
  - rewrite labelled_map, map_map. reflexivity.
  - intros d. unfold hasLabel. rewrite Qle_bool_iff.
    assert (E : (25 # 10 == 5 # 2)%Q) by reflexivity. rewrite E. reflexivity.
Qed.

Lemma labels_follow_circles_witness :
  hasLabel {| fields := aftershock; date := None |} = true.
Proof.
  apply (proj2 (labels_follow_circles 1024 [] [] [])). vm_compute. discriminate.
Defined.

(** ** Margins and width *)

(** X12. The chart is 100 pixels narrower than the window below the
    breakpoint of 768 and 260 pixels narrower from it on, so across the
    breakpoint a wider window can give a narrower chart; the center line
    stands 10 pixels right of the middle of the window on mobile and 50 on
    desktop. *)
Theorem width_breakpoint (innerWidth : Z) :
  width innerWidth = (if innerWidth <? 768 then innerWidth - 100 else innerWidth - 260)
  /\ 2 * left (margin innerWidth) + width innerWidth
     = innerWidth + (if isMobile innerWidth then 20 else 100)
  /\ (forall narrow wide : Z,
        narrow < 768 <= wide -> width wide - width narrow = wide - narrow - 160)
  /\ (forall a b : Z, a <= b -> (a < 768 <-> b < 768) -> width a <= width b).
Proof.
  assert (W : forall iw, width iw = if iw <? 768 then iw - 100 else iw - 260).
  { intros iw. unfold width, margin, isMobile. destruct (iw <? 768); cbn [left right]; lia. }
  split; [apply W |]. split.
  { rewrite W. unfold margin, isMobile. destruct (innerWidth <? 768); cbn [left]; lia. }
  split.
  - intros narrow wide [Hn Hw]. rewrite !W.
    destruct (Z.ltb_spec narrow 768), (Z.ltb_spec wide 768); lia.
  - intros a b Hab Hside. rewrite !W.
    destruct (Z.ltb_spec a 768), (Z.ltb_spec b 768); lia.
Qed.

Lemma width_breakpoint_witness : width 800 - width 700 = 800 - 700 - 160.
Proof. apply (proj1 (proj2 (proj2 (width_breakpoint 0))) 700 800). lia. Defined.

(** ** Annotations *)

Lemma Qeq_bool_neq_false (q : Q) : ~ (q == 0)%Q -> Qeq_bool q 0 = false.
Proof.
  intros H. destruct (Qeq_bool q 0) eqn:E; [| reflexivity].
  apply Qeq_bool_iff in E. contradiction.
Qed.

(** X13. Where an annotation stands on the time axis.  Its anchor is the
    mean of the scale values of its two instants, which is the chart
    position of the middle of the interval, with no clamping to the chart.
    A left annotation is a box of height 80 centered on the anchor.  A right
    annotation starts [offsetY] above the anchor and has the height that the
    options give; an option that is missing or is 0 gives way to 100, resp.
    120, so that an offset of 0 cannot be asked for. *)
Theorem addAnnotation_vertical {d3 : D3} (innerWidth startTime endTime : Z)
    (startDate endDate : Z) (text side : string) (options : annotationOptions) :
  let fo := addAnnotation innerWidth startTime endTime startDate endDate text side options in
  let anchor := ((yScale startTime endTime startDate + yScale startTime endTime endDate) / 2)%Q in
  (startTime <= endTime ->
     (2 * anchor * (inject_Z endTime - inject_Z startTime)
      == inject_Z (chartHeight startTime endTime)
         * (inject_Z startDate + inject_Z endDate - 2 * inject_Z startTime))%Q)
  /\ (side = "left"%string ->
        (fo_y fo + fo_height fo / 2 == anchor)%Q /\ fo_height fo = 80%Q)
  /\ (side <> "left"%string ->
        (forall q, opt_offsetY options = Some q -> ~ (q == 0)%Q ->
                   fo_y fo = (anchor - q)%Q)
        /\ (opt_offsetY options = None
            \/ (exists q, opt_offsetY options = Some q /\ (q == 0)%Q) ->
            fo_y fo = (anchor - 100)%Q)
        /\ (forall q, opt_height options = Some q -> ~ (q == 0)%Q -> fo_height fo = q)
        /\ (opt_height options = None
            \/ (exists q, opt_height options = Some q /\ (q == 0)%Q) ->
            fo_height fo = 120%Q)).
Proof.
  intros fo anchor. split.
  { intros Hle. unfold anchor.
    pose proof (yScale_linear_eq startTime endTime startDate Hle) as Ea.
    pose proof (yScale_linear_eq startTime endTime endDate Hle) as Eb.
    set (ya := yScale startTime endTime startDate) in *.
    set (yb := yScale startTime endTime endDate) in *.
    transitivity ((ya * (inject_Z endTime - inject_Z startTime)
                   + yb * (inject_Z endTime - inject_Z startTime)))%Q; [field |].
    rewrite Ea, Eb. ring. }
  split.
  { intros ->. unfold fo, addAnnotation. cbn [String.eqb Ascii.eqb Bool.eqb fo_y fo_height].
    fold anchor. split; [field | reflexivity]. }
  intros Hside. unfold fo, addAnnotation.
  destruct (String.eqb_spec side "left") as [E | _]; [contradiction |].
  cbn [fo_y fo_height]. fold anchor. repeat split.
  - intros q Hq Hne. rewrite Hq. unfold orNumber. now rewrite Qeq_bool_neq_false.
  - intros [Hq | (q & Hq & H0)]; rewrite Hq; unfold orNumber; [reflexivity |].
    apply Qeq_bool_iff in H0. now rewrite H0.
  - intros q Hq Hne. rewrite Hq. unfold orNumber. now rewrite Qeq_bool_neq_false.
  - intros [Hq | (q & Hq & H0)]; rewrite Hq; unfold orNumber; [reflexivity |].
    apply Qeq_bool_iff in H0. now rewrite H0.
Qed.

Lemma addAnnotation_vertical_witness :
  fo_height (@addAnnotation d3Current 1024 0 600000 60000 120000 "text" "right"
               {| opt_fontSize := None; opt_leftFontSize := None;
                  opt_offsetY := None; opt_height := Some 0%Q |})
  = 120%Q.
Proof.
  apply (proj2 (proj2 (@addAnnotation_vertical d3Current 1024 0 600000 60000 120000
                         "text" "right"
                         {| opt_fontSize := None; opt_leftFontSize := None;
                            opt_offsetY := None; opt_height := Some 0%Q |}))).
  - discriminate.
  - right. exists 0%Q. split; reflexivity.
Defined.

(** X14. Where an annotation stands across the page, in the coordinates of
    the chart group, whose origin is the left margin and whose center line
    is at [width / 2].  On mobile a right annotation starts 30 pixels right
    of the center line and ends 20 pixels before the right edge of the
    window, and a left annotation is a box of width 50 inside the left
    margin.  On desktop both have a fixed width and a fixed place counted
    from an edge of the chart: the right one, 280 wide, starts on or right
    of the center line only in a window of 1360 pixels or more, and the left
    one, 160 wide and 320 pixels inside the chart, ends on or left of the
    center line only in a window of 1220 pixels or more. *)
Theorem addAnnotation_horizontal {d3 : D3} (innerWidth startTime endTime : Z)
    (startDate endDate : Z) (text side : string) (options : annotationOptions) :
  let fo := addAnnotation innerWidth startTime endTime startDate endDate text side options in
  let center := (inject_Z (width innerWidth) / 2)%Q in
  (side <> "left"%string ->
     (innerWidth < 768 ->
        (fo_x fo == center + 30)%Q
        /\ (inject_Z (left (margin innerWidth)) + fo_x fo + fo_width fo
            == inject_Z innerWidth - 20)%Q)
     /\ (768 <= innerWidth ->
           (fo_width fo == 280)%Q
           /\ (fo_x fo + fo_width fo == inject_Z (width innerWidth) - 270)%Q
           /\ ((center <= fo_x fo)%Q <-> 1360 <= innerWidth)))
  /\ (side = "left"%string ->
        (innerWidth < 768 ->
           (fo_width fo == 50)%Q /\ (fo_x fo + fo_width fo == -5)%Q)
        /\ (768 <= innerWidth ->
              (fo_x fo == 320)%Q /\ (fo_width fo == 160)%Q
              /\ ((fo_x fo + fo_width fo <= center)%Q <-> 1220 <= innerWidth))).
Proof.
  intros fo center.
  assert (W : forall k : Z, (inject_Z (innerWidth - k) == inject_Z innerWidth - inject_Z k)%Q).
  { intros k. unfold Zminus, Qminus. now rewrite inject_Z_plus, inject_Z_opp. }
  split.
  - intros Hside. unfold fo, center, addAnnotation.
    destruct (String.eqb_spec side "left") as [E | _]; [contradiction |].
    unfold width, margin, isMobile. split; intros Hw.
    + apply Z.ltb_lt in Hw. rewrite Hw. cbn [fo_x fo_width left right].
      replace (innerWidth - 60 - 40) with (innerWidth - 100) by lia. rewrite W.
      change (inject_Z 100) with 100%Q. change (inject_Z 60) with 60%Q.
      set (q := inject_Z innerWidth). clearbody q.
      split; [reflexivity | field].
    + apply Z.ltb_ge in Hw. rewrite Hw. cbn [fo_x fo_width left right].
      replace (innerWidth - 180 - 80) with (innerWidth - 260) by lia. rewrite W.
      rewrite (Zle_Qle 1360 innerWidth).
      change (inject_Z (80 + 200)) with 280%Q. change (inject_Z 260) with 260%Q.
      change (inject_Z 1360) with 1360%Q.
      set (q := inject_Z innerWidth). clearbody q.
      split; [reflexivity |]. split; [ring |].
      setoid_replace ((q - 260) / 2)%Q with (q * (1 # 2) - 130)%Q by field.
      split; intros H; Lqa.lra.
  - intros ->. unfold fo, center, addAnnotation.
    cbn [String.eqb Ascii.eqb Bool.eqb].
    unfold width, margin, isMobile. split; intros Hw.
    + apply Z.ltb_lt in Hw. rewrite Hw. cbn [fo_x fo_width left right].
      split; reflexivity.
    + apply Z.ltb_ge in Hw. rewrite Hw. cbn [fo_x fo_width left right].
      split; [reflexivity |]. split; [reflexivity |].
      replace (innerWidth - 180 - 80) with (innerWidth - 260) by lia. rewrite W.
      rewrite (Zle_Qle 1220 innerWidth).
      change (inject_Z (- (180) + 500)) with 320%Q. change (inject_Z (180 - 20)) with 160%Q.
      change (inject_Z 260) with 260%Q. change (inject_Z 1220) with 1220%Q.
      set (q := inject_Z innerWidth). clearbody q.
      setoid_replace ((q - 260) / 2)%Q with (q * (1 # 2) - 130)%Q by field.
      split; intros H; Lqa.lra.
Qed.

Lemma addAnnotation_horizontal_witness :
  (fo_width (@addAnnotation d3Current 1024 0 600000 60000 120000 "text" "right"
               {| opt_fontSize := None; opt_leftFontSize := None;
                  opt_offsetY := None; opt_height := None |}) == 280)%Q.
Proof.
  apply (proj1 (@addAnnotation_horizontal d3Current 1024 0 600000 60000 120000
                  "text" "right"
                  {| opt_fontSize := None; opt_leftFontSize := None;
                     opt_offsetY := None; opt_height := None |})).
  - discriminate.
  - lia.
Defined.

(** X15. The relaxation neither drops nor adds nor reorders nodes: after
    the 300 ticks there is one node per record of [validData], and the node
    at position i carries the index i, so that the i-th circle is drawn for
    the i-th record at the coordinates the relaxation gave that record; the
    targets and the radii the forces were given are also one per record. *)
Theorem chart_nodes_indexed {host : Host} {d3 : D3} (innerWidth : Z) (data : list row)
    (ch : chart) :
  createChart innerWidth (Some data) = Normal (Some ch) ->
  map index (chart_nodes ch) = seq 0 (List.length (chart_validData ch))
  /\ List.length (chart_nodes ch) = List.length (chart_validData ch)
  /\ List.length (targetY (chart_forces ch)) = List.length (chart_validData ch)
  /\ List.length (radii (chart_forces ch)) = List.length (chart_validData ch).
Proof.
  intros E.
  destruct (createChart_Normal _ _ _ E)
    as (events & first & others & _ & _ & Hvd & _ & _ & _ & _ & Hf & Hn).
  assert (Ht : List.length (targetY (chart_forces ch)) = List.length (first :: others)).
  { rewrite Hf. unfold simulation. cbn [targetY]. apply length_map. }
  assert (Hr : List.length (radii (chart_forces ch)) = List.length (first :: others)).
  { rewrite Hf. unfold simulation. cbn [radii]. apply length_map. }
  assert (Hi : map index (chart_nodes ch) = seq 0 (List.length (first :: others))).
  { rewrite Hn, ticks_index.
    - apply forceSimulation_index.
    - rewrite Ht, <- (length_map index (nodes _)), forceSimulation_index.
      now rewrite length_seq. }
  rewrite Hvd. split; [exact Hi |]. split; [| split; assumption].
  now rewrite <- (length_map index), Hi, length_seq.
Qed.

Lemma chart_nodes_indexed_witness :
  exists ch,
    @createChart manilaHost d3Current 1024 (Some [aftershock; unreadable; mainshock])
    = Normal (Some ch)
    /\ map index (chart_nodes ch) = seq 0 (List.length (chart_validData ch)).
Proof.
  pose proof (@createChart_cons manilaHost d3Current 1024 _ _ _ _
                sample_events sample_validData) as E.
  eexists. split; [exact E |].
  exact (proj1 (@chart_nodes_indexed manilaHost d3Current _ _ _ E)).
Defined.

(** ** What a collision exchanges *)

Section Exchange.
Local Open Scope R_scope.
Context {d3 : D3}.

Lemma apply_moves (xi yi ri rj : R) (this data : node) (draws : nat) :
  0 < ri -> 0 < rj ->
  let res := apply xi yi ri rj this data draws in
  let this' := fst (fst res) in
  let data' := snd (fst res) in
  (x this' = x this /\ y this' = y this /\ x data' = x data /\ y data' = y data)
  /\ ri * ri * (vx this' - vx this) + rj * rj * (vx data' - vx data) = 0
  /\ ri * ri * (vy this' - vy this) + rj * rj * (vy data' - vy data) = 0.
Proof.
  intros Hri Hrj. cbv zeta.
  assert (Hs : ri * ri + rj * rj <> 0) by nra.
  unfold apply. destruct (Rlt_dec _ _); [| cbn [fst snd]; repeat split; ring].
  destruct (Req_dec_T _ 0); destruct (Req_dec_T _ 0);
    cbn [fst snd x y vx vy]; repeat split; try reflexivity;
    match goal with
    | |- context [?a / sqrt ?b * collideStrength] =>
        generalize (a / sqrt b * collideStrength)
    end; intros l3; field; exact Hs.
Qed.

End Exchange.

(** X16. A correction by the collision force moves no node and changes
    only velocities, and what it gives one node it takes from the other in
    the inverse proportion of the squares of their radii: the sum of the
    two changes of velocity, each weighted by the square of the radius of
    its node, is zero, whether the pair overlaps or not and also when an
    offset of zero was replaced by a jiggle.  When the pair overlaps with
    both offsets non-zero, the anticipated centers end at the distance
    [dist + collideStrength * (r - dist)] from each other, [r] being the sum
    of the radii: at strength 1, exactly in touch. *)
Theorem apply_exchange {d3 : D3} (xi yi ri rj : R) (this data : node) (draws : nat) :
  (0 < ri -> 0 < rj ->
   let res := apply xi yi ri rj this data draws in
   let this' := fst (fst res) in
   let data' := snd (fst res) in
   let dx := xi - x data - vx data in
   let dy := yi - y data - vy data in
   let dist := sqrt (dx * dx + dy * dy) in
   let dx' := xi + (vx this' - vx this) - x data' - vx data' in
   let dy' := yi + (vy this' - vy this) - y data' - vy data' in
   (x this' = x this /\ y this' = y this /\ x data' = x data /\ y data' = y data)
   /\ ri * ri * (vx this' - vx this) + rj * rj * (vx data' - vx data) = 0
   /\ ri * ri * (vy this' - vy this) + rj * rj * (vy data' - vy data) = 0
   /\ (dist < ri + rj -> dx <> 0 -> dy <> 0 ->
       sqrt (dx' * dx' + dy' * dy') = dist + collideStrength * (ri + rj - dist)))%R.
Proof.
  intros Hri Hrj res this' data' dx dy dist dx' dy'.
  destruct (apply_moves xi yi ri rj this data draws Hri Hrj) as (Hpos & Hx & Hy).
  split; [exact Hpos |]. split; [exact Hx |]. split; [exact Hy |].
  intros Hd Hdx Hdy.
  assert (Hl : (0 < dx * dx + dy * dy)%R) by nra.
  assert (Hdist : (0 < dist)%R) by now apply sqrt_lt_R0.
  assert (Hov : (dx * dx + dy * dy < (ri + rj) * (ri + rj))%R).
  { apply (sqrt_lt_square (dx * dx + dy * dy) (ri + rj)); [lra | lra | exact Hd]. }
  pose proof (apply_overlap xi yi ri rj this data draws Hov Hdx Hdy) as E.
  cbv zeta in E. fold dx dy in E. fold dist in E.
  set (push := ((ri + rj - dist) / dist * collideStrength)%R) in E.
  set (w := (rj * rj / (ri * ri + rj * rj))%R) in E.
  assert (Ex : dx' = (dx * (1 + push))%R).
  { unfold dx', this', data', res. rewrite E. cbn [fst snd x vx]. unfold dx. ring. }
  assert (Ey : dy' = (dy * (1 + push))%R).
  { unfold dy', this', data', res. rewrite E. cbn [fst snd y vy]. unfold dy. ring. }
  pose proof collideStrength_range as Hcs.
  assert (Hp : (0 <= 1 + push)%R).
  { unfold push. assert (0 <= (ri + rj - dist) / dist)%R.
    { apply Rmult_le_pos; [lra |]. apply Rlt_le, Rinv_0_lt_compat. exact Hdist. }
    nra. }
  rewrite Ex, Ey.
  replace (dx * (1 + push) * (dx * (1 + push)) + dy * (1 + push) * (dy * (1 + push)))%R
    with ((dx * dx + dy * dy) * ((1 + push) * (1 + push)))%R by ring.
  rewrite sqrt_mult by nra. rewrite sqrt_square by exact Hp. fold dist.
  unfold push. field. lra.
Qed.

Lemma apply_exchange_witness :
  (2 * 2 * (vx (fst (fst (@apply d3Current 0 0 2 1 unplaced unplaced 0))) - vx unplaced)
   + 1 * 1 * (vx (snd (fst (@apply d3Current 0 0 2 1 unplaced unplaced 0))) - vx unplaced)
   = 0)%R.
Proof.
  apply (@apply_exchange d3Current 0 0 2 1 unplaced unplaced 0); lra.
Defined.

(** ** The targets of the relaxation *)

Lemma StronglySorted_map {A B : Type} (RA : A -> A -> Prop) (RB : B -> B -> Prop)
    (f : A -> B) (l : list A) :
  (forall a b, RA a b -> RB (f a) (f b)) ->
  StronglySorted RA l -> StronglySorted RB (map f l).
Proof.
  intros Hf. induction 1 as [| a l Hs IH Hall]; cbn [map]; constructor; [exact IH |].
  apply Forall_forall. intros b Hb. apply in_map_iff in Hb as (c & <- & Hc).
  apply Hf. rewrite Forall_forall in Hall. now apply Hall.
Qed.

(** X17. The ordinates the records are pulled to: in table order of
    [validData] they never decrease, the first is 0, and all of them lie on
    the chart, between 0 and [chartHeight]. *)
Theorem targetY_on_chart {host : Host} {d3 : D3} (innerWidth : Z) (data : list row)
    (ch : chart) :
  createChart innerWidth (Some data) = Normal (Some ch) ->
  StronglySorted Rle (targetY (chart_forces ch))
  /\ Forall (fun t => (0 <= t <= IZR (chart_chartHeight ch))%R) (targetY (chart_forces ch))
  /\ hd_error (targetY (chart_forces ch)) = Some 0%R.
Proof.
  intros E.
  destruct (createChart_Normal _ _ _ E)
    as (events & first & others & _ & Ev & Hvd & Ht0 & Ht1 & _ & Hh & Hf & _).
  pose proof (validData_sorted events) as Hs. rewrite Ev in Hs.
  pose proof (sorted_bounds _ _ Hs) as Hb.
  assert (Hle : ms first <= ms (last (first :: others) first)).
  { inversion Hb as [| ? ? H1 _]; subst. lia. }
  destruct (yScale_ends _ _ Hle) as [Y0 Y1].
  rewrite Hf, Hh, Ht0, Ht1. unfold simulation. cbn [targetY].
  split; [| split].
  - apply (StronglySorted_map byInstant); [| exact Hs].
    intros a b Hab. apply Qle_Rle. now apply yScale_monotone.
  - apply Forall_map. eapply Forall_impl; [| exact Hb].
    intros d [Hd0 Hd1]. cbv beta. split.
    + rewrite <- RMicromega.Q2R_0. apply Qle_Rle. rewrite <- Y0.
      now apply yScale_monotone.
    + rewrite <- Q2R_inject_Z. apply Qle_Rle. rewrite <- Y1.
      now apply yScale_monotone.
  - cbn [map hd_error]. f_equal. rewrite <- RMicromega.Q2R_0. now apply Qeq_eqR.
Qed.

Lemma targetY_on_chart_witness :
  exists ch,
    @createChart manilaHost d3Current 1024 (Some [aftershock; unreadable; mainshock])
    = Normal (Some ch)
    /\ hd_error (targetY (chart_forces ch)) = Some 0%R.
Proof.
  pose proof (@createChart_cons manilaHost d3Current 1024 _ _ _ _
                sample_events sample_validData) as E.
  eexists. split; [exact E |].
  exact (proj2 (proj2 (@targetY_on_chart manilaHost d3Current _ _ _ E))).
Defined.

(** ** Whole minutes *)

Lemma newDate_minute {host : Host} (year month day hour minute : number) (t : Z) :
  newDate year month day hour minute = mkDate (Some t) ->
  exists li, t = UTC li /\ li mod 60000 = 0.
Proof.
  unfold newDate.
  destruct year as [y |], month as [m |], day as [d |], hour as [h |],
    minute as [mi |]; try discriminate.
  cbv zeta. set (li := MakeDate _ _). intros E.
  exists li. split.
  - unfold TimeClip in E. destruct (Z.abs (UTC li) <=? _); congruence.
  - unfold li, MakeDate, MakeTime, msPerDay, msPerHour, msPerMinute, msPerSecond.
    generalize (MakeDay (MakeFullYear y) m d). intros D.
    replace (D * 86400000 + (h * 3600000 + mi * 60000 + 0 * 1000 + 0))
      with ((D * 1440 + h * 60 + mi) * 60000) by ring.
    apply Z.mod_mul. lia.
Qed.

Lemma parseDateTime_minute {host : Host} (s : string) (t : Z) :
  parseDateTime s = Some (mkDate (Some t)) ->
  exists li, t = UTC li /\ li mod 60000 = 0.
Proof.
  unfold parseDateTime. destruct (exec dateTimePattern _) as [parts |]; [| discriminate].
  intros E. injection E as E. eapply newDate_minute. exact E.
Qed.

Lemma validData_parsed {host : Host} (data : list row) (events : list event)
    (d : event) :
  forEach annotate data = Normal events -> In d (validData events) ->
  exists s, parseDateTime s = Some (mkDate (Some (ms d))).
Proof.
  intros E Hin.
  pose proof (validData_valid events) as Hv. rewrite Forall_forall in Hv.
  pose proof (Hv d Hin) as Hd.
  apply (Permutation_in _ (sort_perm _ _)) in Hin.
  apply filter_In in Hin as [Hin _].
  destruct (forEach_annotate_Normal data events E) as (_ & _ & Hp).
  rewrite Forall_forall in Hp. destruct (Hp d Hin) as (s & _ & Es).
  exists s. now rewrite <- Es.
Qed.

Lemma last_In {A : Type} (a : A) (l : list A) : In (last (a :: l) a) (a :: l).
Proof.
  generalize a at 1 3. induction l as [| b l IH]; intros c.
  - now left.
  - change (last (c :: b :: l) a) with (last (b :: l) a). right. apply IH.
Qed.

(** X19. On a host whose offset from UTC is the same all year, the
    instants of any two records of [validData] are a whole number of minutes
    apart, since [parseDateTime] builds its Dates from year, month, day,
    hour and minute alone.  So [Math.ceil] rounds nothing: [totalMinutes] is
    the span of the chart in minutes, and the chart is exactly 15 pixels
    high per minute. *)
Theorem chart_whole_minutes {host : Host} {d3 : D3} (offset : Z) (innerWidth : Z)
    (data : list row) (ch : chart) :
  (forall t, LocalTZA t = offset) ->
  createChart innerWidth (Some data) = Normal (Some ch) ->
  let t0 := chart_startTime ch in
  let t1 := chart_endTime ch in
  (forall d, In d (chart_validData ch) -> (ms d - t0) mod 60000 = 0)
  /\ chart_totalMinutes ch * 60000 = t1 - t0
  /\ chart_chartHeight ch * 60000 = (t1 - t0) * pixelsPerMinute.
Proof.
  intros Hz E t0 t1.
  destruct (createChart_Normal _ _ _ E)
    as (events & first & others & Eev & Ev & Hvd & Ht0 & Ht1 & Hmin & Hh & _ & _).
  fold t0 in Ht0, Hmin, Hh. fold t1 in Ht1, Hmin, Hh.
  pose proof (validData_sorted events) as Hs. rewrite Ev in Hs.
  pose proof (sorted_bounds _ _ Hs) as Hb. rewrite <- Ht0, <- Ht1 in Hb.
  rewrite Forall_forall in Hb.
  assert (Hmod : forall a b, In a (first :: others) -> In b (first :: others) ->
                             (ms b - ms a) mod 60000 = 0).
  { intros a b Ha Hb'. rewrite <- Ev in Ha, Hb'.
    destruct (validData_parsed data events a Eev Ha) as (ra & Pa).
    destruct (validData_parsed data events b Eev Hb') as (rb & Pb).
    destruct (parseDateTime_minute _ _ Pa) as (la & Ea & Ma).
    destruct (parseDateTime_minute _ _ Pb) as (lb & Eb & Mb).
    rewrite Ea, Eb. unfold UTC. rewrite !Hz.
    replace (lb - offset - (la - offset)) with (lb - la) by ring.
    Z.div_mod_to_equations. lia. }
  assert (Hfirst : In first (first :: others)) by now left.
  assert (Hlast : In (last (first :: others) first) (first :: others)) by apply last_In.
  assert (Hspan : (t1 - t0) mod 60000 = 0).
  { rewrite Ht0, Ht1. now apply Hmod. }
  assert (Hle : t0 <= t1) by (specialize (Hb first Hfirst); lia).
  assert (Htot : chart_totalMinutes ch * 60000 = t1 - t0).
  { rewrite Hmin. unfold totalMinutes.
    pose proof (ceilDiv_spec (t1 - t0) (1000 * 60) ltac:(lia)).
    Z.div_mod_to_equations. lia. }
  assert (Hheight : chart_chartHeight ch * 60000 = (t1 - t0) * pixelsPerMinute).
  { rewrite Hh. unfold chartHeight. rewrite <- Hmin. unfold pixelsPerMinute. lia. }
  rewrite Hvd.
  split; [intros d Hd; rewrite Ht0; now apply Hmod |].
  split; [exact Htot | exact Hheight].
Qed.

Lemma chart_whole_minutes_witness :
  exists ch,
    @createChart manilaHost d3Current 1024 (Some [aftershock; unreadable; mainshock])
    = Normal (Some ch)
    /\ chart_totalMinutes ch * 60000 = chart_endTime ch - chart_startTime ch.
Proof.
  pose proof (@createChart_cons manilaHost d3Current 1024 _ _ _ _
                sample_events sample_validData) as E.
  eexists. split; [exact E |].
  exact (proj1 (proj2 (@chart_whole_minutes manilaHost d3Current 28800000 _ _ _
                         (fun _ => eq_refl) E))).
Defined.

(** ** The labels of the ticks *)

(** X20. A minute tick gets a label exactly when its minute of the hour is
    a multiple of 5; the test for an hour mark that the condition also
    carries never decides, an hour mark being a multiple of 5.  An hour
    mark is the major tick, labelled in bold with the date; every other
    tick is a minor one, and its label, if any, shows the time alone. *)
Theorem drawTick_labels (getMinutes : Z) :
  (label (drawTick getMinutes) <> None <-> Z.rem getMinutes 5 = 0)
  /\ (getMinutes = 0 ->
        drawTick getMinutes
        = {| tickClass := "major-time-tick";
             label := Some {| fontWeight := "bold"; fontSize := "14px";
                              timeFormat := "%b %d, %I:%M %p" |} |})
  /\ (getMinutes <> 0 ->
        tickClass (drawTick getMinutes) = "time-tick"%string
        /\ (Z.rem getMinutes 5 = 0 ->
              label (drawTick getMinutes)
              = Some {| fontWeight := "normal"; fontSize := "12px";
                        timeFormat := "%I:%M" |})).
Proof.
  unfold drawTick. split; [| split].
  - destruct (Z.eqb_spec getMinutes 0) as [-> | Hne]; cbn [label].
    + cbn. split; [reflexivity | discriminate].
    + rewrite orb_false_r. destruct (Z.eqb_spec (Z.rem getMinutes 5) 0) as [E | E].
      * split; [intros _; exact E | discriminate].
      * split; [intros C; now contradiction C | intros C; contradiction].
  - intros ->. reflexivity.
  - intros Hne. destruct (Z.eqb_spec getMinutes 0) as [E | _]; [contradiction |].
    cbn [tickClass label]. split; [reflexivity |].
    intros E. rewrite E. reflexivity.
Qed.

Lemma drawTick_labels_witness :
  label (drawTick 35)
  = Some {| fontWeight := "normal"; fontSize := "12px"; timeFormat := "%I:%M" |}.
Proof.
  apply (proj2 (proj2 (drawTick_labels 35))); [discriminate | reflexivity].
Defined.
